(** * WatchTower: a shallow embedding of the trigger classes and of the
      WatchMan polling loop, with the properties checked against them.

    Source files embedded here:
    - [watchtower/Triggers.py]: pattern validation, the five trigger classes
      and their [getFilenameMatches];
    - [watchtower/Action.py]: the action interface;
    - [watchtower/WatchMan.py]: [__init__] and [run].

    Conventions of the model.
    - A Python 2 [str] is a [string] (a sequence of 8-bit characters).
    - A Python [set] is a [gset string], a [dict] a [gmap string _]; iterating
      one of them visits [elements] / [map_to_list] in their (fixed but
      unspecified) order, as Python does.
    - A call that may raise returns [Exc]; [try ... except Exception] is a
      [match] on the result.
    - Everything the loop does to the outside (calls of trigger methods,
      [open]/[read], [os.remove], writes to [sys.stderr], [time.sleep]) is
      recorded, in order, in a trace of [Event]s.

    What the model takes for granted.
    - The interpreter is Python 2, the one [test.py] names: there
      [traceback.format_exc(sys.exc_info())] returns a string, so the
      [except] handlers of [run] do not raise by themselves.
    - An action does not touch the watched directory, and nobody assigns
      [self.canMatchMultiple] while [run] executes, so the copy [run] takes
      of it and the attribute it reads at lines 176 and 185 agree.
    - Numbers are rationals where the source has floats; the statements
      below that compare or add them say so where it matters.
    - An [Action] returns or raises an exception derived from [Exception].
      Actions that raise anything else ([sys.exit()], for one) are those
      of [UserAction], with [run] written out again for them. *)

From Stdlib Require Import String Ascii List QArith Lia.
From stdpp Require Import base option list gmap sets strings.

Local Open Scope string_scope.
Local Open Scope list_scope.

#[local] Set Warnings "-clear-no-such-hyp".

(** ** Exceptions *)

(** Why a [ValueError] was raised: one tag per [raise ValueError(...)] of the
    source (the tag stands for the formatted message). *)
Inductive reason :=
| BadType            (* "Invalid type ... passed to ..." *)
| EmptyString_       (* "Empty string passed to ..." *)
| AllDots            (* "... cannot be all dots." *)
| BadSlash           (* "... cannot contain forward slash ..." *)
| NoGlobChar         (* "Glob pattern ... contains neither a '?' nor '*'." *)
| NotAnActionObj     (* "Action ... must implement watchtower.Action" *)
| NotATrigger (i : nat) (* "Element %d ... must implement watchtower.Trigger" *)
| NotADirectory      (* "... is not a valid directory" *)
| BadStopCheckInterval
| BadPollTime.

Inductive exn :=
| ValueError (why : reason)
| TypeError
| KeyError
| UnboundLocalError
| AttributeError
| IOError            (* open() / read() failed *)
| OSError            (* os.listdir / os.remove failed *)
| LibraryError.      (* raised inside re / fnmatch / user code *)

Inductive Exc (A : Type) : Type :=
| Ok (a : A)
| Raise (e : exn).
Arguments Ok {A} a.
Arguments Raise {A} e.

Definition bind {A B} (m : Exc A) (f : A -> Exc B) : Exc B :=
  match m with
  | Ok a => f a
  | Raise e => Raise e
  end.

Notation "x <- m ;; k" := (bind m (fun x => k))
  (at level 100, m at next level, right associativity).

Definition is_Ok {A} (m : Exc A) : bool :=
  match m with Ok _ => true | Raise _ => false end.

(** The newline character. *)
Definition nl : ascii := "010"%char.

(** ** A fragment of Python's [re]

    Enough of the regular-expression language for the two module-level
    patterns of [Triggers.py]; compiled pattern objects handed to [TriggerRE]
    carry a program of the same fragment. *)
Module Re.

Inductive regex :=
| Bol                          (* ^ *)
| Eol                          (* $ *)
| Any                          (* . *)
| Chars (cs : list ascii)      (* [...] / a literal character *)
| Cat (r1 r2 : regex)
| Alt (r1 r2 : regex)
| Star (r : regex)
| Plus (r : regex).

(** A position in the subject: how many characters were consumed, and what
    is left. *)
Definition pos : Type := nat * list ascii.

Definition mem (c : ascii) (cs : list ascii) : bool :=
  existsb (Ascii.eqb c) cs.

(** All positions reachable by applying [f] one or more times, at most [n]
    times. *)
Fixpoint iter (f : pos -> list pos) (n : nat) (p : pos) : list pos :=
  match n with
  | O => []
  | S n' => let once := f p in once ++ flat_map (iter f n') once
  end.

(** [exec r p]: the positions at which a match of [r] starting at [p] can
    end. Without flags: [^] only at position 0, [$] at the end or just
    before a final newline, [.] anything but a newline. *)
Fixpoint exec (r : regex) (p : pos) : list pos :=
  match r with
  | Bol => match fst p with O => [p] | S _ => [] end
  | Eol => match snd p with
           | [] => [p]
           | [c] => if Ascii.eqb c nl then [p] else []
           | _ => []
           end
  | Any => match snd p with
           | c :: rest => if Ascii.eqb c nl then [] else [(S (fst p), rest)]
           | [] => []
           end
  | Chars cs => match snd p with
                | c :: rest => if mem c cs then [(S (fst p), rest)] else []
                | [] => []
                end
  | Cat r1 r2 => flat_map (exec r2) (exec r1 p)
  | Alt r1 r2 => exec r1 p ++ exec r2 p
  | Star r' => p :: iter (exec r') (S (length (snd p))) p
  | Plus r' => iter (exec r') (S (length (snd p))) p
  end.

(** [bool(r.match(s))]: is there a match starting at position 0 (it need not
    reach the end of [s]). *)
Definition match_ (r : regex) (s : string) : bool :=
  match exec r (O, list_ascii_of_string s) with
  | [] => false
  | _ :: _ => true
  end.

End Re.

(** A compiled pattern object ([re._pattern_type]): its source text
    ([.pattern]) and its program. *)
Record SRE_Pattern := {
  pattern_source : string;
  pattern_prog : Re.regex
}.

(** ** Python values and types that reach the pattern argument *)

Inductive pyobj :=
| PyStr (s : string)
| PyRe (p : SRE_Pattern)
| PyNone.

Inductive pytype := TStr | TPattern | TNoneType.

Definition pytype_eqb (a b : pytype) : bool :=
  match a, b with
  | TStr, TStr | TPattern, TPattern | TNoneType, TNoneType => true
  | _, _ => false
  end.

(** [type(o)] *)
Definition type_ (o : pyobj) : pytype :=
  match o with
  | PyStr _ => TStr
  | PyRe _ => TPattern
  | PyNone => TNoneType
  end.

(** [not o]: a [str] is false when empty, [None] is false, a compiled pattern
    (an object without [__len__]) is true. *)
Definition truthy (o : pyobj) : bool :=
  match o with
  | PyStr s => negb (String.eqb s "")
  | PyRe _ => true
  | PyNone => false
  end.

(** [r.match(o)]: [TypeError: expected string or buffer] unless [o] is a
    string. *)
Definition re_match_obj (r : Re.regex) (o : pyobj) : Exc bool :=
  match o with
  | PyStr s => Ok (Re.match_ r s)
  | _ => Raise TypeError
  end.

(** [c in s] for a character [c] *)
Fixpoint str_contains (c : ascii) (s : string) : bool :=
  match s with
  | EmptyString => false
  | String a s' => Ascii.eqb a c || str_contains c s'
  end.

(** ['/' in o]: [TypeError] when [o] is not iterable. *)
Definition slash_in (o : pyobj) : Exc bool :=
  match o with
  | PyStr s => Ok (str_contains "/"%char s)
  | _ => Raise TypeError
  end.

(** ** Triggers.py *)

Definition StringTypes : list pytype := [TStr].
Definition StringTypesOrCompiledRE : list pytype := StringTypes ++ [TPattern].

Definition _VALIDATE_STRING_BAD_TYPE : nat := 1.
Definition _VALIDATE_STRING_EMPTY : nat := 2.
Definition _VALIDATE_STRING_BAD_SLASH : nat := 3.
Definition _VALIDATE_STRING_DOTS : nat := 4.

(** [re.compile('^[\.]+$')] *)
Definition allDotsRE : Re.regex :=
  Re.Cat Re.Bol (Re.Cat (Re.Plus (Re.Chars ["."%char])) Re.Eol).

(** [re.compile('[\*\?]')] *)
Definition validGlobRE : Re.regex :=
  Re.Chars ["*"%char; "?"%char].

Definition _genericValidatePattern (theString : pyobj)
    (allowedTypes : list pytype) : Exc (option nat) :=
  if negb (existsb (pytype_eqb (type_ theString)) allowedTypes) then
    Ok (Some _VALIDATE_STRING_BAD_TYPE)
  else if negb (truthy theString) then
    Ok (Some _VALIDATE_STRING_EMPTY)
  else
    dots <- re_match_obj allDotsRE theString ;;
    if dots then Ok (Some _VALIDATE_STRING_DOTS)
    else
      slash <- slash_in theString ;;
      if slash then Ok (Some _VALIDATE_STRING_BAD_SLASH)
      else Ok None.

(** ** String methods used by the source *)

(** [str.lower()] of Python 2: the letters A-Z are mapped to a-z. *)
Definition lower_char (c : ascii) : ascii :=
  let n := nat_of_ascii c in
  if Nat.leb 65 n && Nat.leb n 90 then ascii_of_nat (n + 32) else c.

Fixpoint lower (s : string) : string :=
  match s with
  | EmptyString => EmptyString
  | String c s' => String (lower_char c) (lower s')
  end.

(** The characters [str.strip()] removes: space, \t, \n, \v, \f, \r. *)
Definition is_space (c : ascii) : bool :=
  let n := nat_of_ascii c in
  Nat.eqb n 32 || (Nat.leb 9 n && Nat.leb n 13).

Fixpoint lstrip (s : string) : string :=
  match s with
  | EmptyString => EmptyString
  | String c s' => if is_space c then lstrip s' else s
  end.

Fixpoint rstrip (s : string) : string :=
  match s with
  | EmptyString => EmptyString
  | String c s' =>
      let r := rstrip s' in
      if is_space c && String.eqb r "" then EmptyString else String c r
  end.

Definition strip (s : string) : string := rstrip (lstrip s).

(** [s.split(sep)] for a one-character separator: never empty, one more
    entry than there are separators. *)
Fixpoint split (sep : ascii) (s : string) : list string :=
  match s with
  | EmptyString => [EmptyString]
  | String c s' =>
      if Ascii.eqb c sep then EmptyString :: split sep s'
      else match split sep s' with
           | h :: t => String c h :: t
           | [] => [String c EmptyString]
           end
  end.

(** [sep.join(l)] *)
Fixpoint join (sep : ascii) (l : list string) : string :=
  match l with
  | [] => EmptyString
  | [x] => x
  | x :: rest => x ++ String sep (join sep rest)
  end.

(** [s.endswith(c)] for a one-character [c] *)
Fixpoint endswith (s : string) (c : ascii) : bool :=
  match s with
  | EmptyString => false
  | String a EmptyString => Ascii.eqb a c
  | String _ s' => endswith s' c
  end.

(** [s[:-1]] *)
Fixpoint but_last (s : string) : string :=
  match s with
  | EmptyString => EmptyString
  | String _ EmptyString => EmptyString
  | String a s' => String a (but_last s')
  end.

(** ** Action.py *)

(** An action object, seen from the loop: whether [handleAction] returns or
    raises on a matched name and its data, where what it raises is derived
    from [Exception], as every [exn] is (an action that raises anything
    else is a [UserAction], further down). What the action does besides is
    outside the model; it is assumed not to touch the watched directory. *)
Record Action := {
  handleAction : string -> list string -> Exc unit
}.

(** [Action.handleAction] of the base class:
    [raise NotImplemented(...)] calls a non-callable object. *)
Definition Action_base : Action :=
  {| handleAction := fun _ _ => Raise TypeError |}.

(** [EchoAction.handleAction] writes to its output handle and returns. *)
Definition EchoAction : Action :=
  {| handleAction := fun _ _ => Ok tt |}.

(** What a caller may pass as the [action] argument. *)
Inductive pyaction :=
| AnAction (a : Action)
| NotAnAction.

(** ** The trigger classes *)

Inductive cls :=
| Trigger
| TriggerRE
| TriggerGlob
| TriggerExactMatch
| TriggerCaseInsensitiveMatch.

(** A constructed trigger: [self.pattern] and [self.action]. *)
Record TriggerObj := {
  t_cls : cls;
  t_pattern : pyobj;
  t_action : Action
}.

Definition _getValidTypes (c : cls) : list pytype :=
  match c with
  | TriggerRE => StringTypesOrCompiledRE
  | _ => StringTypes
  end.

(** [Trigger._validatePattern], the method of the base class, called on
    class [c]. *)
Definition Trigger_validatePattern (c : cls) (theString : pyobj) : Exc unit :=
  error <- _genericValidatePattern theString (_getValidTypes c) ;;
  match error with
  | None => Ok tt
  | Some e =>
      if Nat.eqb e _VALIDATE_STRING_BAD_TYPE then Raise (ValueError BadType)
      else if Nat.eqb e _VALIDATE_STRING_EMPTY then Raise (ValueError EmptyString_)
      else if Nat.eqb e _VALIDATE_STRING_DOTS then Raise (ValueError AllDots)
      else if Nat.eqb e _VALIDATE_STRING_BAD_SLASH then Raise (ValueError BadSlash)
      else Ok tt
  end.

(** [cls._validatePattern]: only [TriggerGlob] overrides it, and its override
    calls the base method on the class [Trigger] itself. *)
Definition _validatePattern (c : cls) (pattern : pyobj) : Exc unit :=
  match c with
  | TriggerGlob =>
      _ <- Trigger_validatePattern Trigger pattern ;;
      m <- re_match_obj validGlobRE pattern ;;
      if negb m then Raise (ValueError NoGlobChar) else Ok tt
  | _ => Trigger_validatePattern c pattern
  end.

(** [fnmatch.filter(names, pat)] on POSIX: compile [pat] once, keep the names
    it matches. *)
Definition fnmatch_filter (compile : string -> Exc (string -> bool))
    (names : list string) (pat : string) : Exc (list string) :=
  match_ <- compile pat ;;
  Ok (List.filter match_ names).

(** The first item of [items] whose lower-cased form is [pattern], as the
    [for ... return [item]] loop of [TriggerCaseInsensitiveMatch]. *)
Fixpoint first_lower_equal (pattern : string) (items : list string)
    : list string :=
  match items with
  | [] => []
  | item :: rest =>
      if String.eqb (lower item) pattern then [item]
      else first_lower_equal pattern rest
  end.

Section Library.

Set Default Proof Using "Type".

(** The parts of the standard library the source calls and this file does
    not implement:
    - [re_parse s]: the program [re.compile(s)] compiles [s] to, or the
      exception it raises;
    - [fnmatch_compile pat]: the predicate [fnmatch] translates the glob
      [pat] to, or the exception raised on the way;
    - [isdir p]: [os.path.isdir(p)]. *)
Variable re_parse : string -> Exc Re.regex.
Variable fnmatch_compile : string -> Exc (string -> bool).
Variable isdir : string -> bool.

(** [re.compile(s)] *)
Definition re_compile (s : string) : Exc SRE_Pattern :=
  prog <- re_parse s ;;
  Ok {| pattern_source := s; pattern_prog := prog |}.

(** [cls._processPattern] *)
Definition _processPattern (c : cls) (pattern : pyobj) : Exc pyobj :=
  match c with
  | TriggerRE =>
      match pattern with
      | PyRe _ => Ok pattern
      | PyStr s => p <- re_compile s ;; Ok (PyRe p)
      | PyNone => Raise TypeError
      end
  | TriggerCaseInsensitiveMatch =>
      match pattern with
      | PyStr s => Ok (PyStr (lower s))
      | _ => Raise AttributeError
      end
  | _ => Ok pattern
  end.

(** [Trigger.__init__], run for class [c]. *)
Definition Trigger__init__ (c : cls) (pattern : pyobj) (action : pyaction)
    : Exc TriggerObj :=
  _ <- _validatePattern c pattern ;;
  p <- _processPattern c pattern ;;
  match action with
  | NotAnAction => Raise (ValueError NotAnActionObj)
  | AnAction a => Ok {| t_cls := c; t_pattern := p; t_action := a |}
  end.

(** [self.getFilenameMatches(directoryContents)]; [directoryContents] is
    given in the order its iteration yields. *)
Definition getFilenameMatches (self : TriggerObj)
    (directoryContents : list string) : Exc (list string) :=
  match t_cls self, t_pattern self with
  | Trigger, _ => Raise TypeError
  | TriggerRE, PyRe pattern =>
      Ok (List.filter (Re.match_ (pattern_prog pattern)) directoryContents)
  | TriggerRE, _ => Raise AttributeError
  | TriggerGlob, PyStr pattern =>
      fnmatch_filter fnmatch_compile directoryContents pattern
  | TriggerGlob, _ => Raise TypeError
  | TriggerExactMatch, PyStr pattern =>
      if existsb (String.eqb pattern) directoryContents then Ok [pattern]
      else Ok []
  | TriggerExactMatch, _ => Ok []
  | TriggerCaseInsensitiveMatch, PyStr pattern =>
      Ok (first_lower_equal pattern directoryContents)
  | TriggerCaseInsensitiveMatch, _ => Ok []
  end.

(** [self.runAction(matchName, actionData)] *)
Definition runAction (self : TriggerObj) (matchName : string)
    (actionData : list string) : Exc unit :=
  handleAction (t_action self) matchName actionData.

(** [self.getPatternStr()] *)
Definition getPatternStr (self : TriggerObj) : pyobj :=
  match t_cls self, t_pattern self with
  | TriggerRE, PyRe p => PyStr (pattern_source p)
  | _, p => p
  end.

(** ** WatchMan.py *)

Definition DEFAULT_POLL_TIME : Q := 5.
Definition DEFAULT_STOP_CHECK_INTERVAL : Q := 25 # 100.
Definition SMALL_NUMBER : Q := 1 # 10000.

(** [a < b] on the numbers of the source (floats there, rationals here). *)
Definition Qltb (a b : Q) : bool := negb (Qle_bool b a).

(** The attributes of a constructed [WatchMan] that never change while it
    runs. [self.keepGoing] changes, and lives in the state below. *)
Record WatchMan := {
  rootDir : string;
  triggers : list TriggerObj;
  canMatchMultiple : bool;
  stopCheckInterval : Q;
  pollTime : Q
}.

(** An element of the [triggers] argument of the constructor. *)
Inductive pytrigger :=
| ATrigger (t : TriggerObj)
| NotTrigger.

(** The [isinstance] loop of [__init__]. *)
Fixpoint check_triggers (i : nat) (l : list pytrigger)
    : Exc (list TriggerObj) :=
  match l with
  | [] => Ok []
  | NotTrigger :: _ => Raise (ValueError (NotATrigger i))
  | ATrigger t :: rest =>
      ts <- check_triggers (S i) rest ;;
      Ok (t :: ts)
  end.

(** [WatchMan.__init__]. The second component of the result tells whether
    the warning about the poll time was written. *)
Definition WatchMan__init__ (rootDir0 : string) (triggers0 : list pytrigger)
    (canMatchMultiple0 : bool) (pollTime0 stopCheckInterval0 : Q)
    : Exc (WatchMan * bool) :=
  ts <- check_triggers 0 triggers0 ;;
  let rootDir1 :=
    if endswith rootDir0 "/" then but_last rootDir0 else rootDir0 in
  let rootDir2 :=
    if Nat.eqb (String.length rootDir1) 0 then "." else rootDir1 in
  if negb (isdir rootDir2) then Raise (ValueError NotADirectory)
  else if Qltb stopCheckInterval0 SMALL_NUMBER then
    Raise (ValueError BadStopCheckInterval)
  else if Qltb pollTime0 SMALL_NUMBER then
    Raise (ValueError BadPollTime)
  else
    let warn := Qltb pollTime0 stopCheckInterval0 in
    Ok ({| rootDir := rootDir2;
           triggers := ts;
           canMatchMultiple := canMatchMultiple0;
           stopCheckInterval := stopCheckInterval0;
           pollTime := if warn then stopCheckInterval0 else pollTime0 |},
        warn).

(** *** The outside world and what the loop does to it *)

(** A regular file: what [open(path).read()] gives, and whether
    [os.remove(path)] succeeds. *)
Record File := {
  contents : Exc string;
  removable : bool
}.

(** The state [run] works on: the regular files by path, the result of
    [os.listdir(self.rootDir)], the local variable [fullPath] of [run]
    (unbound until first assigned) and [self.keepGoing]. *)
Record St := {
  files : gmap string File;
  listing : Exc (list string);
  fullPath : option string;
  keepGoing : bool
}.

(** What is written to [sys.stderr]. *)
Inductive Msg :=
| ListFailed                                   (* 'Issue getting directory contents' *)
| MatchFailed (i : nat)                        (* 'Error getting matches on trigger' *)
| ReadFailed (path : string)                   (* 'Error reading file contents' *)
| ActionFailed (i : nat) (name : string) (data : list string)
                                               (* 'Error handling action ... Deleting task.' *)
| RemoveFailed (path : string).                (* 'Unable to remove completed task' *)

(** The calls [run] makes, [i] being the position of the trigger in
    [self.triggers]. *)
Inductive Event :=
| Listdir
| GetMatches (i : nat) (names : list string)   (* trigger.getFilenameMatches(names) *)
| Open (path : string)                         (* open(path, 'r') *)
| RunAction (i : nat) (name : string) (data : list string)
                                               (* trigger.runAction(name, data) *)
| Remove (path : string)                       (* os.remove(path) *)
| Stderr (m : Msg)                             (* sys.stderr.write *)
| Sleep (d : Q).                               (* time.sleep(d) *)

(** A statement of [run]: from a state to the new state, the calls made
    and the value or the exception raised. *)
Definition M (A : Type) : Type := St -> St * list Event * Exc A.

Definition ret {A} (a : A) : M A := fun s => (s, [], Ok a).

Definition raise {A} (e : exn) : M A := fun s => (s, [], Raise e).

Definition bindM {A B} (m : M A) (f : A -> M B) : M B := fun s =>
  match m s with
  | (s1, ev1, Ok a) =>
      match f a s1 with
      | (s2, ev2, r) => (s2, ev1 ++ ev2, r)
      end
  | (s1, ev1, Raise e) => (s1, ev1, Raise e)
  end.

Notation "x <~ m ;; k" := (bindM m (fun x => k))
  (at level 100, m at next level, right associativity).
Notation "m1 ;;; m2" := (bindM m1 (fun _ => m2))
  (at level 100, right associativity).

(** [try: m except Exception: ...]: the outcome of [m] as a value; every
    [exn] is derived from [Exception], so every one is caught. *)
Definition try_ {A} (m : M A) : M (Exc A) := fun s =>
  match m s with
  | (s1, ev1, r) => (s1, ev1, Ok r)
  end.

Definition lift {A} (r : Exc A) : M A := fun s => (s, [], r).

Definition emit (e : Event) : M unit := fun s => (s, [e], Ok tt).

(** [for x in l: body(x)] *)
Fixpoint for_ {A} (l : list A) (body : A -> M unit) : M unit :=
  match l with
  | [] => ret tt
  | x :: rest => body x ;;; for_ rest body
  end.

(** A [for] loop that updates a variable [acc]. *)
Fixpoint foldM {A B} (body : B -> A -> M B) (acc : B) (l : list A) : M B :=
  match l with
  | [] => ret acc
  | x :: rest => acc1 <~ body acc x ;; foldM body acc1 rest
  end.

(** [d[k]] *)
Definition getitem {V} (d : gmap string V) (k : string) : M V :=
  match d !! k with
  | Some v => ret v
  | None => raise KeyError
  end.

(** Assignment to, and use of, the local variable [fullPath]. *)
Definition set_fullPath (p : string) : M unit := fun s =>
  ({| files := files s; listing := listing s; fullPath := Some p;
      keepGoing := keepGoing s |}, [], Ok tt).

Definition get_fullPath : M string := fun s =>
  match fullPath s with
  | Some p => (s, [], Ok p)
  | None => (s, [], Raise UnboundLocalError)
  end.

(** [os.path.isfile(p)] *)
Definition isfile (s : St) (p : string) : bool :=
  bool_decide (is_Some (files s !! p)).

(** [os.listdir(self.rootDir)] *)
Definition os_listdir : M (list string) := fun s =>
  (s, [Listdir], listing s).

(** [with open(p, 'r') as f: contents = f.read()] *)
Definition read_file (p : string) : M string := fun s =>
  (s, [Open p],
   match files s !! p with
   | Some f => contents f
   | None => Raise IOError
   end).

(** [os.remove(p)] *)
Definition os_remove (p : string) : M unit := fun s =>
  match files s !! p with
  | Some f =>
      if removable f then
        ({| files := delete p (files s); listing := listing s;
            fullPath := fullPath s; keepGoing := keepGoing s |},
         [Remove p], Ok tt)
      else (s, [Remove p], Raise OSError)
  | None => (s, [Remove p], Raise OSError)
  end.

(** *** One cycle of [run] *)

(** Lines 158-163: the line list of a file. *)
Definition file_lines (contents : string) : list string :=
  if negb (String.eqb (strip contents) "") then
    let data := split nl contents in
    if String.eqb (List.last data "") "" then removelast data else data
  else [].

(** [self.rootDir + '/' + item] *)
Definition path_of (self : WatchMan) (item : string) : string :=
  rootDir self ++ "/" ++ item.

(** Line 112: the names of the regular files of the directory. *)
Definition list_directory (self : WatchMan) : M (gset string) :=
  names <~ os_listdir ;;
  fun s =>
    (s, [],
     Ok (list_to_set
           (List.filter
              (fun x => negb (String.eqb x "") && isfile s (path_of self x))
              names))).

(** Line 121: name to path. *)
Definition absolute_paths (self : WatchMan) (directoryContents : gset string)
    : gmap string string :=
  set_to_map (fun item => (item, path_of self item)) directoryContents.

(** Lines 149-164, the body of [for match in matches]. *)
Definition read_match (directoryContentsAbsolute : gmap string string)
    (namesAndData : gmap string (list string)) (match_ : string)
    : M (gmap string (list string)) :=
  r <~ try_ (p <~ getitem directoryContentsAbsolute match_ ;;
             set_fullPath p ;;;
             read_file p) ;;
  match r with
  | Raise _ =>
      p <~ get_fullPath ;;
      emit (Stderr (ReadFailed p)) ;;;
      ret namesAndData
  | Ok contents => ret (<[match_ := file_lines contents]> namesAndData)
  end.

(** Lines 167-182, the body of [for match in allMatches]. *)
Definition dispatch (self : WatchMan) (i : nat) (trigger : TriggerObj)
    (directoryContentsAbsolute : gmap string string)
    (namesAndData : gmap string (list string)) (match_ : string) : M unit :=
  data <~ getitem namesAndData match_ ;;
  emit (RunAction i match_ data) ;;;
  r <~ try_ (lift (runAction trigger match_ data)) ;;
  match r with
  | Raise _ => emit (Stderr (ActionFailed i match_ data))
  | Ok _ => ret tt
  end ;;;
  if canMatchMultiple self then ret tt
  else
    p <~ getitem directoryContentsAbsolute match_ ;;
    set_fullPath p ;;;
    r <~ try_ (os_remove p) ;;
    match r with
    | Raise _ => emit (Stderr (RemoveFailed p))
    | Ok _ => ret tt
    end.

(** Lines 133-182, the body of [for trigger in self.triggers]; [locals] is
    the pair [(remainingContents, matchedThisIteration)]. *)
Definition process_trigger (self : WatchMan)
    (directoryContentsAbsolute : gmap string string)
    (i : nat) (trigger : TriggerObj) (locals : gset string * gset string)
    : M (gset string * gset string) :=
  let remainingContents := locals.1 in
  let matchedThisIteration := locals.2 in
  emit (GetMatches i (elements remainingContents)) ;;;
  r <~ try_ (lift (getFilenameMatches trigger (elements remainingContents))) ;;
  match r with
  | Raise _ =>
      emit (Stderr (MatchFailed i)) ;;;
      ret locals
  | Ok matches =>
      let locals1 :=
        if canMatchMultiple self then
          (remainingContents, matchedThisIteration ∪ list_to_set matches)
        else
          (remainingContents ∖ list_to_set matches, matchedThisIteration) in
      namesAndData <~ foldM (read_match directoryContentsAbsolute) ∅ matches ;;
      for_ (map_to_list namesAndData).*1
           (dispatch self i trigger directoryContentsAbsolute namesAndData) ;;;
      ret locals1
  end.

(** Lines 132-182, [for trigger in self.triggers], the triggers numbered
    from [i]. *)
Fixpoint for_triggers (self : WatchMan)
    (directoryContentsAbsolute : gmap string string)
    (i : nat) (ts : list TriggerObj) (locals : gset string * gset string)
    : M (gset string * gset string) :=
  match ts with
  | [] => ret locals
  | trigger :: rest =>
      locals1 <~ process_trigger self directoryContentsAbsolute i trigger locals ;;
      for_triggers self directoryContentsAbsolute (S i) rest locals1
  end.

(** Lines 186-191, the body of [for match in matchedThisIteration]. *)
Definition remove_matched (directoryContentsAbsolute : gmap string string)
    (match_ : string) : M unit :=
  p <~ getitem directoryContentsAbsolute match_ ;;
  set_fullPath p ;;;
  r <~ try_ (os_remove p) ;;
  match r with
  | Raise _ => emit (Stderr (RemoveFailed p))
  | Ok _ => ret tt
  end.

(** Lines 128-191, once the directory is listed. *)
Definition scan_and_dispatch (self : WatchMan)
    (directoryContents : gset string) : M unit :=
  let directoryContentsAbsolute := absolute_paths self directoryContents in
  locals <~ for_triggers self directoryContentsAbsolute 0 (triggers self)
              (directoryContents, ∅) ;;
  if canMatchMultiple self then
    for_ (elements locals.2) (remove_matched directoryContentsAbsolute)
  else ret tt.

(** Lines 110-191. The result is [false] when the listing failed and the
    loop body was left by [continue], [true] when the sleep phase follows. *)
Definition cycle (self : WatchMan) : M bool :=
  r <~ try_ (list_directory self) ;;
  match r with
  | Raise _ =>
      emit (Stderr ListFailed) ;;;
      emit (Sleep (pollTime self / 5)) ;;;
      ret false
  | Ok directoryContents =>
      scan_and_dispatch self directoryContents ;;;
      ret true
  end.

(** *** The loop of [run] and its cancellation *)

(** [self.die()]: clears [self.keepGoing] (and restores the default signal
    handlers, which the model does not track). It is the handler of SIGTERM
    and SIGINT, so it can run between any two statements of [run]. *)
Definition die (s : St) : St :=
  if negb (keepGoing s) then s
  else {| files := files s; listing := listing s; fullPath := fullPath s;
          keepGoing := false |}.

Definition get_keepGoing : M bool := fun s => (s, [], Ok (keepGoing s)).

(** How a bounded execution of [run] ends. *)
Inductive Outcome :=
| Exited          (* line 201, sys.exit(0) *)
| StillRunning.   (* the bound on the number of iterations was reached *)

(** Lines 194-198, entered at the test of the [while], with at most [fuel]
    iterations; the result tells whether the loop was left. *)
Fixpoint sleep_loop (fuel : nat) (self : WatchMan) (timeSlept : Q) : M bool :=
  match fuel with
  | O => ret false
  | S fuel' =>
      if Qltb timeSlept (pollTime self) then
        emit (Sleep (stopCheckInterval self)) ;;;
        let timeSlept1 := (timeSlept + stopCheckInterval self)%Q in
        kg <~ get_keepGoing ;;
        if negb kg then ret true
        else sleep_loop fuel' self timeSlept1
      else ret true
  end.

(** The same loop entered at line 197, after a sub-sleep. *)
Definition stop_check (fuel : nat) (self : WatchMan) (timeSlept : Q) : M bool :=
  kg <~ get_keepGoing ;;
  if negb kg then ret true
  else sleep_loop fuel self timeSlept.

(** Lines 110-198, one iteration of the outer [while]: a cycle, then the
    sleep phase unless the listing failed; [next] is the rest of the
    execution, from the test of line 108. *)
Definition iteration (fuel : nat) (self : WatchMan) (next : M Outcome)
    : M Outcome :=
  completed <~ cycle self ;;
  if completed then
    left <~ sleep_loop fuel self 0 ;;
    if left then next else ret StillRunning
  else next.

(** [WatchMan.run], lines 108-201, with at most [fuel] iterations of the
    outer loop and of each sleep loop. *)
Fixpoint run (fuel : nat) (self : WatchMan) : M Outcome :=
  match fuel with
  | O => ret StillRunning
  | S fuel' =>
      kg <~ get_keepGoing ;;
      if kg then iteration fuel self (run fuel' self)
      else
        (fun s => (die s, [], Ok tt)) ;;;
        ret Exited
  end.

(** [run], resumed inside the sleep phase: at the test of the sleep loop,
    or at the check of line 197. *)
Definition resume_at_sleep_test (fuel : nat) (self : WatchMan) (timeSlept : Q)
    : M Outcome :=
  left <~ sleep_loop fuel self timeSlept ;;
  if left then run fuel self else ret StillRunning.

Definition resume_at_stop_check (fuel : nat) (self : WatchMan) (timeSlept : Q)
    : M Outcome :=
  left <~ stop_check fuel self timeSlept ;;
  if left then run fuel self else ret StillRunning.

(** *** Reading a trace *)

(** [contents.strip()] is empty: every character is white space. *)
Definition all_space (s : string) : bool :=
  forallb is_space (list_ascii_of_string s).

(** The actions run, the removals attempted and the match calls made, in
    the order of the trace. *)
Definition run_actions (evs : list Event) : list (nat * string * list string) :=
  omap (fun e => match e with RunAction i n d => Some (i, n, d) | _ => None end) evs.

Definition removes (evs : list Event) : list string :=
  omap (fun e => match e with Remove p => Some p | _ => None end) evs.

Definition get_matches (evs : list Event) : list (nat * list string) :=
  omap (fun e => match e with GetMatches i c => Some (i, c) | _ => None end) evs.

Definition stderr (evs : list Event) : list Msg :=
  omap (fun e => match e with Stderr m => Some m | _ => None end) evs.

(** What reading the file at [p] gives in state [s], if it can be read. *)
Definition readable (s : St) (p : string) : option string :=
  match files s !! p with
  | Some f => match contents f with Ok c => Some c | Raise _ => None end
  | None => None
  end.

(** [s'] differs from [s] by the local variable [fullPath] at most. *)
Definition same_world (s s' : St) : Prop :=
  files s' = files s /\ listing s' = listing s /\ keepGoing s' = keepGoing s.

(** Whether [os.remove(p)] succeeds in state [s]. *)
Definition can_remove (s : St) (p : string) : bool :=
  match files s !! p with
  | Some f => removable f
  | None => false
  end.

(** The names a trigger claims among [names]: what its
    [getFilenameMatches] returns, nothing when it raises. *)
Definition matches_of (t : TriggerObj) (names : list string) : list string :=
  match getFilenameMatches t names with
  | Ok ms => ms
  | Raise _ => []
  end.

(** The value of [(remainingContents, matchedThisIteration)] after a
    trigger claimed [ms]. *)
Definition claim (self : WatchMan) (locals : gset string * gset string)
    (ms : list string) : gset string * gset string :=
  if canMatchMultiple self then (locals.1, locals.2 ∪ list_to_set ms)
  else (locals.1 ∖ list_to_set ms, locals.2).

(** What one trigger does in a cycle, from state [s] with
    [remainingContents = rem], as a relation between the states before and
    after and the calls made. [keys] are the names dispatched and [data]
    their line lists. *)
Definition trigger_effect (self : WatchMan) (i : nat) (t : TriggerObj)
    (rem : gset string) (s s' : St) (evs : list Event) : Prop :=
  let ms := matches_of t (elements rem) in
  exists (keys : list string) (data : string -> list string),
    listing s' = listing s /\ keepGoing s' = keepGoing s /\
    NoDup keys /\
    (forall n, n ∈ keys <-> n ∈ ms /\ is_Some (readable s (path_of self n))) /\
    (forall n c, n ∈ ms -> readable s (path_of self n) = Some c ->
       data n = file_lines c) /\
    get_matches evs = [(i, elements rem)] /\
    run_actions evs = (fun n => (i, n, data n)) <$> keys /\
    removes evs = (if canMatchMultiple self then [] else path_of self <$> keys) /\
    (forall q, files s' !! q =
       if negb (canMatchMultiple self)
          && bool_decide (q ∈ path_of self <$> keys) && can_remove s q
       then None else files s !! q) /\
    (forall n, n ∈ keys -> is_Ok (runAction t n (data n)) = false ->
       ActionFailed i n (data n) ∈ stderr evs).

(** The effects of the triggers [ts], numbered from [i], chained as the
    [for] loop chains them. *)
Inductive triggers_run (self : WatchMan)
  : nat -> list TriggerObj -> gset string * gset string -> St ->
    St -> list Event -> gset string * gset string -> Prop :=
| triggers_run_nil i locals s :
    triggers_run self i [] locals s s [] locals
| triggers_run_cons i t ts locals s s1 ev1 s' ev2 locals' :
    trigger_effect self i t locals.1 s s1 ev1 ->
    triggers_run self (S i) ts
      (claim self locals (matches_of t (elements locals.1))) s1 s' ev2 locals' ->
    triggers_run self i (t :: ts) locals s s' (ev1 ++ ev2) locals'.

(** The names dispatched, in the order of the trace. *)
Definition dispatched (evs : list Event) : list string :=
  (fun x => x.1.2) <$> run_actions evs.

(** The candidate set of a cycle that starts in state [s] when
    [os.listdir] returns [names]. *)
Definition candidates (self : WatchMan) (s : St) (names : list string)
    : gset string :=
  list_to_set
    (List.filter (fun x => negb (String.eqb x "") && isfile s (path_of self x))
       names).

(** *** Example configurations *)

(** [^a], as [re.compile] compiles it. *)
Definition re_caret_a : SRE_Pattern :=
  {| pattern_source := "^a";
     pattern_prog := Re.Cat Re.Bol (Re.Chars ["a"%char]) |}.

(** An action that raises whatever it is given. *)
Definition FailingAction : Action :=
  {| handleAction := fun _ _ => Raise LibraryError |}.

(** The two overlapping triggers of [test.py], the first with an action
    that raises. *)
Definition failing_trigger : TriggerObj :=
  {| t_cls := TriggerRE; t_pattern := PyRe re_caret_a; t_action := FailingAction |}.

Definition echo_trigger : TriggerObj :=
  {| t_cls := TriggerRE; t_pattern := PyRe re_caret_a; t_action := EchoAction |}.

Definition two_triggers : list TriggerObj := [failing_trigger; echo_trigger].

Definition watcher (multi : bool) : WatchMan :=
  {| rootDir := "./testdir"; triggers := two_triggers;
     canMatchMultiple := multi;
     stopCheckInterval := DEFAULT_STOP_CHECK_INTERVAL;
     pollTime := DEFAULT_POLL_TIME |}.

(** A directory with the file [a1] (two lines) and the file [b]. *)
Definition testdir : St :=
  {| files := {[ "./testdir/a1" := {| contents := Ok "line1
line2
"; removable := true |};
                 "./testdir/b" := {| contents := Ok "x"; removable := true |} ]};
     listing := Ok ["a1"; "b"];
     fullPath := None;
     keepGoing := true |}.

(** A directory whose only file, [a1], cannot be read but can be
    removed. *)
Definition unreadable_dir : St :=
  {| files := {[ "./testdir/a1" := {| contents := Raise IOError; removable := true |} ]};
     listing := Ok ["a1"];
     fullPath := None;
     keepGoing := true |}.

(** A statement on which a cancellation request has no influence: run
    after [die], it makes the same calls, gives the same result and leaves
    the same state, up to [keepGoing]. *)
Definition unaware {A} (m : M A) : Prop :=
  forall s, m (die s) = let '(s', evs, r) := m s in (die s', evs, r).

(** A [fnmatch] for configurations without glob triggers, and a file
    system in which only the current directory is a directory. *)
Definition no_glob : string -> Exc (string -> bool) :=
  fun _ => Raise LibraryError.

Definition only_cwd : string -> bool := String.eqb ".".

(** The string of [n] dots. *)
Fixpoint dots (n : nat) : string :=
  match n with
  | O => EmptyString
  | S n' => String "."%char (dots n')
  end.

(** The paths opened, in the order of the trace. *)
Definition opens (evs : list Event) : list string :=
  omap (fun e => match e with Open p => Some p | _ => None end) evs.

(** A property of the states before and after and of the calls made that
    every execution of the statement [m] has. *)
Definition respects (Q : St -> St -> list Event -> Prop) {A} (m : M A) : Prop :=
  forall s s' evs r, m s = (s', evs, r) -> Q s s' evs.

(** Nothing is lost silently: every file of the state after was there
    before, unchanged, and so was the listing; a file whose removal was
    attempted is gone unless the failure was written to stderr; a file that
    was opened could be read unless the failure was written to stderr. *)
Definition accounted (s s' : St) (evs : list Event) : Prop :=
  listing s' = listing s /\
  (forall q f, files s' !! q = Some f -> files s !! q = Some f) /\
  (forall p, p ∈ removes evs ->
     files s' !! p = None \/ RemoveFailed p ∈ stderr evs) /\
  (forall p, p ∈ opens evs ->
     is_Some (readable s p) \/ ReadFailed p ∈ stderr evs).

(** A parser for configurations without regular-expression strings. *)
Definition no_re : string -> Exc Re.regex := fun _ => Raise LibraryError.


(** A directory that cannot be listed. *)
Definition unlistable : St :=
  {| files := ∅; listing := Raise OSError; fullPath := None;
     keepGoing := true |}.



(** Files only go away, and only through [os.remove]: the listing is the
    same, and each path holds the file it held, or holds none and is among
    the removals. *)
Definition only_removed (s s' : St) (evs : list Event) : Prop :=
  listing s' = listing s /\
  forall q, files s' !! q = files s !! q \/
            (files s' !! q = None /\ q ∈ removes evs).

(** Every action call is made by a trigger of the watcher for a name that
    it claims, with the lines of the file of that name; every removal is
    that of such a file. *)
Definition claimed_only (self : WatchMan) (s s' : St) (evs : list Event)
    : Prop :=
  (forall q f, files s' !! q = Some f -> files s !! q = Some f) /\
  (forall j n d, (j, n, d) ∈ run_actions evs ->
     (exists t, triggers self !! j = Some t /\ n ∈ matches_of t [n]) /\
     exists c, readable s (path_of self n) = Some c /\ d = file_lines c) /\
  (forall q, q ∈ removes evs ->
     exists n t, q = path_of self n /\ t ∈ triggers self /\
                 n ∈ matches_of t [n]).



(** A trigger of the base class, whose [getFilenameMatches] is not
    implemented, followed by a working trigger. *)
Definition base_trigger : TriggerObj :=
  {| t_cls := Trigger; t_pattern := PyStr "a1"; t_action := EchoAction |}.

Definition base_watcher : WatchMan :=
  {| rootDir := "./testdir"; triggers := [base_trigger; echo_trigger];
     canMatchMultiple := false;
     stopCheckInterval := DEFAULT_STOP_CHECK_INTERVAL;
     pollTime := DEFAULT_POLL_TIME |}.


(** Whether the pattern of a trigger is as [_processPattern] leaves it, so
    that [getPatternStr], which the handler of line 136 calls, returns:
    a [TriggerRE] holds a compiled pattern. *)
Definition pattern_processed (t : TriggerObj) : bool :=
  match t_cls t, t_pattern t with
  | TriggerRE, PyRe _ => true
  | TriggerRE, _ => false
  | _, _ => true
  end.


(** Two case-insensitive triggers for [readme], as their constructor
    leaves them, over a directory with [Readme] and [README]. *)
Definition readme_trigger : TriggerObj :=
  {| t_cls := TriggerCaseInsensitiveMatch; t_pattern := PyStr "readme";
     t_action := EchoAction |}.

Definition readme_watcher (multi : bool) : WatchMan :=
  {| rootDir := "./testdir"; triggers := [readme_trigger; readme_trigger];
     canMatchMultiple := multi;
     stopCheckInterval := DEFAULT_STOP_CHECK_INTERVAL;
     pollTime := DEFAULT_POLL_TIME |}.

Definition readme_dir : St :=
  {| files := {[ "./testdir/Readme" := {| contents := Ok "x"; removable := true |};
                 "./testdir/README" := {| contents := Ok "y"; removable := true |} ]};
     listing := Ok ["Readme"; "README"];
     fullPath := None;
     keepGoing := true |}.


(** ** [run] with actions that are user code

    An [Action] above returns or raises an exception derived from
    [Exception]. The class is there to be extended, and the [handleAction]
    of a subclass can raise anything, while [run] guards its call by
    [except Exception] (line 171), which lets through what is not derived
    from [Exception]. What follows is [run] again for such actions; the
    statements that call no action are those of the definitions above. *)

(** What Python 2 can raise that is not derived from [Exception]. *)
Inductive base_exn :=
| SystemExit           (* sys.exit() *)
| KeyboardInterrupt
| GeneratorExit
| OldStyleInstance.    (* an instance of an old-style class *)

(** How a call ends. *)
Inductive Res (A : Type) : Type :=
| Returned (a : A)
| Raised (e : exn)         (* an exception derived from [Exception] *)
| Escaped (b : base_exn).  (* any other exception *)
#[global] Arguments Returned {A} a.
#[global] Arguments Raised {A} e.
#[global] Arguments Escaped {A} b.

(** An instance of a subclass of [Action], a trigger with such an action,
    and a [WatchMan] with such triggers. *)
Record UserAction := {
  handle : string -> list string -> Res unit
}.

Record UserTrigger := {
  u_cls : cls;
  u_pattern : pyobj;
  u_action : UserAction
}.

Record UserWatchMan := {
  u_rootDir : string;
  u_triggers : list UserTrigger;
  u_canMatchMultiple : bool;
  u_stopCheckInterval : Q;
  u_pollTime : Q
}.

(** A user action as an [Action]: the same where it returns or raises an
    exception derived from [Exception]. (Where it raises another one the
    two have nothing to do with each other; no definition below calls
    [caught] there.) *)
Definition caught (a : UserAction) : Action :=
  {| handleAction := fun matchedName actionData =>
       match handle a matchedName actionData with
       | Returned _ => Ok tt
       | Raised e => Raise e
       | Escaped _ => Raise LibraryError
       end |}.

(** The trigger and the watcher without their user code: class, pattern,
    directory, mode and intervals. *)
Definition builtin_part (t : UserTrigger) : TriggerObj :=
  {| t_cls := u_cls t; t_pattern := u_pattern t; t_action := caught (u_action t) |}.

Definition settings (self : UserWatchMan) : WatchMan :=
  {| rootDir := u_rootDir self;
     triggers := builtin_part <$> u_triggers self;
     canMatchMultiple := u_canMatchMultiple self;
     stopCheckInterval := u_stopCheckInterval self;
     pollTime := u_pollTime self |}.

(** Statements that can end in any of the three ways. *)
Definition MB (A : Type) : Type := St -> St * list Event * Res A.

Definition retB {A} (a : A) : MB A := fun s => (s, [], Returned a).

Definition bindB {A B} (m : MB A) (f : A -> MB B) : MB B := fun s =>
  match m s with
  | (s1, ev1, Returned a) =>
      match f a s1 with
      | (s2, ev2, r) => (s2, ev1 ++ ev2, r)
      end
  | (s1, ev1, Raised e) => (s1, ev1, Raised e)
  | (s1, ev1, Escaped b) => (s1, ev1, Escaped b)
  end.

Notation "x <~~ m ;; k" := (bindB m (fun x => k))
  (at level 100, m at next level, right associativity).
Notation "m1 ;;;; m2" := (bindB m1 (fun _ => m2))
  (at level 100, right associativity).

(** A statement of the definitions above, which calls no user code. *)
Definition embed {A} (m : M A) : MB A := fun s =>
  match m s with
  | (s1, ev1, Ok a) => (s1, ev1, Returned a)
  | (s1, ev1, Raise e) => (s1, ev1, Raised e)
  end.

(** [try: m except Exception: ...]: the outcome of [m] as a value, unless
    [m] raises what is not derived from [Exception]. *)
Definition try_Exception {A} (m : MB A) : MB (Exc A) := fun s =>
  match m s with
  | (s1, ev1, Returned a) => (s1, ev1, Returned (Ok a))
  | (s1, ev1, Raised e) => (s1, ev1, Returned (Raise e))
  | (s1, ev1, Escaped b) => (s1, ev1, Escaped b)
  end.

Fixpoint for_B {A} (l : list A) (body : A -> MB unit) : MB unit :=
  match l with
  | [] => retB tt
  | x :: rest => body x ;;;; for_B rest body
  end.

(** [trigger.runAction(matchName, actionData)], line 170. *)
Definition runActionU (trigger : UserTrigger) (matchName : string)
    (actionData : list string) : MB unit :=
  fun s => (s, [], handle (u_action trigger) matchName actionData).

(** Lines 167-182, the body of [for match in allMatches]. *)
Definition dispatchU (self : UserWatchMan) (i : nat) (trigger : UserTrigger)
    (directoryContentsAbsolute : gmap string string)
    (namesAndData : gmap string (list string)) (match_ : string) : MB unit :=
  data <~~ embed (getitem namesAndData match_) ;;
  embed (emit (RunAction i match_ data)) ;;;;
  r <~~ try_Exception (runActionU trigger match_ data) ;;
  embed (match r with
         | Raise _ => emit (Stderr (ActionFailed i match_ data))
         | Ok _ => ret tt
         end) ;;;;
  if u_canMatchMultiple self then retB tt
  else embed (remove_matched directoryContentsAbsolute match_).

(** Lines 133-182, the body of [for trigger in self.triggers]. *)
Definition process_triggerU (self : UserWatchMan)
    (directoryContentsAbsolute : gmap string string)
    (i : nat) (trigger : UserTrigger) (locals : gset string * gset string)
    : MB (gset string * gset string) :=
  let remainingContents := locals.1 in
  let matchedThisIteration := locals.2 in
  embed (emit (GetMatches i (elements remainingContents))) ;;;;
  r <~~ embed (try_ (lift (getFilenameMatches (builtin_part trigger)
                             (elements remainingContents)))) ;;
  match r with
  | Raise _ =>
      embed (emit (Stderr (MatchFailed i))) ;;;;
      retB locals
  | Ok matches =>
      let locals1 :=
        if u_canMatchMultiple self then
          (remainingContents, matchedThisIteration ∪ list_to_set matches)
        else
          (remainingContents ∖ list_to_set matches, matchedThisIteration) in
      namesAndData <~~ embed (foldM (read_match directoryContentsAbsolute) ∅ matches) ;;
      for_B (map_to_list namesAndData).*1
            (dispatchU self i trigger directoryContentsAbsolute namesAndData) ;;;;
      retB locals1
  end.

(** Lines 132-182, [for trigger in self.triggers], numbered from [i]. *)
Fixpoint for_triggersU (self : UserWatchMan)
    (directoryContentsAbsolute : gmap string string)
    (i : nat) (ts : list UserTrigger) (locals : gset string * gset string)
    : MB (gset string * gset string) :=
  match ts with
  | [] => retB locals
  | trigger :: rest =>
      locals1 <~~ process_triggerU self directoryContentsAbsolute i trigger locals ;;
      for_triggersU self directoryContentsAbsolute (S i) rest locals1
  end.

(** Lines 128-191, once the directory is listed. *)
Definition scan_and_dispatchU (self : UserWatchMan)
    (directoryContents : gset string) : MB unit :=
  let directoryContentsAbsolute :=
    absolute_paths (settings self) directoryContents in
  locals <~~ for_triggersU self directoryContentsAbsolute 0 (u_triggers self)
               (directoryContents, ∅) ;;
  if u_canMatchMultiple self then
    embed (for_ (elements locals.2) (remove_matched directoryContentsAbsolute))
  else retB tt.

(** Lines 110-191. *)
Definition cycleU (self : UserWatchMan) : MB bool :=
  r <~~ embed (try_ (list_directory (settings self))) ;;
  match r with
  | Raise _ =>
      embed (emit (Stderr ListFailed) ;;;
             emit (Sleep (u_pollTime self / 5)) ;;;
             ret false)
  | Ok directoryContents =>
      scan_and_dispatchU self directoryContents ;;;;
      retB true
  end.

(** Lines 110-198, one iteration of the outer [while]. *)
Definition iterationU (fuel : nat) (self : UserWatchMan) (next : MB Outcome)
    : MB Outcome :=
  completed <~~ cycleU self ;;
  if completed then
    left <~~ embed (sleep_loop fuel (settings self) 0) ;;
    if left then next else retB StillRunning
  else next.

(** [WatchMan.run], lines 108-201, with at most [fuel] iterations of the
    outer loop and of each sleep loop. *)
Fixpoint runU (fuel : nat) (self : UserWatchMan) : MB Outcome :=
  match fuel with
  | O => retB StillRunning
  | S fuel' =>
      kg <~~ embed get_keepGoing ;;
      if kg then iterationU fuel self (runU fuel' self)
      else
        embed (fun s => (die s, [], Ok tt)) ;;;;
        retB Exited
  end.

(** The actions of the watcher raise nothing but exceptions derived from
    [Exception]. *)
Definition raises_Exception_only (a : UserAction) : Prop :=
  forall n d b, handle a n d <> Escaped b.

Definition safe (self : UserWatchMan) : Prop :=
  Forall (fun t => raises_Exception_only (u_action t)) (u_triggers self).

(** The two overlapping triggers of [test.py] as user triggers, the first
    with an action that raises an [Exception]; and a trigger whose action
    calls [sys.exit()]. *)
Definition failing_user_trigger : UserTrigger :=
  {| u_cls := TriggerRE; u_pattern := PyRe re_caret_a;
     u_action := {| handle := fun _ _ => Raised LibraryError |} |}.

Definition echo_user_trigger : UserTrigger :=
  {| u_cls := TriggerRE; u_pattern := PyRe re_caret_a;
     u_action := {| handle := fun _ _ => Returned tt |} |}.


Definition user_watcher (ts : list UserTrigger) (multi : bool) : UserWatchMan :=
  {| u_rootDir := "./testdir"; u_triggers := ts;
     u_canMatchMultiple := multi;
     u_stopCheckInterval := DEFAULT_STOP_CHECK_INTERVAL;
     u_pollTime := DEFAULT_POLL_TIME |}.


(** * Properties *)

(** ** String methods *)

Lemma endswith_app (s : string) (c : ascii) :
  endswith (s +:+ String c "") c = true.
Proof.
  induction s as [|a s IH]; simpl.
  - apply Ascii.eqb_refl.
  - destruct s; simpl in *; [apply Ascii.eqb_refl | exact IH].
Qed.

Lemma but_last_app (s : string) (c : ascii) :
  but_last (s +:+ String c "") = s.
Proof.
  induction s as [|a s IH]; simpl; [reflexivity|].
  destruct s; simpl in *; [reflexivity | by rewrite IH].
Qed.

Lemma endswith_inv (s : string) (c : ascii) :
  endswith s c = true -> exists body, s = body +:+ String c "".
Proof.
  induction s as [|a s IH]; simpl; [discriminate|].
  destruct s as [|b s].
  - intros ->%Ascii.eqb_eq. by exists "".
  - intros [body Hb]%IH. exists (String a body). simpl. by rewrite Hb.
Qed.

Lemma split_not_nil (sep : ascii) (s : string) : split sep s <> [].
Proof.
  destruct s as [|c s]; simpl; [discriminate|].
  destruct (Ascii.eqb c sep); [discriminate|].
  destruct (split sep s); discriminate.
Qed.

(** Joining the pieces with the separator gives the string back: [split]
    loses no character and no (possibly blank) line. *)
Lemma join_split (sep : ascii) (s : string) : join sep (split sep s) = s.
Proof.
  induction s as [|c s IH]; simpl; [reflexivity|].
  destruct (Ascii.eqb_spec c sep) as [->|Hne].
  - pose proof (split_not_nil sep s) as Hnn.
    destruct (split sep s) as [|h t]; [done|].
    simpl in *. by rewrite IH.
  - pose proof (split_not_nil sep s) as Hnn.
    destruct (split sep s) as [|h t]; [done|].
    destruct t as [|h' t']; simpl in *; by rewrite <- IH.
Qed.

(** No piece contains the separator. *)
Lemma split_no_sep (sep : ascii) (s l : string) :
  In l (split sep s) -> str_contains sep l = false.
Proof.
  revert l. induction s as [|c s IH]; simpl; intros l.
  - intros [<-|[]]. reflexivity.
  - destruct (Ascii.eqb_spec c sep) as [->|Hne].
    + intros [<-|Hin]; [reflexivity | by apply IH].
    + pose proof (split_not_nil sep s) as Hnn.
      destruct (split sep s) as [|h t]; [done|].
      intros [<-|Hin].
      * simpl. rewrite (IH h) by (by left).
        by destruct (Ascii.eqb_spec c sep).
      * apply IH. by right.
Qed.

Lemma split_app_sep (sep : ascii) (s : string) :
  split sep (s +:+ String sep "") = split sep s ++ [""].
Proof.
  induction s as [|c s IH]; simpl.
  - by rewrite Ascii.eqb_refl.
  - rewrite IH. destruct (Ascii.eqb c sep); [reflexivity|].
    pose proof (split_not_nil sep s) as Hnn.
    destruct (split sep s); [done | reflexivity].
Qed.

(** The last piece is empty exactly when the string is empty or ends with
    the separator. *)
Lemma last_split_empty (sep : ascii) (s : string) :
  List.last (split sep s) "" = "" -> s = "" \/ endswith s sep = true.
Proof.
  induction s as [|c s IH]; [by left|].
  intros Hl. right.
  pose proof (split_not_nil sep s) as Hnn.
  assert (Htail : List.last (split sep s) "" = "" ->
                  endswith (String c s) sep = true \/ s = "").
  { intros H. destruct (IH H) as [->|He]; [by right|left].
    simpl. destruct s; [discriminate | exact He]. }
  simpl in Hl. destruct (Ascii.eqb_spec c sep) as [->|Hne].
  - destruct (split sep s) as [|h t] eqn:Hs; [done|].
    destruct Htail as [H| ->]; [exact Hl | exact H |].
    simpl. apply Ascii.eqb_refl.
  - destruct (split sep s) as [|h t] eqn:Hs; [done|].
    destruct t as [|h' t']; [simpl in Hl; discriminate|].
    destruct Htail as [H| ->]; [exact Hl | exact H |].
    simpl in Hs. discriminate.
Qed.

Lemma lstrip_empty (s : string) : lstrip s = "" <-> all_space s = true.
Proof.
  unfold all_space. induction s as [|c s IH]; simpl; [done|].
  destruct (is_space c); simpl; [exact IH | split; discriminate].
Qed.

Lemma rstrip_empty (s : string) : rstrip s = "" <-> all_space s = true.
Proof.
  unfold all_space. induction s as [|c s IH]; simpl; [done|].
  destruct (is_space c); simpl.
  - destruct (String.eqb_spec (rstrip s) "") as [He|Hne].
    + split; [intros _; by apply IH | done].
    + split; [discriminate | intros H; by apply IH in H].
  - split; discriminate.
Qed.

(** [contents.strip()] is empty exactly when every character is white
    space. *)
Lemma strip_empty (s : string) : strip s = "" <-> all_space s = true.
Proof.
  unfold strip. split.
  - intros H. apply rstrip_empty in H.
    destruct (all_space s) eqn:Hs; [reflexivity|].
    exfalso. revert H Hs. unfold all_space.
    induction s as [|c s IH]; simpl; [discriminate|].
    destruct (is_space c) eqn:Hc; simpl; [exact IH|].
    rewrite Hc. discriminate.
  - intros H. apply lstrip_empty in H. by rewrite H.
Qed.

(** ** Pattern validation *)

Lemma run_dot (k : nat) (l : list ascii) :
  Re.exec (Re.Chars ["."%char]) (k, l)
  = match l with
    | c :: rest => if Ascii.eqb c "." then [(S k, rest)] else []
    | [] => []
    end.
Proof.
  destruct l as [|c l]; [done|]. simpl. unfold Re.mem. simpl.
  by rewrite orb_false_r.
Qed.

Lemma run_eol (k : nat) (l : list ascii) :
  Re.exec Re.Eol (k, l) <> [] <-> l = [] \/ l = [nl].
Proof.
  destruct l as [|c [|c' l]]; simpl.
  - split; [by left | done].
  - destruct (Ascii.eqb_spec c nl) as [->|Hc].
    + split; [by right | done].
    + split; [done | intros [?|[= ?]]; done].
  - split; [done | intros [?|?]; done].
Qed.

(** [allDotsRE.match]: one or more dots, and nothing else but a final
    newline, which [$] lets pass. *)
Lemma allDotsRE_run (n k : nat) (l : list ascii) :
  flat_map (Re.exec Re.Eol) (Re.iter (Re.exec (Re.Chars ["."%char])) n (k, l)) <> []
  <-> exists i, i < n /\
        (l = repeat "."%char (S i) \/ l = repeat "."%char (S i) ++ [nl]).
Proof.
  revert k l. induction n as [|n IH]; intros k l.
  { split; [done | intros (i & Hi & _); lia]. }
  change (Re.iter ?f (S n) ?p) with (f p ++ flat_map (Re.iter f n) (f p)).
  rewrite run_dot. destruct l as [|c l].
  { split; [done | intros (i & _ & [H|H]); discriminate]. }
  destruct (Ascii.eqb_spec c ".") as [->|Hc].
  2:{ split; [done | intros (i & _ & [H|H]); injection H; congruence]. }
  cbn [app flat_map]. rewrite app_nil_r.
  specialize (IH (S k) l). split.
  - intros H.
    destruct (flat_map (Re.exec Re.Eol)
                (Re.iter (Re.exec (Re.Chars ["."%char])) n (S k, l)))
      as [|p ps] eqn:Hfm.
    + rewrite app_nil_r in H. apply run_eol in H as [-> | ->].
      * exists 0. split; [lia | by left].
      * exists 0. split; [lia | by right].
    + destruct IH as [(i & Hi & Hl) _]; [done|].
      exists (S i). split; [lia|].
      destruct Hl as [->| ->]; [by left | by right].
  - intros (i & Hi & Hl) Happ. apply app_eq_nil in Happ as [He Happ].
    destruct i as [|i].
    + apply (proj2 (run_eol (S k) l)); [|done].
      destruct Hl as [[= ->]|[= ->]]; [by left | by right].
    + assert (Hl' : l = repeat "."%char (S i) \/ l = repeat "."%char (S i) ++ [nl]).
      { destruct Hl as [H|H]; injection H as ->; [by left | by right]. }
      destruct IH as [_ IH]. apply IH; [|done].
      exists i. split; [lia | done].
Qed.

Lemma list_ascii_of_string_app (s t : string) :
  list_ascii_of_string (s +:+ t)
  = list_ascii_of_string s ++ list_ascii_of_string t.
Proof. induction s as [|c s IH]; simpl; [done | by rewrite IH]. Qed.

Lemma list_ascii_of_dots (n : nat) :
  list_ascii_of_string (dots n) = repeat "."%char n.
Proof. induction n as [|n IH]; simpl; [done | by rewrite IH]. Qed.

Lemma allDotsRE_match (s : string) :
  Re.match_ allDotsRE s = true <->
  exists n, s = dots (S n) \/ s = dots (S n) +:+ String nl "".
Proof.
  unfold Re.match_, allDotsRE. cbn [Re.exec fst flat_map]. rewrite app_nil_r.
  cbn [snd].
  pose proof (allDotsRE_run (S (length (list_ascii_of_string s))) 0
                (list_ascii_of_string s)) as H.
  destruct (flat_map _ _) as [|p ps].
  - split; [done|]. intros (n & Hn). exfalso.
    apply (proj2 H); [|done]. exists n. split.
    + destruct Hn as [-> | ->].
      * rewrite list_ascii_of_dots, repeat_length. lia.
      * rewrite list_ascii_of_string_app, length_app, list_ascii_of_dots, repeat_length. lia.
    + destruct Hn as [-> | ->]; [left | right].
      * apply list_ascii_of_dots.
      * by rewrite list_ascii_of_string_app, list_ascii_of_dots.
  - split; [|done]. intros _.
    destruct (proj1 H) as (i & _ & Hi); [done|]. exists i.
    rewrite <- (string_of_list_ascii_of_string s).
    destruct Hi as [-> | ->]; [left | right].
    + by rewrite <- list_ascii_of_dots, string_of_list_ascii_of_string.
    + rewrite <- list_ascii_of_dots.
      rewrite <- (list_ascii_of_string_of_list_ascii [nl]).
      rewrite <- list_ascii_of_string_app.
      by rewrite string_of_list_ascii_of_string.
Qed.

(** The generic checks accept a string exactly when it is not empty, does
    not match [allDotsRE] and has no '/'. *)
Lemma genericValidate_str (s : string) :
  _genericValidatePattern (PyStr s) StringTypes = Ok None <->
  s <> "" /\ Re.match_ allDotsRE s = false /\ str_contains "/" s = false.
Proof.
  unfold _genericValidatePattern. simpl.
  destruct (String.eqb_spec s "") as [->|Hne]; simpl.
  - split; [discriminate | intros [? _]; done].
  - destruct (Re.match_ allDotsRE s); simpl.
    + split; [discriminate | intros (_ & ? & _); done].
    + destruct (str_contains "/" s); simpl.
      * split; [discriminate | intros (_ & _ & ?); done].
      * done.
Qed.

(** [validGlobRE.match] looks at the first character only. *)
Lemma validGlobRE_match (s : string) :
  Re.match_ validGlobRE s = true <->
  exists rest, s = String "*" rest \/ s = String "?" rest.
Proof.
  unfold Re.match_, validGlobRE. destruct s as [|c s]; simpl.
  - split; [discriminate | intros [rest [?|?]]; discriminate].
  - unfold Re.mem. simpl.
    destruct (Ascii.eqb_spec c "*") as [->|H1]; simpl.
    { split; [intros _; exists s; by left | done]. }
    destruct (Ascii.eqb_spec c "?") as [->|H2]; simpl.
    { split; [intros _; exists s; by right | done]. }
    split; [discriminate|].
    intros [rest [[= -> _]|[= -> _]]]; done.
Qed.

(** What the code does for globs: among the strings that pass the generic
    checks, [TriggerGlob] accepts those that begin with '*' or '?'. *)
Lemma TriggerGlob_validate_leading (s : string) :
  _genericValidatePattern (PyStr s) StringTypes = Ok None ->
  (_validatePattern TriggerGlob (PyStr s) = Ok tt <->
   exists rest, s = String "*" rest \/ s = String "?" rest).
Proof.
  intros Hg. unfold _validatePattern, Trigger_validatePattern. simpl.
  rewrite Hg. simpl. rewrite <- validGlobRE_match.
  destruct (Re.match_ validGlobRE s); simpl; split; done.
Qed.

(** C1 (the code departs from the claim): the pattern [a*.txt] passes the
    generic checks and contains a '*', yet constructing a [TriggerGlob]
    with it raises the "contains neither" error, because the wildcard test
    uses [match], which looks at the first character only. *)
Theorem glob_inner_wildcard_rejected (action : Action) :
  _genericValidatePattern (PyStr "a*.txt") StringTypes = Ok None /\
  str_contains "*" "a*.txt" = true /\
  Trigger__init__ TriggerGlob (PyStr "a*.txt") (AnAction action)
  = Raise (ValueError NoGlobChar).
Proof. repeat split. Qed.

(** C8 (the code departs from the claim): [_processPattern] would hand a
    compiled pattern through unchanged, but construction never gets there:
    the generic validation applies [allDotsRE.match] to the compiled
    object, which raises [TypeError]. *)
Theorem compiled_pattern_rejected (p : SRE_Pattern) (action : pyaction) :
  _processPattern TriggerRE (PyRe p) = Ok (PyRe p) /\
  _validatePattern TriggerRE (PyRe p) = Raise TypeError /\
  Trigger__init__ TriggerRE (PyRe p) action = Raise TypeError.
Proof. repeat split. Qed.

(** ** Matching *)

Lemma first_lower_equal_length (pattern : string) (items : list string) :
  length (first_lower_equal pattern items) <= 1.
Proof.
  induction items as [|x items IH]; simpl; [lia|].
  destruct (String.eqb (lower x) pattern); simpl; [lia | exact IH].
Qed.

(** The case-insensitive trigger never returns more than one name. *)
Lemma case_insensitive_at_most_one (self : TriggerObj)
    (names matches : list string) :
  t_cls self = TriggerCaseInsensitiveMatch ->
  getFilenameMatches self names = Ok matches ->
  length matches <= 1.
Proof.
  unfold getFilenameMatches. intros ->.
  destruct (t_pattern self); intros [= <-]; simpl; try lia.
  apply first_lower_equal_length.
Qed.

(** C7 (the code departs from the claim): with the candidates [Readme] and
    [README], both equal to the pattern once lower-cased, the trigger built
    from [README] returns the first of them only. *)
Theorem case_insensitive_returns_first_only (action : Action) :
  exists t,
    Trigger__init__ TriggerCaseInsensitiveMatch (PyStr "README")
      (AnAction action) = Ok t /\
    lower "Readme" = lower "README" /\
    getFilenameMatches t ["Readme"; "README"] = Ok ["Readme"] /\
    getFilenameMatches t ["README"; "Readme"] = Ok ["README"].
Proof. eexists. repeat split. Qed.

(** ** The line list of a file *)

(** C6: contents made of white space only (the empty contents among them)
    give the empty list. Other contents are split at each newline, and the
    one empty entry a final newline leaves at the end is dropped: contents
    [body ++ "\n"] give the pieces of [body], contents without a final
    newline give their own pieces. The split itself keeps every line, blank
    ones included: the pieces joined by newlines are the string again, and
    no piece contains a newline. Both [line1\nline2\n] and [line1\nline2]
    give [line1; line2]. *)
Theorem file_lines_spec :
  (forall contents, all_space contents = true -> file_lines contents = []) /\
  (forall body, all_space (body +:+ String nl "") = false ->
     file_lines (body +:+ String nl "") = split nl body) /\
  (forall contents, all_space contents = false ->
     endswith contents nl = false ->
     file_lines contents = split nl contents) /\
  (forall s, join nl (split nl s) = s /\
     forall l, In l (split nl s) -> str_contains nl l = false) /\
  file_lines "line1
line2
" = ["line1"; "line2"] /\
  file_lines "line1
line2" = ["line1"; "line2"] /\
  file_lines "a

b
" = ["a"; ""; "b"] /\
  file_lines "" = [].
Proof.
  split; [|split; [|split; [|split; [|repeat split]]]].
  - intros contents H. unfold file_lines.
    apply strip_empty in H. by rewrite H.
  - intros body H. unfold file_lines.
    destruct (String.eqb_spec (strip (body +:+ String nl "")) "") as [He|_].
    { apply strip_empty in He. congruence. }
    simpl. rewrite split_app_sep, last_last. simpl.
    apply removelast_last.
  - intros contents H He. unfold file_lines.
    destruct (String.eqb_spec (strip contents) "") as [Hs|_].
    { apply strip_empty in Hs. congruence. }
    simpl.
    destruct (String.eqb_spec (List.last (split nl contents) "") "")
      as [Hl|_]; [|reflexivity].
    apply last_split_empty in Hl as [->|Hl]; [discriminate | congruence].
  - intros s. split; [apply join_split | apply split_no_sep].
Qed.

(** ** The constructor of WatchMan *)

(** C10: when [__init__] succeeds, the stored [rootDir] is the argument
    with one final '/' taken off, if it had one, and then ['.'] in place of
    the empty string. So an argument [body ++ "/"] is stored as [body]
    (even when [body] itself ends with '/'), and ["/"] as ["."]. *)
Theorem rootDir_normalised (rootDir0 : string) (triggers0 : list pytrigger)
    (multi : bool) (pollTime0 stopCheckInterval0 : Q)
    (self : WatchMan) (warned : bool) :
  WatchMan__init__ rootDir0 triggers0 multi pollTime0 stopCheckInterval0
    = Ok (self, warned) ->
  (forall body, rootDir0 = body +:+ "/" ->
     rootDir self = if String.eqb body "" then "." else body) /\
  (endswith rootDir0 "/" = false ->
     rootDir self = if String.eqb rootDir0 "" then "." else rootDir0) /\
  (rootDir0 = "/" -> rootDir self = "." /\ isdir "." = true).
Proof.
  unfold WatchMan__init__. intros H.
  destruct (check_triggers 0 triggers0) as [ts|]; simpl in H; [|discriminate].
  set (r1 := if endswith rootDir0 "/" then but_last rootDir0 else rootDir0) in *.
  set (r2 := if Nat.eqb (String.length r1) 0 then "." else r1) in *.
  destruct (isdir r2) eqn:Hdir; simpl in H; [|discriminate].
  destruct (Qltb stopCheckInterval0 SMALL_NUMBER); [discriminate|].
  destruct (Qltb pollTime0 SMALL_NUMBER); [discriminate|].
  injection H as <- _. simpl.
  assert (Hlen : forall s, Nat.eqb (String.length s) 0 = String.eqb s "").
  { intros [|? ?]; reflexivity. }
  split; [|split].
  - intros body ->. subst r2 r1.
    by rewrite endswith_app, but_last_app, Hlen.
  - intros He. subst r2 r1. by rewrite He, Hlen.
  - intros ->. subst r2 r1. simpl in *. done.
Qed.

(** ** The monad of [run] *)

Lemma run_actions_app (a b : list Event) :
  run_actions (a ++ b) = run_actions a ++ run_actions b.
Proof. apply omap_app. Qed.

Lemma removes_app (a b : list Event) : removes (a ++ b) = removes a ++ removes b.
Proof. apply omap_app. Qed.

Lemma get_matches_app (a b : list Event) :
  get_matches (a ++ b) = get_matches a ++ get_matches b.
Proof. apply omap_app. Qed.

Lemma stderr_app (a b : list Event) : stderr (a ++ b) = stderr a ++ stderr b.
Proof. apply omap_app. Qed.

Lemma same_world_refl (s : St) : same_world s s.
Proof. by repeat split. Qed.

Lemma same_world_trans (s1 s2 s3 : St) :
  same_world s1 s2 -> same_world s2 s3 -> same_world s1 s3.
Proof. intros (?&?&?) (?&?&?). repeat split; congruence. Qed.

Lemma readable_same_world (s s' : St) (p : string) :
  same_world s s' -> readable s' p = readable s p.
Proof. intros (Hf&_). unfold readable. by rewrite Hf. Qed.

Lemma bindM_ret_l {A B} (a : A) (f : A -> M B) (s : St) :
  bindM (ret a) f s = f a s.
Proof. unfold bindM, ret. by destruct (f a s) as [[? ?] ?]. Qed.

(** ** The steps of a cycle *)

(** Reading one matched file whose path is known: [open] is called, the
    name gets its line list when the read succeeds, and is reported and
    left out when it fails. Nothing but [fullPath] changes. *)
Lemma read_match_spec (dca : gmap string string)
    (nad : gmap string (list string)) (n p : string) (s : St) :
  dca !! n = Some p ->
  exists s',
    same_world s s' /\
    read_match dca nad n s
    = (s',
       match readable s p with
       | Some _ => [Open p]
       | None => [Open p; Stderr (ReadFailed p)]
       end,
       Ok match readable s p with
          | Some c => <[n := file_lines c]> nad
          | None => nad
          end).
Proof.
  intros Hp. unfold read_match, try_, bindM, getitem, readable. rewrite Hp.
  simpl. destruct (files s !! p) as [f|] eqn:Hf; simpl.
  - destruct (contents f) as [c|e]; simpl; eexists; (split; [|reflexivity]);
      by repeat split.
  - eexists; (split; [|reflexivity]); by repeat split.
Qed.

(** The reading loop of one trigger: it only opens files, and leaves in
    [namesAndData] the line list of every match that could be read. *)
Lemma read_matches_spec (self : WatchMan) (dca : gmap string string)
    (matches : list string) :
  (forall n, n ∈ matches -> dca !! n = Some (path_of self n)) ->
  forall (nad : gmap string (list string)) (s : St),
  exists s' evs nad',
    foldM (read_match dca) nad matches s = (s', evs, Ok nad') /\
    same_world s s' /\
    run_actions evs = [] /\ removes evs = [] /\ get_matches evs = [] /\
    forall n,
      nad' !! n =
      match (if decide (n ∈ matches) then readable s (path_of self n) else None) with
      | Some c => Some (file_lines c)
      | None => nad !! n
      end.
Proof.
  induction matches as [|x rest IH]; intros Hdca nad s.
  - exists s, [], nad. repeat split.
  - destruct (read_match_spec dca nad x (path_of self x) s) as (s1 & Hw1 & Hr).
    { apply Hdca. left. }
    set (nad1 := match readable s (path_of self x) with
                 | Some c => <[x := file_lines c]> nad
                 | None => nad
                 end) in *.
    destruct (IH (fun n Hn => Hdca n (list_elem_of_further _ _ _ Hn)) nad1 s1)
      as (s' & evs & nad' & Hf & Hw & Hra & Hrm & Hgm & Hl).
    eexists s', _, nad'. split; [|split; [|split; [|split; [|split]]]].
    + simpl. unfold bindM. rewrite Hr, Hf. reflexivity.
    + eapply same_world_trans; eassumption.
    + rewrite run_actions_app, Hra. by destruct (readable s (path_of self x)).
    + rewrite removes_app, Hrm. by destruct (readable s (path_of self x)).
    + rewrite get_matches_app, Hgm. by destruct (readable s (path_of self x)).
    + intros n. rewrite Hl. rewrite (readable_same_world s s1) by done.
      destruct (decide (n ∈ rest)) as [Hin|Hnin].
      * rewrite decide_True by (by right).
        destruct (readable s (path_of self n)) as [c|] eqn:Hrn; [done|].
        subst nad1. destruct (decide (x = n)) as [->|Hne].
        -- by rewrite Hrn.
        -- destruct (readable s (path_of self x)); [|done].
           by rewrite lookup_insert_ne.
      * subst nad1. destruct (decide (x = n)) as [->|Hne].
        -- rewrite decide_True by left.
           destruct (readable s (path_of self n)); [|done].
           by rewrite lookup_insert_eq.
        -- rewrite decide_False.
           2:{ intros [?|?]%elem_of_cons; congruence. }
           destruct (readable s (path_of self x)); [|done].
           by rewrite lookup_insert_ne.
Qed.

(** [os.remove] inside its [try]: the call is made, the file is gone when
    it could be removed, and a failure is reported. *)
Lemma try_remove_spec (p : string) (s : St) :
  exists s' evs,
    (set_fullPath p ;;;
     r <~ try_ (os_remove p) ;;
     match r with
     | Raise _ => emit (Stderr (RemoveFailed p))
     | Ok _ => ret tt
     end) s = (s', evs, Ok tt) /\
    listing s' = listing s /\ keepGoing s' = keepGoing s /\
    files s' = (if can_remove s p then delete p (files s) else files s) /\
    run_actions evs = [] /\ get_matches evs = [] /\ removes evs = [p] /\
    (forall m, m ∈ stderr evs -> m = RemoveFailed p).
Proof.
  unfold bindM, try_, set_fullPath, os_remove, can_remove. simpl.
  destruct (files s !! p) as [f|]; simpl.
  - destruct (removable f); simpl; do 2 eexists; (split; [reflexivity|]);
      repeat split; simpl; try done.
    + intros m Hm. by apply elem_of_nil in Hm.
    + intros m Hm. by apply list_elem_of_singleton in Hm.
  - do 2 eexists; (split; [reflexivity|]); repeat split.
    intros m Hm. by apply list_elem_of_singleton in Hm.
Qed.

(** One dispatch: the action is run once with the data read; a failure is
    caught and reported; in single-match mode the removal of the file
    follows in either case, in multi-match mode nothing is removed yet. *)
Lemma dispatch_spec (self : WatchMan) (i : nat) (t : TriggerObj)
    (dca : gmap string string) (nad : gmap string (list string))
    (n p : string) (d : list string) (s : St) :
  nad !! n = Some d -> dca !! n = Some p ->
  exists s' evs,
    dispatch self i t dca nad n s = (s', evs, Ok tt) /\
    listing s' = listing s /\ keepGoing s' = keepGoing s /\
    files s' = (if canMatchMultiple self then files s
                else if can_remove s p then delete p (files s) else files s) /\
    run_actions evs = [(i, n, d)] /\ get_matches evs = [] /\
    removes evs = (if canMatchMultiple self then [] else [p]) /\
    (is_Ok (runAction t n d) = false -> ActionFailed i n d ∈ stderr evs).
Proof.
  intros Hd Hp.
  destruct (try_remove_spec p s) as (s2 & ev2 & Hrm & Hl & Hk & Hf & Hra & Hgm & Hrem & _).
  unfold dispatch, getitem. rewrite Hd, Hp.
  unfold bindM at 1. simpl.
  unfold bindM at 1. simpl.
  unfold bindM at 1. unfold try_ at 1. unfold lift. 
  destruct (canMatchMultiple self).
  - destruct (runAction t n d) as [[]|e]; simpl;
      do 2 eexists; (split; [reflexivity|]); repeat split; simpl; try done.
    intros _. left.
  - destruct (runAction t n d) as [[]|e]; simpl.
    + unfold bindM at 1. simpl. unfold bindM at 1. simpl.
      rewrite Hrm. do 2 eexists; (split; [reflexivity|]).
      repeat split; try done; simpl.
      all: rewrite ?run_actions_app, ?get_matches_app, ?removes_app; simpl;
        by rewrite ?Hra, ?Hgm, ?Hrem.
    + unfold bindM at 1. simpl. unfold bindM at 1. simpl.
      rewrite Hrm. do 2 eexists; (split; [reflexivity|]).
      repeat split; try done; simpl.
      all: try (intros _; left).
      all: rewrite ?run_actions_app, ?get_matches_app, ?removes_app; simpl;
        by rewrite ?Hra, ?Hgm, ?Hrem.
Qed.

(** The dispatch loop of one trigger over the names it read. Each name is
    dispatched once, in the order of the keys; no exception leaves the
    loop; in single-match mode each removal is attempted once and removes
    the file when [os.remove] can. *)
Lemma dispatch_all_spec (self : WatchMan) (i : nat) (t : TriggerObj)
    (dca : gmap string string) (nad : gmap string (list string))
    (keys : list string) :
  (forall n, n ∈ keys ->
     is_Some (nad !! n) /\ dca !! n = Some (path_of self n)) ->
  forall s : St,
  exists s' evs,
    for_ keys (dispatch self i t dca nad) s = (s', evs, Ok tt) /\
    listing s' = listing s /\ keepGoing s' = keepGoing s /\
    (forall q, files s' !! q =
       if negb (canMatchMultiple self)
          && bool_decide (q ∈ path_of self <$> keys) && can_remove s q
       then None else files s !! q) /\
    run_actions evs = (fun n => (i, n, default [] (nad !! n))) <$> keys /\
    get_matches evs = [] /\
    removes evs = (if canMatchMultiple self then [] else path_of self <$> keys) /\
    (forall n d, n ∈ keys -> nad !! n = Some d ->
       is_Ok (runAction t n d) = false -> ActionFailed i n d ∈ stderr evs).
Proof.
  induction keys as [|x rest IH]; intros Hkeys s.
  - exists s, []. repeat split; simpl.
    + intros q. by destruct (canMatchMultiple self).
    + by destruct (canMatchMultiple self).
    + intros n d Hn. by apply elem_of_nil in Hn.
  - destruct (Hkeys x) as [[d Hd] Hp]; [left|].
    destruct (dispatch_spec self i t dca nad x _ d s Hd Hp)
      as (s1 & ev1 & Hstep & Hl1 & Hk1 & Hf1 & Hra1 & Hgm1 & Hrm1 & Herr1).
    destruct (IH (fun n Hn => Hkeys n (list_elem_of_further _ _ _ Hn)) s1)
      as (s' & ev2 & Hrest & Hl & Hk & Hf & Hra & Hgm & Hrm & Herr).
    exists s', (ev1 ++ ev2). split; [|split; [|split; [|split; [|split; [|split; [|split]]]]]].
    + simpl. unfold bindM. by rewrite Hstep, Hrest.
    + congruence.
    + congruence.
    + intros q. rewrite Hf. rewrite fmap_cons.
      destruct (canMatchMultiple self); simpl; [by rewrite Hf1|].
      destruct (decide (q = path_of self x)) as [->|Hne].
      * rewrite (bool_decide_eq_true_2 (_ ∈ _ :: _)) by left. simpl.
        destruct (can_remove s (path_of self x)) eqn:Hc.
        -- assert (Hq : files s1 !! path_of self x = None)
             by (rewrite Hf1; apply lookup_delete_eq).
           unfold can_remove. rewrite Hq. by rewrite andb_false_r.
        -- assert (Hc1 : can_remove s1 (path_of self x) = false)
             by (unfold can_remove in *; by rewrite Hf1).
           rewrite Hc1, andb_false_r. by rewrite Hf1.
      * assert (Hq : files s1 !! q = files s !! q).
        { rewrite Hf1. destruct (can_remove s (path_of self x)); [|done].
          by rewrite lookup_delete_ne. }
        unfold can_remove. rewrite Hq.
        destruct (decide (q ∈ path_of self <$> rest)) as [Hin|Hnin].
        -- rewrite !bool_decide_eq_true_2; [done| by right | done].
        -- rewrite !bool_decide_eq_false_2; [done| | done].
           intros [?|?]%elem_of_cons; done.
    + rewrite run_actions_app, Hra1, Hra, fmap_cons, Hd. reflexivity.
    + by rewrite get_matches_app, Hgm1, Hgm.
    + rewrite removes_app, Hrm1, Hrm. by destruct (canMatchMultiple self).
    + intros n d' [->|Hin]%elem_of_cons Hn Hfail; rewrite stderr_app;
        apply elem_of_app.
      * left. assert (d' = d) as -> by congruence. by apply Herr1.
      * right. by eapply Herr.
Qed.

(** ** Matching returns names it was given *)

Lemma first_lower_equal_sub (pattern : string) (items : list string) (n : string) :
  n ∈ first_lower_equal pattern items -> n ∈ items.
Proof.
  induction items as [|x items IH]; simpl; [done|].
  destruct (String.eqb (lower x) pattern).
  - intros ->%list_elem_of_singleton. left.
  - intros H. right. by apply IH.
Qed.

(** Whatever its class, a trigger returns only names of the list it is
    given. *)
Lemma getFilenameMatches_sub (t : TriggerObj) (names ms : list string) (n : string) :
  getFilenameMatches t names = Ok ms -> n ∈ ms -> n ∈ names.
Proof.
  unfold getFilenameMatches, fnmatch_filter.
  destruct (t_cls t), (t_pattern t) as [pat|pat|]; try discriminate.
  - intros [= <-] [Hin _]%list_elem_of_In%filter_In. by apply list_elem_of_In.
  - destruct (fnmatch_compile pat) as [m|]; simpl; [|discriminate].
    intros [= <-] [Hin _]%list_elem_of_In%filter_In. by apply list_elem_of_In.
  - destruct (existsb (String.eqb pat) names) eqn:He; intros [= <-].
    + intros ->%list_elem_of_singleton.
      apply existsb_exists in He as (x & Hx & ->%String.eqb_eq).
      by apply list_elem_of_In.
    + intros H. by apply elem_of_nil in H.
  - intros [= <-] H. by apply elem_of_nil in H.
  - intros [= <-] H. by apply elem_of_nil in H.
  - intros [= <-]. apply first_lower_equal_sub.
  - intros [= <-] H. by apply elem_of_nil in H.
  - intros [= <-] H. by apply elem_of_nil in H.
Qed.

Lemma matches_of_sub (t : TriggerObj) (names : list string) (n : string) :
  n ∈ matches_of t names -> n ∈ names.
Proof.
  unfold matches_of. destruct (getFilenameMatches t names) as [ms|] eqn:H.
  - by apply (getFilenameMatches_sub t).
  - intros Hn. by apply elem_of_nil in Hn.
Qed.

(** ** One trigger *)

(** What a trigger does in a cycle. It is asked once, with the current
    [remainingContents]; the names it claims leave [remainingContents]
    (single-match) or join [matchedThisIteration] (multi-match); those of
    them that can be read ([keys]) are dispatched once each with their line
    list, and in single-match mode removed; no exception leaves the body. *)
Lemma process_trigger_spec (self : WatchMan) (dca : gmap string string)
    (i : nat) (t : TriggerObj) (rem mt : gset string) (s : St) :
  (forall n, n ∈ rem -> dca !! n = Some (path_of self n)) ->
  exists s' evs,
    process_trigger self dca i t (rem, mt) s
    = (s', evs, Ok (claim self (rem, mt) (matches_of t (elements rem)))) /\
    trigger_effect self i t rem s s' evs.
Proof.
  intros Hdca. unfold trigger_effect.
  set (ms := matches_of t (elements rem)).
  assert (Hms : forall n, n ∈ ms -> dca !! n = Some (path_of self n)).
  { intros n Hn. apply Hdca. apply elem_of_elements.
    by apply (matches_of_sub t). }
  unfold process_trigger. simpl. subst ms. unfold matches_of in *.
  destruct (getFilenameMatches t (elements rem)) as [ms|e] eqn:Hg.
  - destruct (read_matches_spec self dca ms Hms ∅ s)
      as (s1 & ev1 & nad & Hread & Hw & Hra1 & Hrm1 & Hgm1 & Hnad).
    assert (Hkeys : forall n, n ∈ (map_to_list nad).*1 <->
              n ∈ ms /\ is_Some (readable s (path_of self n))).
    { intros n. rewrite list_elem_of_fmap. split.
      - intros ([n' d] & -> & Hin%elem_of_map_to_list). simpl.
        rewrite Hnad in Hin. destruct (decide (n' ∈ ms)) as [Hin'|]; [|done].
        split; [done|]. destruct (readable s (path_of self n')); [by eexists|done].
      - intros [Hin [c Hc]]. exists (n, file_lines c). split; [done|].
        apply elem_of_map_to_list. rewrite Hnad, decide_True by done.
        by rewrite Hc. }
    destruct (dispatch_all_spec self i t dca nad (map_to_list nad).*1) with (s := s1)
      as (s' & ev2 & Hdisp & Hl & Hk & Hf & Hra & Hgm & Hrm & Herr).
    { intros n Hn. apply Hkeys in Hn as [Hin [c Hc]]. split; [|by apply Hms].
      rewrite Hnad, decide_True by done. rewrite Hc. by eexists. }
    destruct Hw as (Hwf & Hwl & Hwk).
    exists s', ([GetMatches i (elements rem)] ++ ev1 ++ ev2). split.
    { unfold bindM at 1. simpl. unfold bindM at 1. unfold try_ at 1.
      unfold lift at 1. unfold bindM at 1. rewrite Hread.
      unfold bindM at 1. rewrite Hdisp. simpl. by rewrite app_nil_r. }
    exists (map_to_list nad).*1, (fun n => default [] (nad !! n)).
    split; [|split; [|split; [|split; [|split; [|split; [|split; [|split; [|split]]]]]]]].
    + congruence.
    + congruence.
    + apply NoDup_fst_map_to_list.
    + exact Hkeys.
    + intros n c Hin Hc. by rewrite Hnad, decide_True, Hc.
    + simpl. by rewrite get_matches_app, Hgm1, Hgm.
    + simpl. by rewrite run_actions_app, Hra1, Hra.
    + simpl. by rewrite removes_app, Hrm1, Hrm.
    + intros q. rewrite Hf. unfold can_remove. by rewrite Hwf.
    + intros n Hn Hfail. simpl. rewrite stderr_app. apply elem_of_app. right.
      apply Hkeys in Hn as [Hin [c Hc]].
      apply Herr; [by apply Hkeys; split; [|exists c] | | done].
      by rewrite Hnad, decide_True, Hc.
  - exists s, [GetMatches i (elements rem); Stderr (MatchFailed i)]. split.
    { unfold claim, bindM, try_, lift, emit, ret. simpl.
      destruct (canMatchMultiple self); simpl.
      * by rewrite union_empty_r_L.
      * by rewrite difference_empty_L. }
    exists [], (fun _ => []).
    split; [|split; [|split; [|split; [|split; [|split; [|split; [|split; [|split]]]]]]]];
      try done.
    + apply NoDup_nil_2.
    + intros n. split; [intros H; by apply elem_of_nil in H|].
      intros [H _]. by apply elem_of_nil in H.
    + intros n c H. by apply elem_of_nil in H.
    + by destruct (canMatchMultiple self).
    + intros q. by destruct (canMatchMultiple self).
    + intros n H. by apply elem_of_nil in H.
Qed.

(** ** The loop over the triggers *)

Lemma claim_remaining_sub (self : WatchMan) (locals : gset string * gset string)
    (ms : list string) :
  (claim self locals ms).1 ⊆ locals.1.
Proof.
  unfold claim. destruct (canMatchMultiple self); simpl; [done|].
  by apply subseteq_difference_l.
Qed.

(** The loop over the triggers raises nothing, and does what the chain of
    the triggers' effects says. *)
Lemma for_triggers_spec (self : WatchMan) (dca : gmap string string)
    (ts : list TriggerObj) :
  forall (i : nat) (locals : gset string * gset string) (s : St),
  (forall n, n ∈ locals.1 -> dca !! n = Some (path_of self n)) ->
  exists s' evs locals',
    for_triggers self dca i ts locals s = (s', evs, Ok locals') /\
    triggers_run self i ts locals s s' evs locals'.
Proof.
  induction ts as [|t ts IH]; intros i [rem mt] s Hdca.
  - exists s, [], (rem, mt). split; [reflexivity | constructor].
  - destruct (process_trigger_spec self dca i t rem mt s Hdca)
      as (s1 & ev1 & Hstep & Heff).
    destruct (IH (S i) (claim self (rem, mt) (matches_of t (elements rem))) s1)
      as (s' & ev2 & locals' & Hrest & Hrun).
    { intros n Hn. apply Hdca. by apply (claim_remaining_sub self (rem, mt)) in Hn. }
    exists s', (ev1 ++ ev2), locals'. split.
    + simpl. unfold bindM. by rewrite Hstep, Hrest.
    + by econstructor.
Qed.

Lemma path_of_inj (self : WatchMan) (n m : string) :
  path_of self n = path_of self m -> n = m.
Proof.
  unfold path_of. induction (rootDir self) as [|c r IH]; simpl.
  - intros H. by injection H.
  - intros H. injection H as H. by apply IH.
Qed.

(** *** Facts that hold in both modes *)

Lemma triggers_run_world self i ts locals s s' evs locals' :
  triggers_run self i ts locals s s' evs locals' ->
  listing s' = listing s /\ keepGoing s' = keepGoing s.
Proof.
  induction 1 as [|i t ts locals s s1 ev1 s' ev2 locals' Heff _ [IHl IHk]];
    [done|].
  destruct Heff as (keys & data & Hl & Hk & _). split; congruence.
Qed.

(** The positions in the trace are those of the triggers. *)
Lemma triggers_run_index self i ts locals s s' evs locals' :
  triggers_run self i ts locals s s' evs locals' ->
  (forall j c, (j, c) ∈ get_matches evs -> i <= j < i + length ts) /\
  (forall j n d, (j, n, d) ∈ run_actions evs -> i <= j < i + length ts).
Proof.
  induction 1 as [|i t ts locals s s1 ev1 s' ev2 locals' Heff _ [IHg IHr]].
  - split; intros ? ?; [|intros ?]; intros H; by apply elem_of_nil in H.
  - destruct Heff as (keys & data & _ & _ & _ & _ & _ & Hgm & Hra & _).
    split.
    + intros j c. rewrite get_matches_app, Hgm.
      intros [Hin|Hin]%elem_of_app.
      * apply list_elem_of_singleton in Hin as [= -> _]. simpl. lia.
      * apply IHg in Hin. simpl. lia.
    + intros j n d. rewrite run_actions_app, Hra.
      intros [Hin|Hin]%elem_of_app.
      * apply list_elem_of_fmap in Hin as (? & [= -> _ _] & _). simpl. lia.
      * apply IHr in Hin. simpl. lia.
Qed.



(** The files after the loop: those whose removal was attempted and could
    succeed are gone, the others are as before. *)
Lemma triggers_run_files self i ts locals s s' evs locals' :
  triggers_run self i ts locals s s' evs locals' ->
  forall q, files s' !! q =
    if bool_decide (q ∈ removes evs) && can_remove s q then None
    else files s !! q.
Proof.
  induction 1 as [|i t ts locals s s1 ev1 s' ev2 locals' Heff Hrun IH].
  - done.
  - destruct Heff as (keys & data & _ & _ & _ & _ & _ & _ & _ & Hrm & Hf & _).
    assert (Hf1 : forall q, files s1 !! q =
               if bool_decide (q ∈ removes ev1) && can_remove s q
               then None else files s !! q).
    { intros q. rewrite Hf, Hrm. by destruct (canMatchMultiple self). }
    intros q. rewrite IH, removes_app. unfold can_remove at 1.
    rewrite (Hf1 q).
    destruct (decide (q ∈ removes ev1)) as [Hin|Hnin].
    + rewrite (bool_decide_eq_true_2 (q ∈ removes ev1)) by done.
      rewrite (bool_decide_eq_true_2 (q ∈ _ ++ _))
        by (apply elem_of_app; by left).
      simpl. destruct (can_remove s q) eqn:Hc.
      * by rewrite andb_false_r.
      * unfold can_remove in Hc. rewrite Hc. by rewrite andb_false_r.
    + rewrite (bool_decide_eq_false_2 (q ∈ removes ev1)) by done. simpl.
      fold (can_remove s q).
      destruct (decide (q ∈ removes ev2)) as [Hin2|Hnin2].
      * rewrite !bool_decide_eq_true_2; [done | | done].
        apply elem_of_app; by right.
      * rewrite !bool_decide_eq_false_2; [done | | done].
        intros [?|?]%elem_of_app; done.
Qed.

(** *** Single-match mode *)

Lemma dispatched_app (a b : list Event) :
  dispatched (a ++ b) = dispatched a ++ dispatched b.
Proof. unfold dispatched. by rewrite run_actions_app, fmap_app. Qed.

Lemma run_actions_dispatched (i : nat) (evs : list Event)
    (keys : list string) (data : string -> list string) :
  run_actions evs = (fun n => (i, n, data n)) <$> keys ->
  dispatched evs = keys.
Proof.
  intros H. unfold dispatched. rewrite H, <- list_fmap_compose. clear H.
  induction keys as [|k keys IH]; [done|]. simpl. f_equal. exact IH.
Qed.

(** In single-match mode the remaining set only shrinks; every trigger is
    asked about a set between the final and the initial remaining set;
    every dispatched name was in the initial set, is no more in the final
    one, and is dispatched once in the whole loop; the removals attempted
    are those of the dispatched names, one after each dispatch. *)
Lemma triggers_run_single self i ts locals s s' evs locals' :
  canMatchMultiple self = false ->
  triggers_run self i ts locals s s' evs locals' ->
  locals'.1 ⊆ locals.1 /\ locals'.2 = locals.2 /\
  (forall j c n, (j, c) ∈ get_matches evs ->
     (n ∈ c -> n ∈ locals.1) /\ (n ∈ locals'.1 -> n ∈ c)) /\
  (forall n, n ∈ dispatched evs -> n ∈ locals.1 /\ n ∉ locals'.1) /\
  NoDup (dispatched evs) /\
  removes evs = path_of self <$> dispatched evs.
Proof.
  clear re_parse isdir.
  intros Hmode.
  induction 1 as [|i t ts locals s s1 ev1 s' ev2 locals' Heff Hrun IH].
  - split; [done|]. split; [done|]. split; [|split; [|split; [constructor|done]]].
    + intros j c n H. by apply elem_of_nil in H.
    + intros n H. by apply elem_of_nil in H.
  - destruct IH as (Hsub & Hmt & Hgm2 & Hd2 & Hnd2 & Hrm2).
    destruct Heff as (keys & data & _ & _ & Hnd & Hkeys & _ & Hgm & Hra & Hrm & _).
    pose proof (run_actions_dispatched i ev1 keys data Hra) as Hd1.
    unfold claim in *. rewrite Hmode in *. simpl in *.
    assert (Hk : forall n, n ∈ keys -> n ∈ locals.1 /\ n ∉ locals'.1).
    { intros n [Hn _]%Hkeys. split.
      - apply elem_of_elements. by apply (matches_of_sub t).
      - intros Hn'. apply Hsub in Hn'. set_solver. }
    split; [set_solver|]. split; [done|]. split; [|split; [|split]].
    + intros j c n. rewrite get_matches_app, Hgm.
      intros [Hin|Hin]%elem_of_app.
      * apply list_elem_of_singleton in Hin as [= -> ->].
        rewrite elem_of_elements. split; [done|]. intros Hn. apply Hsub in Hn.
        set_solver.
      * destruct (Hgm2 j c n Hin) as [H1 H2]. split; [|done].
        intros Hn. apply H1 in Hn. set_solver.
    + intros n. rewrite dispatched_app, Hd1.
      intros [Hin|Hin]%elem_of_app; [by apply Hk|].
      apply Hd2 in Hin as [H1 H2]. split; [set_solver | done].
    + rewrite dispatched_app, Hd1. apply NoDup_app. split; [done|]. split; [|done].
      intros n Hn Hn2. apply Hd2 in Hn2 as [Hn2 _].
      apply Hkeys in Hn as [Hn _]. set_solver.
    + by rewrite removes_app, dispatched_app, fmap_app, Hrm, Hrm2, Hd1.
Qed.

(** First trigger wins. In single-match mode, let trigger [i] be asked
    about [ci] and claim [n]. Then no later trigger is asked about a set
    that contains [n], no other trigger dispatches [n], and trigger [i]
    dispatches it with its line list if the file could be read when the
    loop began. *)
Lemma triggers_run_first_wins self i0 ts locals s s' evs locals' :
  canMatchMultiple self = false ->
  triggers_run self i0 ts locals s s' evs locals' ->
  forall i ti ci n,
    i0 <= i -> ts !! (i - i0) = Some ti ->
    (i, ci) ∈ get_matches evs -> n ∈ matches_of ti ci ->
    (forall j cj, (j, cj) ∈ get_matches evs -> i < j -> n ∉ cj) /\
    (forall k d, (k, n, d) ∈ run_actions evs -> k = i) /\
    (forall c, readable s (path_of self n) = Some c ->
       (i, n, file_lines c) ∈ run_actions evs).
Proof.
  intros Hmode.
  induction 1 as [i0 locals s|i0 t ts locals s s1 ev1 s' ev2 locals' Heff Hrun IH];
    intros i ti ci n Hle Hti Hci Hn; [done|].
  pose proof (triggers_run_index _ _ _ _ _ _ _ _ Hrun) as [Hidxg Hidxr].
  pose proof (triggers_run_single _ _ _ _ _ _ _ _ Hmode Hrun)
    as (_ & _ & Hgm2 & Hd2 & _ & _).
  destruct Heff as (keys & data & _ & _ & _ & Hkeys & Hdata & Hgm & Hra & Hrm & Hf & _).
  unfold claim in *. rewrite Hmode in *. simpl in *.
  rewrite get_matches_app, Hgm in Hci.
  assert (Hdisp2 : forall k d, (k, n, d) ∈ run_actions ev2 -> n ∈ dispatched ev2).
  { intros k d Hk. unfold dispatched. apply list_elem_of_fmap.
    by exists (k, n, d). }
  destruct (decide (i = i0)) as [->|Hne].
  - rewrite Nat.sub_diag in Hti. injection Hti as <-.
    apply elem_of_app in Hci as [Hci|Hci]; [|apply Hidxg in Hci; lia].
    apply list_elem_of_singleton in Hci as [= ->].
    split; [|split].
    + intros j cj. rewrite get_matches_app, Hgm.
      intros [Hj|Hj]%elem_of_app Hlt Hncj.
      * apply list_elem_of_singleton in Hj as [= -> _]. lia.
      * apply (Hgm2 j cj n Hj) in Hncj. set_solver.
    + intros k d. rewrite run_actions_app, Hra.
      intros [Hk|Hk]%elem_of_app.
      * by apply list_elem_of_fmap in Hk as (? & [= -> _ _] & _).
      * apply Hdisp2, Hd2 in Hk as [Hk _]. set_solver.
    + intros c Hc. rewrite run_actions_app, Hra. apply elem_of_app. left.
      apply list_elem_of_fmap. exists n. split.
      * by rewrite (Hdata n c).
      * apply Hkeys. split; [done | by exists c].
  - apply elem_of_app in Hci as [Hci|Hci].
    { apply list_elem_of_singleton in Hci as [= -> _]. done. }
    replace (i - i0) with (S (i - S i0)) in Hti by lia. simpl in Hti.
    destruct (IH i ti ci n ltac:(lia) Hti Hci Hn) as (IH1 & IH2 & IH3).
    assert (Hnms : n ∉ matches_of t (elements locals.1)).
    { pose proof (matches_of_sub _ _ _ Hn) as Hnci.
      apply (Hgm2 i ci n Hci) in Hnci. set_solver. }
    assert (Hnk : n ∉ keys) by (intros [? _]%Hkeys; done).
    split; [|split].
    + intros j cj. rewrite get_matches_app, Hgm.
      intros [Hj|Hj]%elem_of_app Hlt.
      * apply list_elem_of_singleton in Hj as [= -> _]. lia.
      * by apply (IH1 j).
    + intros k d. rewrite run_actions_app, Hra.
      intros [Hk|Hk]%elem_of_app.
      * apply list_elem_of_fmap in Hk as (n' & [= -> -> _] & Hn'). done.
      * by apply (IH2 k d).
    + intros c Hc. rewrite run_actions_app. apply elem_of_app. right.
      apply IH3. unfold readable in *. rewrite Hf.
      rewrite bool_decide_eq_false_2; [done|].
      intros (n' & ->%path_of_inj & Hn')%list_elem_of_fmap. done.
Qed.

(** *** Multi-match mode *)

(** In multi-match mode every trigger, in order, is asked about the same
    set; nothing is removed inside the loop and no file changes; what the
    triggers claim accumulates in [matchedThisIteration]; every claimed
    name that can be read is dispatched by the trigger that claimed it. *)
Lemma triggers_run_multi self i ts locals s s' evs locals' :
  canMatchMultiple self = true ->
  triggers_run self i ts locals s s' evs locals' ->
  locals'.1 = locals.1 /\
  (forall n, n ∈ locals'.2 <->
     n ∈ locals.2 \/ exists t, t ∈ ts /\ n ∈ matches_of t (elements locals.1)) /\
  get_matches evs = imap (fun k _ => (i + k, elements locals.1)) ts /\
  removes evs = [] /\
  files s' = files s /\
  (forall k t n c, ts !! k = Some t ->
     n ∈ matches_of t (elements locals.1) ->
     readable s (path_of self n) = Some c ->
     (i + k, n, file_lines c) ∈ run_actions evs) /\
  (forall n, n ∈ dispatched evs -> n ∈ locals'.2).
Proof.
  intros Hmode.
  induction 1 as [i locals s|i t ts locals s s1 ev1 s' ev2 locals' Heff Hrun IH].
  - split; [done|]. split; [|split; [done|split; [done|split; [done|split]]]].
    + intros n. split; [by left|]. intros [?|(t & Ht & _)]; [done|].
      by apply elem_of_nil in Ht.
    + intros k t n c Hk. done.
    + intros n H. by apply elem_of_nil in H.
  - destruct IH as (Hrem & Hmt & Hgm2 & Hrm2 & Hf2 & Hd2 & Hin2).
    destruct Heff as (keys & data & _ & _ & _ & Hkeys & Hdata & Hgm & Hra & Hrm & Hf & _).
    pose proof (run_actions_dispatched i ev1 keys data Hra) as Hd1.
    unfold claim in *. rewrite Hmode in *. simpl in *.
    assert (Hf1 : files s1 = files s) by (apply map_eq; intros q; apply Hf).
    split; [done|]. split; [|split; [|split; [|split; [|split]]]].
    + intros n. rewrite Hmt, elem_of_union, elem_of_list_to_set. split.
      * intros [[?|?]|(t' & Ht' & ?)]; [by left | |].
        -- right. exists t. split; [left | done].
        -- right. exists t'. split; [by right | done].
      * intros [?|(t' & [->|Ht']%elem_of_cons & ?)].
        -- left. by left.
        -- left. by right.
        -- right. by exists t'.
    + rewrite get_matches_app, Hgm, Hgm2. simpl. rewrite Nat.add_0_r.
      f_equal. apply imap_ext. intros k x _. simpl. f_equal. lia.
    + by rewrite removes_app, Hrm, Hrm2.
    + congruence.
    + intros k t' n c Hk Hn Hc. rewrite run_actions_app. apply elem_of_app.
      destruct k as [|k]; simpl in Hk.
      * injection Hk as <-. left. rewrite Hra, Nat.add_0_r.
        apply list_elem_of_fmap. exists n. split.
        -- by rewrite (Hdata n c).
        -- apply Hkeys. split; [done | by exists c].
      * right. replace (i + S k) with (S i + k) by lia.
        apply (Hd2 k t'); [done | done |].
        unfold readable in *. by rewrite Hf1.
    + intros n. rewrite dispatched_app, Hd1.
      intros [Hn|Hn]%elem_of_app; [|by apply Hin2].
      apply Hmt. left. apply elem_of_union. right.
      apply elem_of_list_to_set. by apply Hkeys in Hn as [? _].
Qed.

(** The deferred removals: one attempt per name of the list. *)
Lemma remove_all_spec (self : WatchMan) (dca : gmap string string)
    (l : list string) :
  (forall n, n ∈ l -> dca !! n = Some (path_of self n)) ->
  forall s : St,
  exists s' evs,
    for_ l (remove_matched dca) s = (s', evs, Ok tt) /\
    listing s' = listing s /\ keepGoing s' = keepGoing s /\
    run_actions evs = [] /\ get_matches evs = [] /\
    removes evs = path_of self <$> l /\
    (forall q, files s' !! q =
       if bool_decide (q ∈ path_of self <$> l) && can_remove s q then None
       else files s !! q).
Proof.
  induction l as [|x l IH]; intros Hdca s.
  - exists s, []. by repeat split.
  - destruct (try_remove_spec (path_of self x) s)
      as (s1 & ev1 & Hstep & Hl1 & Hk1 & Hf1 & Hra1 & Hgm1 & Hrm1 & _).
    destruct (IH (fun n Hn => Hdca n (list_elem_of_further _ _ _ Hn)) s1)
      as (s' & ev2 & Hrest & Hl & Hk & Hra & Hgm & Hrm & Hf).
    exists s', (ev1 ++ ev2).
    split; [|split; [|split; [|split; [|split; [|split]]]]].
    + simpl. unfold bindM at 1. unfold remove_matched at 1, getitem.
      rewrite (Hdca x) by left. by rewrite bindM_ret_l, Hstep, Hrest.
    + congruence.
    + congruence.
    + by rewrite run_actions_app, Hra1, Hra.
    + by rewrite get_matches_app, Hgm1, Hgm.
    + by rewrite removes_app, Hrm1, Hrm.
    + intros q. rewrite Hf, fmap_cons.
      destruct (decide (q = path_of self x)) as [->|Hne].
      * rewrite (bool_decide_eq_true_2 (_ ∈ _ :: _)) by left. simpl.
        destruct (can_remove s (path_of self x)) eqn:Hc.
        -- assert (Hq : files s1 !! path_of self x = None)
             by (rewrite Hf1; apply lookup_delete_eq).
           unfold can_remove. rewrite Hq. by rewrite andb_false_r.
        -- assert (Hc1 : can_remove s1 (path_of self x) = false)
             by (unfold can_remove in *; by rewrite Hf1).
           rewrite Hc1, andb_false_r. by rewrite Hf1.
      * assert (Hq : files s1 !! q = files s !! q).
        { rewrite Hf1. destruct (can_remove s (path_of self x)); [|done].
          by rewrite lookup_delete_ne. }
        unfold can_remove. rewrite Hq.
        destruct (decide (q ∈ path_of self <$> l)) as [Hin|Hnin].
        -- rewrite !bool_decide_eq_true_2; [done| by right | done].
        -- rewrite !bool_decide_eq_false_2; [done| | done].
           intros [?|?]%elem_of_cons; done.
Qed.

(** ** A whole cycle *)

Lemma absolute_paths_lookup (self : WatchMan) (D : gset string) (n : string) :
  n ∈ D -> absolute_paths self D !! n = Some (path_of self n).
Proof.
  intros Hn. unfold absolute_paths. apply lookup_set_to_map.
  - by intros y y' _ _ [= ->].
  - by exists n.
Qed.

(** When the listing fails the cycle reports it, sleeps a fifth of the
    poll time and is over. *)
Lemma cycle_listing_failed (self : WatchMan) (s : St) (e : exn) :
  listing s = Raise e ->
  cycle self s
  = (s, [Listdir; Stderr ListFailed; Sleep (pollTime self / 5)], Ok false).
Proof.
  intros H. unfold cycle, list_directory, try_, bindM, os_listdir.
  by rewrite H.
Qed.

(** When the listing succeeds the cycle is the loop over the triggers from
    the candidate set, followed in multi-match mode by one removal per
    name of [matchedThisIteration]; it raises nothing. *)
Lemma cycle_spec (self : WatchMan) (s : St) (names : list string) :
  listing s = Ok names ->
  exists s1 ev1 locals' s' ev2,
    cycle self s = (s', Listdir :: ev1 ++ ev2, Ok true) /\
    triggers_run self 0 (triggers self) (candidates self s names, ∅)
      s s1 ev1 locals' /\
    listing s' = listing s1 /\ keepGoing s' = keepGoing s1 /\
    run_actions ev2 = [] /\ get_matches ev2 = [] /\
    removes ev2 = (if canMatchMultiple self
                   then path_of self <$> elements locals'.2 else []) /\
    (forall q, files s' !! q =
       if bool_decide (q ∈ removes ev2) && can_remove s1 q then None
       else files s1 !! q).
Proof.
  intros Hlist.
  set (D := candidates self s names).
  destruct (for_triggers_spec self (absolute_paths self D) (triggers self)
              0 (D, ∅) s) as (s1 & ev1 & locals' & Hfor & Hrun).
  { intros n Hn. by apply absolute_paths_lookup. }
  assert (Hcyc : forall s' ev2,
    (if canMatchMultiple self
     then for_ (elements locals'.2) (remove_matched (absolute_paths self D))
     else ret tt) s1 = (s', ev2, Ok tt) ->
    cycle self s = (s', Listdir :: ev1 ++ ev2, Ok true)).
  { intros s' ev2 H2.
    unfold cycle, list_directory, try_, os_listdir.
    unfold bindM at 1. unfold bindM at 1. rewrite Hlist. simpl.
    unfold scan_and_dispatch. fold (candidates self s names). fold D.
    unfold bindM at 1. unfold bindM at 1. rewrite Hfor, H2. simpl.
    by rewrite app_nil_r. }
  destruct (canMatchMultiple self) eqn:Hmode.
  - pose proof (triggers_run_multi _ _ _ _ _ _ _ _ Hmode Hrun)
      as (_ & Hmt & _).
    destruct (remove_all_spec self (absolute_paths self D) (elements locals'.2))
      with (s := s1) as (s' & ev2 & Hrm & Hl & Hk & Hra & Hgm & Hrem & Hf).
    { intros n Hn%elem_of_elements. apply absolute_paths_lookup.
      apply Hmt in Hn as [Hn|(t & _ & Hn)]; [by apply not_elem_of_empty in Hn|].
      apply matches_of_sub in Hn. by apply elem_of_elements in Hn. }
    exists s1, ev1, locals', s', ev2.
    split; [by apply Hcyc|]. split; [done|].
    repeat split; try done. intros q. by rewrite Hf, Hrem.
  - exists s1, ev1, locals', s1, [].
    split; [by apply Hcyc|]. by repeat split.
Qed.

(** No exception leaves a cycle. *)
Lemma cycle_no_raise (self : WatchMan) (s : St) :
  exists s' evs b, cycle self s = (s', evs, Ok b).
Proof.
  destruct (listing s) as [names|e] eqn:Hl.
  - destruct (cycle_spec self s names Hl) as (s1 & ev1 & l' & s' & ev2 & H & _).
    by exists s', (Listdir :: ev1 ++ ev2), true.
  - rewrite (cycle_listing_failed self s e Hl). by eexists _, _, _.
Qed.

(** The files after a cycle: gone are those whose removal was attempted
    and could succeed, the others are as before. *)
Lemma cycle_files (self : WatchMan) (s s' : St) (evs : list Event) (r : Exc bool) :
  cycle self s = (s', evs, r) ->
  forall q, files s' !! q =
    if bool_decide (q ∈ removes evs) && can_remove s q then None
    else files s !! q.
Proof.
  destruct (listing s) as [names|e] eqn:Hl.
  - destruct (cycle_spec self s names Hl)
      as (s1 & ev1 & l' & s2 & ev2 & Hc & Hrun & _ & _ & _ & _ & Hrm & Hf).
    rewrite Hc. intros [= <- <- <-] q.
    pose proof (triggers_run_files _ _ _ _ _ _ _ _ Hrun) as Hf1.
    change (Listdir :: ev1 ++ ev2) with ([Listdir] ++ ev1 ++ ev2).
    rewrite !removes_app. simpl. rewrite Hf. unfold can_remove at 1.
    rewrite (Hf1 q).
    destruct (decide (q ∈ removes ev1)) as [Hin|Hnin].
    + rewrite (bool_decide_eq_true_2 (q ∈ removes ev1)) by done.
      rewrite (bool_decide_eq_true_2 (q ∈ _ ++ _))
        by (apply elem_of_app; by left).
      simpl. destruct (can_remove s q) eqn:Hcr.
      * by rewrite andb_false_r.
      * unfold can_remove in Hcr. rewrite Hcr. by rewrite andb_false_r.
    + rewrite (bool_decide_eq_false_2 (q ∈ removes ev1)) by done. simpl.
      fold (can_remove s q).
      destruct (decide (q ∈ removes ev2)) as [Hin2|Hnin2].
      * rewrite !bool_decide_eq_true_2; [done | | done].
        apply elem_of_app; by right.
      * rewrite !bool_decide_eq_false_2; [done | | done].
        intros [?|?]%elem_of_app; done.
  - rewrite (cycle_listing_failed self s e Hl). by intros [= <- <- <-] q.
Qed.

(** In a list whose keys are pairwise distinct, the entries with the key of
    an entry [x] are [x] alone. *)
Lemma filter_key_singleton {A B} `{EqDecision B} (f : A -> B) (l : list A) (x : A) :
  NoDup (f <$> l) -> x ∈ l -> filter (fun y => f y = f x) l = [x].
Proof.
  induction l as [|a l IH]; intros Hnd Hin; [by apply elem_of_nil in Hin|].
  rewrite fmap_cons in Hnd. apply NoDup_cons in Hnd as [Hnot Hnd].
  assert (Hkey : forall y, y ∈ l -> f y <> f a).
  { intros y Hy Heq. apply Hnot. rewrite <- Heq. apply list_elem_of_fmap. eauto. }
  apply elem_of_cons in Hin as [->|Hin].
  - rewrite filter_cons_True by done. f_equal.
    clear IH Hnot Hnd. induction l as [|b l IH]; [done|].
    rewrite filter_cons_False; [apply IH|].
    + intros y Hy. apply Hkey. by right.
    + apply Hkey. left.
  - rewrite filter_cons_False; [by apply IH|].
    intros Heq. by apply (Hkey x).
Qed.

Lemma matches_of_Ok (t : TriggerObj) (names ms : list string) :
  getFilenameMatches t names = Ok ms -> matches_of t names = ms.
Proof. unfold matches_of. by intros ->. Qed.

(** ** Single-match mode: the first trigger wins *)

(** In single-match mode, when trigger [i] is returned the name [n] by
    its [getFilenameMatches], asked about [ci], no later trigger of the
    cycle is asked about a set that contains [n], and no trigger but [i]
    dispatches [n]. If the file can be read, the only dispatch for [n] in
    the cycle is that of trigger [i], with the line list of the file, and
    its removal is attempted exactly once, after which the file is gone
    if [os.remove] can remove it. *)
Lemma single_match_returned_name (self : WatchMan) (s s' : St)
    (evs : list Event) (r : Exc bool)
    (i : nat) (ti : TriggerObj) (ci mi : list string) (n : string) :
  canMatchMultiple self = false ->
  cycle self s = (s', evs, r) ->
  triggers self !! i = Some ti ->
  (i, ci) ∈ get_matches evs ->
  getFilenameMatches ti ci = Ok mi -> n ∈ mi ->
  (forall j cj, (j, cj) ∈ get_matches evs -> i < j -> n ∉ cj) /\
  (forall k d, (k, n, d) ∈ run_actions evs -> k = i) /\
  (forall c, readable s (path_of self n) = Some c ->
     filter (fun x => x.1.2 = n) (run_actions evs) = [(i, n, file_lines c)] /\
     filter (fun p => p = path_of self n) (removes evs) = [path_of self n] /\
     (can_remove s (path_of self n) = true ->
      files s' !! path_of self n = None)).
Proof.
  intros Hmode Hcyc Hti Hci Hmi Hn.
  pose proof (cycle_files _ _ _ _ _ Hcyc) as Hfiles.
  destruct (listing s) as [names|e] eqn:Hl.
  2:{ rewrite (cycle_listing_failed self s e Hl) in Hcyc.
      injection Hcyc as <- <- <-. simpl in Hci. by apply elem_of_nil in Hci. }
  destruct (cycle_spec self s names Hl)
    as (s1 & ev1 & l' & s2 & ev2 & Hc & Hrun & _ & _ & Hra2 & Hgm2 & Hrm2 & _).
  rewrite Hc in Hcyc. injection Hcyc as <- <- <-.
  rewrite Hmode in Hrm2.
  assert (Hg : get_matches (Listdir :: ev1 ++ ev2) = get_matches ev1).
  { change (Listdir :: ev1 ++ ev2) with ([Listdir] ++ ev1 ++ ev2).
    rewrite !get_matches_app, Hgm2. simpl. by rewrite app_nil_r. }
  assert (Ha : run_actions (Listdir :: ev1 ++ ev2) = run_actions ev1).
  { change (Listdir :: ev1 ++ ev2) with ([Listdir] ++ ev1 ++ ev2).
    rewrite !run_actions_app, Hra2. simpl. by rewrite app_nil_r. }
  assert (Hr : removes (Listdir :: ev1 ++ ev2) = removes ev1).
  { change (Listdir :: ev1 ++ ev2) with ([Listdir] ++ ev1 ++ ev2).
    rewrite !removes_app, Hrm2. simpl. by rewrite app_nil_r. }
  rewrite Hg, Ha, Hr in *.
  rewrite <- (matches_of_Ok _ _ _ Hmi) in Hn.
  destruct (triggers_run_first_wins _ _ _ _ _ _ _ _ Hmode Hrun i ti ci n)
    as (H1 & H2 & H3); [lia | by rewrite Nat.sub_0_r | done | done |].
  pose proof (triggers_run_single _ _ _ _ _ _ _ _ Hmode Hrun)
    as (_ & _ & _ & _ & Hnd & Hrm).
  split; [exact H1|]. split; [exact H2|].
  intros c Hc'. specialize (H3 c Hc').
  assert (Hin : path_of self n ∈ removes ev1).
  { rewrite Hrm. apply list_elem_of_fmap. exists n. split; [done|].
    unfold dispatched. apply list_elem_of_fmap. by exists (i, n, file_lines c). }
  split; [|split].
  - by apply (filter_key_singleton (fun x => x.1.2) _ (i, n, file_lines c)).
  - apply (filter_key_singleton id _ (path_of self n)); [|done].
    rewrite list_fmap_id, Hrm. apply NoDup_fmap_2_strong; [|done].
    intros x y _ _. apply path_of_inj.
  - intros Hcan. by rewrite Hfiles, bool_decide_eq_true_2, Hcan.
Qed.

(** ** Multi-match mode: every trigger sees the full set *)

(** In multi-match mode, when the listing succeeds, the trace of the
    cycle is the call of [os.listdir], then a part [pre] in which every
    trigger, in declared order, is asked about the full candidate set and
    nothing is removed, then a part [post] of removals only. Every name a
    trigger is returned among the candidates is dispatched by that trigger
    with the line list of its file, if the file can be read; its removal
    is attempted exactly once, in [post], after which the file is gone if
    [os.remove] can remove it. *)
Lemma multi_match_returned_names (self : WatchMan) (s : St)
    (names : list string) :
  canMatchMultiple self = true ->
  listing s = Ok names ->
  exists s' pre post,
    cycle self s = (s', Listdir :: pre ++ post, Ok true) /\
    get_matches pre
    = imap (fun k _ => (k, elements (candidates self s names))) (triggers self) /\
    removes pre = [] /\ run_actions post = [] /\ get_matches post = [] /\
    forall i ti mi n,
      triggers self !! i = Some ti ->
      getFilenameMatches ti (elements (candidates self s names)) = Ok mi ->
      n ∈ mi ->
      filter (fun p => p = path_of self n) (removes post) = [path_of self n] /\
      (forall c, readable s (path_of self n) = Some c ->
         (i, n, file_lines c) ∈ run_actions pre) /\
      (can_remove s (path_of self n) = true ->
       files s' !! path_of self n = None).
Proof.
  intros Hmode Hl.
  destruct (cycle_spec self s names Hl)
    as (s1 & ev1 & l' & s' & ev2 & Hc & Hrun & _ & _ & Hra2 & Hgm2 & Hrm2 & Hf2).
  pose proof (triggers_run_multi _ _ _ _ _ _ _ _ Hmode Hrun)
    as (_ & Hmt & Hgm & Hrm & Hf1 & Hd & _).
  simpl in *. rewrite Hmode in Hrm2.
  exists s', ev1, ev2. split; [done|]. split; [done|].
  split; [done|]. split; [done|]. split; [done|].
  intros i ti mi n Hti Hmi Hn.
  rewrite <- (matches_of_Ok _ _ _ Hmi) in Hn.
  assert (Hin : path_of self n ∈ removes ev2).
  { rewrite Hrm2. apply list_elem_of_fmap. exists n. split; [done|].
    apply elem_of_elements, Hmt. right. exists ti. split; [|done].
    by eapply list_elem_of_lookup_2. }
  split; [|split].
  - apply (filter_key_singleton id _ (path_of self n)); [|done].
    rewrite list_fmap_id, Hrm2. apply NoDup_fmap_2_strong; [|apply NoDup_elements].
    intros x y _ _. apply path_of_inj.
  - intros c Hc'. by apply (Hd i ti n c).
  - intros Hcan. rewrite Hf2, bool_decide_eq_true_2 by done.
    unfold can_remove in *. by rewrite Hf1, Hcan.
Qed.

(** ** A failing action *)



(** ** A file that cannot be read *)

(** Only files that could be read when the loop began are dispatched, in
    either mode. *)
Lemma triggers_run_dispatched_readable self i ts locals s s' evs locals' :
  triggers_run self i ts locals s s' evs locals' ->
  forall n, n ∈ dispatched evs -> is_Some (readable s (path_of self n)).
Proof.
  induction 1 as [|i t ts locals s s1 ev1 s' ev2 locals' Heff Hrun IH];
    intros n Hn; [by apply elem_of_nil in Hn|].
  destruct Heff as (keys & data & _ & _ & _ & Hkeys & _ & _ & Hra & _ & Hf & _).
  rewrite dispatched_app, (run_actions_dispatched i ev1 keys data Hra) in Hn.
  apply elem_of_app in Hn as [Hn|Hn]; [by apply Hkeys in Hn as [_ ?]|].
  apply IH in Hn as [c Hc]. unfold readable in *. rewrite Hf in Hc.
  destruct (_ && _); [done | by exists c].
Qed.

(** In single-match mode a matched file that cannot be read is skipped: no
    action is run for it, its removal is not attempted and it stays in the
    directory. *)
Lemma single_match_unreadable_skipped (self : WatchMan) (s s' : St)
    (evs : list Event) (r : Exc bool) (n : string) :
  canMatchMultiple self = false ->
  cycle self s = (s', evs, r) ->
  readable s (path_of self n) = None ->
  (n ∉ dispatched evs) /\ (path_of self n ∉ removes evs) /\
  files s' !! path_of self n = files s !! path_of self n.
Proof.
  intros Hmode Hcyc Hnone.
  pose proof (cycle_files _ _ _ _ _ Hcyc) as Hfiles.
  destruct (listing s) as [names|e] eqn:Hl.
  2:{ rewrite (cycle_listing_failed self s e Hl) in Hcyc.
      injection Hcyc as <- <- <-. split; [|split; [|done]]; apply not_elem_of_nil. }
  destruct (cycle_spec self s names Hl)
    as (s1 & ev1 & l' & s2 & ev2 & Hc & Hrun & _ & _ & Hra2 & _ & Hrm2 & _).
  rewrite Hc in Hcyc. injection Hcyc as <- <- <-. rewrite Hmode in Hrm2.
  pose proof (triggers_run_single _ _ _ _ _ _ _ _ Hmode Hrun)
    as (_ & _ & _ & _ & _ & Hrm).
  assert (Hd : dispatched (Listdir :: ev1 ++ ev2) = dispatched ev1).
  { change (Listdir :: ev1 ++ ev2) with ([Listdir] ++ ev1 ++ ev2).
    unfold dispatched. rewrite !run_actions_app, Hra2. simpl.
    by rewrite app_nil_r. }
  assert (Hr : removes (Listdir :: ev1 ++ ev2) = removes ev1).
  { change (Listdir :: ev1 ++ ev2) with ([Listdir] ++ ev1 ++ ev2).
    rewrite !removes_app, Hrm2. simpl. by rewrite app_nil_r. }
  rewrite Hd, Hr in *.
  assert (Hnd : n ∉ dispatched ev1).
  { intros Hin.
    apply (triggers_run_dispatched_readable _ _ _ _ _ _ _ _ Hrun) in Hin
      as [c Hc']. congruence. }
  assert (Hnr : path_of self n ∉ removes ev1).
  { rewrite Hrm. intros (m & ->%path_of_inj & Hm)%list_elem_of_fmap. done. }
  split; [done|]. split; [done|].
  by rewrite Hfiles, bool_decide_eq_false_2.
Qed.

(** C2 (the code departs from the claim in multi-match mode): with the
    two triggers of [test.py] in multi-match mode and a file [a1] that
    cannot be read, the cycle runs no action for [a1], as claimed, but it
    removes the file: [matchedThisIteration] receives the matches before
    they are read, and every name in it is removed at the end of the
    cycle. *)
Theorem multi_match_unreadable_file_removed :
  readable unreadable_dir "./testdir/a1" = None /\
  run_actions (cycle (watcher true) unreadable_dir).1.2 = [] /\
  removes (cycle (watcher true) unreadable_dir).1.2 = ["./testdir/a1"] /\
  files unreadable_dir !! "./testdir/a1"
    = Some {| contents := Raise IOError; removable := true |} /\
  files (cycle (watcher true) unreadable_dir).1.1 !! "./testdir/a1" = None.
Proof. repeat split; vm_compute; reflexivity. Qed.

(** ** Cancellation *)

Lemma unaware_ret {A} (a : A) : unaware (ret a).
Proof. by intros s. Qed.

Lemma unaware_raise {A} (e : exn) : unaware (@raise A e).
Proof. by intros s. Qed.

Lemma unaware_emit (e : Event) : unaware (emit e).
Proof. by intros s. Qed.

Lemma unaware_lift {A} (r : Exc A) : unaware (lift r).
Proof. by intros s. Qed.

Lemma unaware_bind {A B} (m : M A) (f : A -> M B) :
  unaware m -> (forall a, unaware (f a)) -> unaware (bindM m f).
Proof.
  intros Hm Hf s. unfold bindM. rewrite Hm.
  destruct (m s) as [[s1 ev1] [a|e]]; [|done].
  rewrite Hf. by destruct (f a s1) as [[s2 ev2] r].
Qed.

Lemma unaware_try {A} (m : M A) : unaware m -> unaware (try_ m).
Proof.
  intros Hm s. unfold try_. rewrite Hm. by destruct (m s) as [[s1 ev1] r].
Qed.

Lemma unaware_for {A} (l : list A) (body : A -> M unit) :
  (forall x, unaware (body x)) -> unaware (for_ l body).
Proof.
  intros Hb. induction l as [|x l IH]; simpl.
  - apply unaware_ret.
  - apply unaware_bind; [apply Hb | by intros _].
Qed.

Lemma unaware_foldM {A B} (body : B -> A -> M B) (l : list A) :
  (forall acc x, unaware (body acc x)) -> forall acc, unaware (foldM body acc l).
Proof.
  intros Hb. induction l as [|x l IH]; intros acc; simpl.
  - apply unaware_ret.
  - apply unaware_bind; [apply Hb | apply IH].
Qed.

Lemma unaware_getitem {V} (d : gmap string V) (k : string) :
  unaware (getitem d k).
Proof. unfold getitem. destruct (d !! k); [apply unaware_ret | apply unaware_raise]. Qed.

Lemma unaware_set_fullPath (p : string) : unaware (set_fullPath p).
Proof. by intros [f l fp [|]]. Qed.

Lemma unaware_get_fullPath : unaware get_fullPath.
Proof. by intros [f l [p|] [|]]. Qed.

Lemma unaware_read_file (p : string) : unaware (read_file p).
Proof. by intros [f l fp [|]]. Qed.

Lemma unaware_os_remove (p : string) : unaware (os_remove p).
Proof.
  intros [f l fp [|]]; unfold os_remove, die; simpl;
    (destruct (f !! p) as [x|]; [destruct (removable x)|]); reflexivity.
Qed.

Lemma unaware_try_remove (p : string) :
  unaware (set_fullPath p ;;;
           r <~ try_ (os_remove p) ;;
           match r with
           | Raise _ => emit (Stderr (RemoveFailed p))
           | Ok _ => ret tt
           end).
Proof.
  apply unaware_bind; [apply unaware_set_fullPath | intros _].
  apply unaware_bind; [apply unaware_try, unaware_os_remove | intros [|]].
  - apply unaware_ret.
  - apply unaware_emit.
Qed.

Lemma unaware_read_match dca nad n : unaware (read_match dca nad n).
Proof.
  unfold read_match. apply unaware_bind.
  - apply unaware_try, unaware_bind; [apply unaware_getitem | intros p].
    apply unaware_bind; [apply unaware_set_fullPath | intros _].
    apply unaware_read_file.
  - intros [c|e]; [apply unaware_ret|].
    apply unaware_bind; [apply unaware_get_fullPath | intros p].
    apply unaware_bind; [apply unaware_emit | intros _; apply unaware_ret].
Qed.

Lemma unaware_dispatch self i t dca nad n : unaware (dispatch self i t dca nad n).
Proof.
  unfold dispatch. apply unaware_bind; [apply unaware_getitem | intros d].
  apply unaware_bind; [apply unaware_emit | intros _].
  apply unaware_bind; [apply unaware_try, unaware_lift | intros r].
  apply unaware_bind.
  { destruct r; [apply unaware_ret | apply unaware_emit]. }
  intros _. destruct (canMatchMultiple self); [apply unaware_ret|].
  apply unaware_bind; [apply unaware_getitem | intros p].
  apply unaware_try_remove.
Qed.

Lemma unaware_remove_matched dca n : unaware (remove_matched dca n).
Proof.
  unfold remove_matched. apply unaware_bind; [apply unaware_getitem | intros p].
  apply unaware_try_remove.
Qed.

Lemma unaware_process_trigger self dca i t locals :
  unaware (process_trigger self dca i t locals).
Proof.
  unfold process_trigger. apply unaware_bind; [apply unaware_emit | intros _].
  apply unaware_bind; [apply unaware_try, unaware_lift | intros [ms|e]].
  - apply unaware_bind; [apply unaware_foldM, unaware_read_match | intros nad].
    apply unaware_bind; [|intros _; apply unaware_ret].
    apply unaware_for, unaware_dispatch.
  - apply unaware_bind; [apply unaware_emit | intros _; apply unaware_ret].
Qed.

Lemma unaware_for_triggers self dca ts :
  forall i locals, unaware (for_triggers self dca i ts locals).
Proof.
  induction ts as [|t ts IH]; intros i locals; simpl.
  - apply unaware_ret.
  - apply unaware_bind; [apply unaware_process_trigger | intros l1; apply IH].
Qed.

Lemma unaware_list_directory self : unaware (list_directory self).
Proof.
  unfold list_directory. apply unaware_bind.
  - by intros [f l fp [|]].
  - by intros names [f l fp [|]].
Qed.

Lemma unaware_cycle self : unaware (cycle self).
Proof.
  unfold cycle.
  apply unaware_bind; [apply unaware_try, unaware_list_directory | intros [D|e]].
  - apply unaware_bind; [|intros _; apply unaware_ret].
    unfold scan_and_dispatch.
    apply unaware_bind; [apply unaware_for_triggers | intros locals].
    destruct (canMatchMultiple self); [|apply unaware_ret].
    apply unaware_for, unaware_remove_matched.
  - apply unaware_bind; [apply unaware_emit | intros _].
    apply unaware_bind; [apply unaware_emit | intros _; apply unaware_ret].
Qed.

Lemma keepGoing_die (s : St) : keepGoing (die s) = false.
Proof. by destruct s as [f l fp [|]]. Qed.

Lemma die_die (s : St) : die (die s) = die s.
Proof. unfold die at 1. by rewrite keepGoing_die. Qed.

(** Once cancellation was requested, the [while] of [run] is left at its
    next test, without another cycle. *)
Lemma run_cancelled (fuel : nat) (self : WatchMan) (s : St) :
  run (S fuel) self (die s) = (die s, [], Ok Exited).
Proof.
  simpl. unfold bindM, get_keepGoing. rewrite keepGoing_die. simpl.
  by rewrite die_die.
Qed.

(** C9: a cancellation request (a call of [die], which the signal handler
    makes between two statements of [run]) is not looked at inside a
    cycle: requested before the cycle, before any trigger, before the
    reading or the dispatch of any file, or before the deferred removals,
    it changes neither the calls made nor their results, and the cycle
    ends without an exception. Requested during a sub-sleep, it is seen
    at the check that follows and [run] leaves its loop with no further
    sleep and no further cycle; requested after that check, it is seen
    after one more sub-sleep at most. *)
Theorem cancellation_only_between_sub_sleeps (self : WatchMan) :
  (forall s, exists s' evs b, cycle self s = (s', evs, Ok b)) /\
  unaware (cycle self) /\
  (forall dca i t locals, unaware (process_trigger self dca i t locals)) /\
  (forall dca nad n, unaware (read_match dca nad n)) /\
  (forall i t dca nad n, unaware (dispatch self i t dca nad n)) /\
  (forall dca n, unaware (remove_matched dca n)) /\
  (forall fuel timeSlept s,
     resume_at_stop_check (S fuel) self timeSlept (die s)
     = (die s, [], Ok Exited)) /\
  (forall fuel timeSlept s,
     resume_at_sleep_test (S fuel) self timeSlept (die s)
     = (die s,
        if Qltb timeSlept (pollTime self)
        then [Sleep (stopCheckInterval self)] else [],
        Ok Exited)) /\
  (forall fuel fuel' s,
     iteration (S fuel) self (run (S fuel') self) (die s)
     = let '(s', evs, r) := cycle self s in
       (die s',
        evs ++ match r with
               | Ok true =>
                   if Qltb 0 (pollTime self)
                   then [Sleep (stopCheckInterval self)] else []
               | _ => []
               end,
        match r with
        | Ok _ => Ok Exited
        | Raise e => Raise e
        end)).
Proof.
  split; [apply cycle_no_raise|].
  split; [apply unaware_cycle|].
  split; [apply unaware_process_trigger|].
  split; [apply unaware_read_match|].
  split; [apply unaware_dispatch|].
  split; [apply unaware_remove_matched|].
  split; [|split].
  - intros fuel ts s. unfold resume_at_stop_check, stop_check.
    unfold bindM at 1. unfold bindM at 1. unfold get_keepGoing at 1.
    rewrite keepGoing_die. cbn [negb ret].
    by rewrite run_cancelled.
  - intros fuel ts s. unfold resume_at_sleep_test.
    unfold bindM at 1. cbn [sleep_loop].
    destruct (Qltb ts (pollTime self)).
    + unfold bindM at 1. unfold emit at 1. unfold bindM at 1.
      unfold get_keepGoing at 1. rewrite keepGoing_die. cbn [negb ret].
      by rewrite run_cancelled.
    + cbn [ret]. by rewrite run_cancelled.
  - intros fuel fuel' s. unfold iteration.
    unfold bindM at 1. rewrite unaware_cycle.
    destruct (cycle self s) as [[s1 ev1] [[|]|e]].
    + unfold bindM at 1. cbn [sleep_loop].
      destruct (Qltb 0 (pollTime self)).
      * unfold bindM at 1. unfold emit at 1. unfold bindM at 1.
        unfold get_keepGoing at 1. rewrite keepGoing_die. cbn [negb ret].
        by rewrite run_cancelled.
      * cbn [ret]. by rewrite run_cancelled.
    + by rewrite run_cancelled.
    + by rewrite app_nil_r.
Qed.

(** * Further properties of the code *)

(** ** Construction of a trigger *)

Lemma str_contains_app (c : ascii) (s t : string) :
  str_contains c (s +:+ t) = str_contains c s || str_contains c t.
Proof.
  induction s as [|a s IH]; simpl; [done|]. rewrite IH. by rewrite orb_assoc.
Qed.

Lemma dots_no_slash (n : nat) : str_contains "/" (dots n) = false.
Proof. induction n as [|n IH]; simpl; [done | exact IH]. Qed.

Lemma slash_not_all_dots (s : string) :
  str_contains "/" s = true -> Re.match_ allDotsRE s = false.
Proof.
  intros Hs. destruct (Re.match_ allDotsRE s) eqn:Hm; [|done].
  apply allDotsRE_match in Hm as (n & [-> | ->]).
  - by rewrite dots_no_slash in Hs.
  - rewrite str_contains_app, dots_no_slash in Hs. discriminate.
Qed.

Lemma dots_all_dots (n : nat) : Re.match_ allDotsRE (dots (S n)) = true.
Proof. apply allDotsRE_match. exists n. by left. Qed.

(** The validation of a string by the class [c], in terms of the three
    tests of the generic validation. *)
Lemma validatePattern_str (c : cls) (s : string) :
  Trigger_validatePattern c (PyStr s)
  = if String.eqb s "" then Raise (ValueError EmptyString_)
    else if Re.match_ allDotsRE s then Raise (ValueError AllDots)
    else if str_contains "/" s then Raise (ValueError BadSlash)
    else Ok tt.
Proof.
  unfold Trigger_validatePattern, _genericValidatePattern.
  assert (Ht : existsb (pytype_eqb (type_ (PyStr s))) (_getValidTypes c) = true)
    by (by destruct c).
  rewrite Ht. simpl. destruct (String.eqb s ""); [done|]. simpl.
  destruct (Re.match_ allDotsRE s); [done|]. simpl.
  by destruct (str_contains "/" s).
Qed.

(** X1: every trigger class refuses, at construction and whatever the
    action argument is, a pattern that is not a string (here [None]), the
    empty string, a string of dots, and a string with a '/' in it, each with
    the error of its own. *)
Theorem construction_rejects_bad_patterns (c : cls) (action : pyaction) :
  Trigger__init__ c PyNone action = Raise (ValueError BadType) /\
  Trigger__init__ c (PyStr "") action = Raise (ValueError EmptyString_) /\
  (forall n, Trigger__init__ c (PyStr (dots (S n))) action
             = Raise (ValueError AllDots)) /\
  (forall s, str_contains "/" s = true ->
             Trigger__init__ c (PyStr s) action = Raise (ValueError BadSlash)).
Proof.
  split; [by destruct c|]. split; [by destruct c|]. split.
  - intros n. unfold Trigger__init__.
    assert (H : _validatePattern c (PyStr (dots (S n))) = Raise (ValueError AllDots)).
    { assert (Hv : Trigger_validatePattern c (PyStr (dots (S n)))
                   = Raise (ValueError AllDots)).
      { rewrite validatePattern_str, dots_all_dots. reflexivity. }
      assert (Hv' : Trigger_validatePattern Trigger (PyStr (dots (S n)))
                    = Raise (ValueError AllDots)).
      { rewrite validatePattern_str, dots_all_dots. reflexivity. }
      destruct c; unfold _validatePattern; try exact Hv. by rewrite Hv'. }
    by rewrite H.
  - intros s Hs. unfold Trigger__init__.
    assert (Hne : String.eqb s "" = false) by (by destruct s).
    assert (H : _validatePattern c (PyStr s) = Raise (ValueError BadSlash)).
    { assert (Hv : forall c', Trigger_validatePattern c' (PyStr s)
                              = Raise (ValueError BadSlash)).
      { intros c'. by rewrite validatePattern_str, Hne, slash_not_all_dots, Hs. }
      destruct c; unfold _validatePattern; try apply Hv. by rewrite Hv. }
    by rewrite H.
Qed.

(** X2: the validation of a class raises the all-dots error for exactly the
    strings made of one or more dots, and those followed by one final
    newline (which the [$] of [allDotsRE] lets pass). *)
Theorem all_dots_rejected_exactly (c : cls) (s : string) :
  _validatePattern c (PyStr s) = Raise (ValueError AllDots) <->
  exists n, s = dots (S n) \/ s = dots (S n) +:+ String nl "".
Proof.
  rewrite <- allDotsRE_match.
  assert (Hv : forall c', Trigger_validatePattern c' (PyStr s)
                          = Raise (ValueError AllDots)
                          <-> Re.match_ allDotsRE s = true).
  { intros c'. rewrite validatePattern_str.
    destruct (String.eqb_spec s "") as [->|Hne]; [done|].
    destruct (Re.match_ allDotsRE s); [done|].
    by destruct (str_contains "/" s). }
  destruct c; unfold _validatePattern; try apply Hv.
  rewrite <- (Hv Trigger).
  destruct (Trigger_validatePattern Trigger (PyStr s)) as [[]|e]; simpl; [|done].
  by destruct (Re.match_ validGlobRE s).
Qed.

(** X3: with an action, the classes [Trigger], [TriggerExactMatch] and
    [TriggerCaseInsensitiveMatch] accept a string exactly when it is not
    empty, not rejected as all dots and free of '/'; the first two store it
    as it is, the third stores it lower-cased. No class accepts a string
    that fails one of the three tests. *)
Theorem construction_accepts (s : string) (a : Action) :
  let good := negb (String.eqb s "") && negb (Re.match_ allDotsRE s)
              && negb (str_contains "/" s) in
  (good = true ->
   Trigger__init__ Trigger (PyStr s) (AnAction a)
   = Ok {| t_cls := Trigger; t_pattern := PyStr s; t_action := a |} /\
   Trigger__init__ TriggerExactMatch (PyStr s) (AnAction a)
   = Ok {| t_cls := TriggerExactMatch; t_pattern := PyStr s; t_action := a |} /\
   Trigger__init__ TriggerCaseInsensitiveMatch (PyStr s) (AnAction a)
   = Ok {| t_cls := TriggerCaseInsensitiveMatch;
           t_pattern := PyStr (lower s); t_action := a |}) /\
  (good = false ->
   forall c action, is_Ok (Trigger__init__ c (PyStr s) action) = false).
Proof.
  intros good. subst good. split.
  - intros Hg.
    assert (Hv : forall c', Trigger_validatePattern c' (PyStr s) = Ok tt).
    { intros c'. rewrite validatePattern_str.
      destruct (String.eqb s ""); [done|].
      destruct (Re.match_ allDotsRE s); [done|].
      by destruct (str_contains "/" s). }
    unfold Trigger__init__, _validatePattern. rewrite !Hv. by repeat split.
  - intros Hg c action.
    assert (Hv : forall c', is_Ok (Trigger_validatePattern c' (PyStr s)) = false).
    { intros c'. rewrite validatePattern_str.
      destruct (String.eqb s ""); [done|].
      destruct (Re.match_ allDotsRE s); [done|].
      by destruct (str_contains "/" s). }
    unfold Trigger__init__.
    assert (H : is_Ok (_validatePattern c (PyStr s)) = false).
    { destruct c; unfold _validatePattern; try apply Hv.
      specialize (Hv Trigger).
      by destruct (Trigger_validatePattern Trigger (PyStr s)). }
    by destruct (_validatePattern c (PyStr s)).
Qed.

(** X4: whatever the class, a trigger constructed from the string [s]
    reports by [getPatternStr] the string it was given, except that the
    case-insensitive class reports it lower-cased; the trigger has the class
    asked for and the action passed. *)
Theorem getPatternStr_of_constructed (c : cls) (s : string)
    (action : pyaction) (t : TriggerObj) :
  Trigger__init__ c (PyStr s) action = Ok t ->
  t_cls t = c /\ action = AnAction (t_action t) /\
  getPatternStr t
  = PyStr match c with
          | TriggerCaseInsensitiveMatch => lower s
          | _ => s
          end.
Proof.
  unfold Trigger__init__.
  destruct (_validatePattern c (PyStr s)) as [[]|e]; [|discriminate].
  unfold bind at 1.
  destruct c; simpl; unfold re_compile;
    try (destruct (re_parse s) as [prog|e]; simpl; [|discriminate]);
    destruct action as [a|]; try discriminate; intros [= <-]; done.
Qed.

(** X5: without an action object no trigger is constructed, whatever the
    class and the pattern; and a pattern that an action would have made a
    trigger of raises the error about the action. *)
Theorem construction_needs_action (c : cls) (pattern : pyobj) :
  is_Ok (Trigger__init__ c pattern NotAnAction) = false /\
  forall a t,
    Trigger__init__ c pattern (AnAction a) = Ok t ->
    Trigger__init__ c pattern NotAnAction = Raise (ValueError NotAnActionObj).
Proof.
  unfold Trigger__init__. split.
  - destruct (_validatePattern c pattern) as [[]|e]; [|done]. simpl.
    by destruct (_processPattern c pattern).
  - intros a t.
    destruct (_validatePattern c pattern) as [[]|e]; [|discriminate]. simpl.
    by destruct (_processPattern c pattern).
Qed.

(** ** Matching *)

(** X6: an exact trigger for [s] never raises and returns [s] alone when
    [s] is among the names it is given, nothing otherwise; a name that is
    not [s] itself is never returned. *)
Theorem exact_match_only_the_pattern (s : string) (a : Action)
    (names : list string) :
  exists ms,
    getFilenameMatches
      {| t_cls := TriggerExactMatch; t_pattern := PyStr s; t_action := a |} names
    = Ok ms /\
    (s ∈ names -> ms = [s]) /\ (s ∉ names -> ms = []).
Proof.
  unfold getFilenameMatches. simpl.
  destruct (existsb (String.eqb s) names) eqn:He; eexists; (split; [reflexivity|]).
  - split; [done|]. intros Hn. exfalso. apply Hn.
    apply existsb_exists in He as (x & Hx & ->%String.eqb_eq).
    by apply list_elem_of_In.
  - split; [|done]. intros Hin%list_elem_of_In. exfalso.
    assert (existsb (String.eqb s) names = true); [|congruence].
    apply existsb_exists. exists s. split; [done | apply String.eqb_refl].
Qed.

Lemma first_lower_equal_spec (pattern : string) (items : list string) :
  (forall n, n ∈ first_lower_equal pattern items -> lower n = pattern) /\
  (first_lower_equal pattern items = [] <->
   forall n, n ∈ items -> lower n <> pattern).
Proof.
  induction items as [|x items [IH1 IH2]]; simpl.
  - split; [intros n H; by apply elem_of_nil in H|].
    split; [intros _ n H; by apply elem_of_nil in H | done].
  - destruct (String.eqb_spec (lower x) pattern) as [He|Hne].
    + split; [by intros n ->%list_elem_of_singleton|].
      split; [done|]. intros H. exfalso. apply (H x); [left | done].
    + split; [exact IH1|]. rewrite IH2. split.
      * intros H n [->|Hn]%elem_of_cons; [done | by apply H].
      * intros H n Hn. apply H. by right.
Qed.

(** X7: a case-insensitive trigger constructed from [s] never raises; what
    it returns is among the names it is given and equal to [s] up to case;
    and it returns nothing only when no name is equal to [s] up to case. *)
Theorem case_insensitive_match_sound (s : string) (a : Action)
    (names : list string) :
  exists ms,
    getFilenameMatches
      {| t_cls := TriggerCaseInsensitiveMatch; t_pattern := PyStr (lower s);
         t_action := a |} names
    = Ok ms /\
    (forall n, n ∈ ms -> n ∈ names /\ lower n = lower s) /\
    (ms = [] <-> forall n, n ∈ names -> lower n <> lower s).
Proof.
  exists (first_lower_equal (lower s) names). split; [reflexivity|].
  destruct (first_lower_equal_spec (lower s) names) as [H1 H2].
  split; [|exact H2]. intros n Hn. split; [|by apply H1].
  by apply (first_lower_equal_sub (lower s)).
Qed.

(** ** The constructor of WatchMan, continued *)

Lemma Qltb_lt (a b : Q) : Qltb a b = true <-> (a < b)%Q.
Proof.
  unfold Qltb. rewrite negb_true_iff. split.
  - intros H. apply Qnot_le_lt. intros Hle. apply Qle_bool_iff in Hle. congruence.
  - intros H. destruct (Qle_bool b a) eqn:Hb; [|done].
    apply Qle_bool_iff in Hb. by apply Qlt_not_le in H.
Qed.

Lemma Qltb_ge (a b : Q) : Qltb a b = false <-> (b <= a)%Q.
Proof.
  unfold Qltb. rewrite negb_false_iff. apply Qle_bool_iff.
Qed.

(** X8: on a constructed [WatchMan] none of the three tests of lines 72
    to 77 holds any more: the stop-check interval is not below
    [SMALL_NUMBER], the poll time is not below [SMALL_NUMBER] and not
    below the stop-check interval (stated with the [<] of the source, so
    that nothing is said of values that do not compare). The interval is
    the one given, the poll time is the one given unless that was below
    the interval, in which case it is the interval and the warning was
    written. *)
Theorem init_intervals (rootDir0 : string) (triggers0 : list pytrigger)
    (multi : bool) (pollTime0 stopCheckInterval0 : Q)
    (self : WatchMan) (warned : bool) :
  WatchMan__init__ rootDir0 triggers0 multi pollTime0 stopCheckInterval0
    = Ok (self, warned) ->
  ~ (stopCheckInterval self < SMALL_NUMBER)%Q /\
  ~ (pollTime self < SMALL_NUMBER)%Q /\
  ~ (pollTime self < stopCheckInterval self)%Q /\
  stopCheckInterval self = stopCheckInterval0 /\
  pollTime self = (if warned then stopCheckInterval0 else pollTime0) /\
  (warned = true <-> (pollTime0 < stopCheckInterval0)%Q).
Proof.
  unfold WatchMan__init__. intros H.
  destruct (check_triggers 0 triggers0) as [ts|]; simpl in H; [|discriminate].
  destruct (isdir _); simpl in H; [|discriminate].
  destruct (Qltb stopCheckInterval0 SMALL_NUMBER) eqn:Hs; [discriminate|].
  destruct (Qltb pollTime0 SMALL_NUMBER) eqn:Hp; [discriminate|].
  injection H as <- <-. simpl.
  apply Qltb_ge in Hs. apply Qltb_ge in Hp.
  split; [by apply Qle_not_lt|].
  split; [|split; [|split; [done|split; [done|]]]].
  - destruct (Qltb pollTime0 stopCheckInterval0); by apply Qle_not_lt.
  - destruct (Qltb pollTime0 stopCheckInterval0) eqn:Hw.
    + apply Qlt_irrefl.
    + by apply Qle_not_lt, Qltb_ge.
  - apply Qltb_lt.
Qed.

Lemma check_triggers_first_bad (l : list pytrigger) :
  forall k i,
    l !! i = Some NotTrigger ->
    (forall j, j < i -> exists t, l !! j = Some (ATrigger t)) ->
    check_triggers k l = Raise (ValueError (NotATrigger (k + i))).
Proof.
  induction l as [|x l IH]; intros k i Hi Hbefore; [done|].
  destruct i as [|i].
  - injection Hi as ->. simpl. by rewrite Nat.add_0_r.
  - destruct (Hbefore 0 ltac:(lia)) as [t [= ->]]. simpl.
    rewrite (IH (S k) i); [simpl; f_equal; f_equal; f_equal; lia | done |].
    intros j Hj. apply (Hbefore (S j)). lia.
Qed.

Lemma check_triggers_Ok (l : list pytrigger) (ts : list TriggerObj) :
  forall k, check_triggers k l = Ok ts -> l = ATrigger <$> ts.
Proof.
  revert ts. induction l as [|x l IH]; intros ts k; simpl.
  - by intros [= <-].
  - destruct x as [t|]; [|discriminate].
    destruct (check_triggers (S k) l) as [ts'|] eqn:Hc; simpl; [|discriminate].
    intros [= <-]. simpl. f_equal. by apply (IH ts' (S k)).
Qed.

(** X9: when the [triggers] argument holds something that is not a trigger,
    construction raises the error that names the position of the first such
    element, whatever the other arguments are (the directory is not looked
    at). *)
Theorem init_first_non_trigger (rootDir0 : string) (triggers0 : list pytrigger)
    (multi : bool) (pollTime0 stopCheckInterval0 : Q) (i : nat) :
  triggers0 !! i = Some NotTrigger ->
  (forall j, j < i -> exists t, triggers0 !! j = Some (ATrigger t)) ->
  WatchMan__init__ rootDir0 triggers0 multi pollTime0 stopCheckInterval0
  = Raise (ValueError (NotATrigger i)).
Proof.
  intros Hi Hbefore. unfold WatchMan__init__.
  by rewrite (check_triggers_first_bad triggers0 0 i Hi Hbefore).
Qed.

(** X10: a constructed [WatchMan] holds the triggers it was given, in the
    order given, and the mode it was given, and its [rootDir] was a
    directory when it was constructed. *)
Theorem init_stores_arguments (rootDir0 : string) (triggers0 : list pytrigger)
    (multi : bool) (pollTime0 stopCheckInterval0 : Q)
    (self : WatchMan) (warned : bool) :
  WatchMan__init__ rootDir0 triggers0 multi pollTime0 stopCheckInterval0
    = Ok (self, warned) ->
  triggers0 = ATrigger <$> triggers self /\
  canMatchMultiple self = multi /\
  isdir (rootDir self) = true.
Proof.
  unfold WatchMan__init__. intros H.
  destruct (check_triggers 0 triggers0) as [ts|] eqn:Hc; simpl in H; [|discriminate].
  destruct (isdir _) eqn:Hd; simpl in H; [|discriminate].
  destruct (Qltb stopCheckInterval0 SMALL_NUMBER); [discriminate|].
  destruct (Qltb pollTime0 SMALL_NUMBER); [discriminate|].
  injection H as <- _. simpl. split; [|done].
  by apply (check_triggers_Ok _ _ 0).
Qed.

(** ** What every execution of [run] respects *)

Section Respects.

Variable Q : St -> St -> list Event -> Prop.
Hypothesis Q_nil : forall s, Q s s [].
Hypothesis Q_app : forall s s1 s2 ev1 ev2,
  Q s s1 ev1 -> Q s1 s2 ev2 -> Q s s2 (ev1 ++ ev2).

Lemma respects_ret {A} (a : A) : respects Q (ret a).
Proof using Q_nil. intros s s' evs r [= <- <- _]. apply Q_nil. Qed.

Lemma respects_raise {A} (e : exn) : respects Q (@raise A e).
Proof using Q_nil. intros s s' evs r [= <- <- _]. apply Q_nil. Qed.

Lemma respects_lift {A} (x : Exc A) : respects Q (lift x).
Proof using Q_nil. intros s s' evs r [= <- <- _]. apply Q_nil. Qed.

Lemma respects_bind {A B} (m : M A) (f : A -> M B) :
  respects Q m -> (forall a, respects Q (f a)) -> respects Q (bindM m f).
Proof using Q_app.
  intros Hm Hf s s' evs r. unfold bindM.
  destruct (m s) as [[s1 ev1] [a|e]] eqn:Hms.
  - destruct (f a s1) as [[s2 ev2] r2] eqn:Hfs. intros [= <- <- <-].
    eapply Q_app; [by eapply Hm | by eapply Hf].
  - intros [= <- <- <-]. by eapply Hm.
Qed.

Lemma respects_try {A} (m : M A) : respects Q m -> respects Q (try_ m).
Proof using Type.
  intros Hm s s' evs r. unfold try_.
  destruct (m s) as [[s1 ev1] r1] eqn:Hms. intros [= <- <- <-]. by eapply Hm.
Qed.

Lemma respects_for {A} (l : list A) (body : A -> M unit) :
  (forall x, respects Q (body x)) -> respects Q (for_ l body).
Proof using Q_nil Q_app.
  intros Hb. induction l as [|x l IH]; simpl.
  - apply respects_ret.
  - apply respects_bind; [apply Hb | by intros _].
Qed.

Lemma respects_foldM {A B} (body : B -> A -> M B) (l : list A) :
  (forall acc x, respects Q (body acc x)) ->
  forall acc, respects Q (foldM body acc l).
Proof using Q_nil Q_app.
  intros Hb. induction l as [|x l IH]; intros acc; simpl.
  - apply respects_ret.
  - apply respects_bind; [apply Hb | apply IH].
Qed.

Lemma respects_getitem {V} (d : gmap string V) (k : string) :
  respects Q (getitem d k).
Proof using Q_nil.
  unfold getitem. destruct (d !! k); [apply respects_ret | apply respects_raise].
Qed.

Lemma respects_sleep_loop (self : WatchMan) :
  (forall d s, Q s s [Sleep d]) ->
  forall fuel timeSlept, respects Q (sleep_loop fuel self timeSlept).
Proof using Q_nil Q_app.
  intros Hs. induction fuel as [|fuel IH]; intros ts; simpl;
    [by apply respects_ret|].
  destruct (Qltb ts (pollTime self)); [|by apply respects_ret].
  apply respects_bind.
  { intros s s' evs r [= <- <- _]. apply Hs. }
  intros _. apply respects_bind.
  { intros s s' evs r [= <- <- _]. apply Q_nil. }
  intros kg. destruct kg; simpl; [apply IH | by apply respects_ret].
Qed.

(** What every cycle, every sub-sleep and the final [die] respect, every
    bounded execution of [run] respects. *)
Lemma respects_run (self : WatchMan) :
  (forall d s, Q s s [Sleep d]) -> (forall s, Q s (die s) []) ->
  respects Q (cycle self) ->
  forall fuel, respects Q (run fuel self).
Proof using Q_nil Q_app.
  intros Hs Hd Hc. induction fuel as [|fuel IH]; simpl;
    [by apply respects_ret|].
  apply respects_bind.
  { intros s s' evs r [= <- <- _]. apply Q_nil. }
  intros kg. destruct kg.
  - unfold iteration. apply respects_bind; [exact Hc|].
    intros completed. destruct completed; [|exact IH].
    apply respects_bind; [by apply respects_sleep_loop|].
    intros left. destruct left; [exact IH | by apply respects_ret].
  - apply respects_bind; [|intros _; by apply respects_ret].
    intros s s' evs r [= <- <- _]. apply Hd.
Qed.

End Respects.

Lemma opens_app (a b : list Event) : opens (a ++ b) = opens a ++ opens b.
Proof. apply omap_app. Qed.

Lemma accounted_nil (s : St) : accounted s s [].
Proof.
  split; [done|]. split; [done|].
  split; intros p H; by apply elem_of_nil in H.
Qed.

Lemma accounted_app (s s1 s2 : St) (ev1 ev2 : list Event) :
  accounted s s1 ev1 -> accounted s1 s2 ev2 -> accounted s s2 (ev1 ++ ev2).
Proof.
  intros (Hl1 & Hf1 & Hr1 & Ho1) (Hl2 & Hf2 & Hr2 & Ho2).
  split; [congruence|]. split; [by intros q f H%Hf2%Hf1|]. split.
  - intros p. rewrite removes_app, stderr_app.
    intros [Hp|Hp]%elem_of_app.
    + destruct (Hr1 p Hp) as [Hn|Hs].
      * left. destruct (files s2 !! p) as [f|] eqn:Hq; [|done].
        apply Hf2 in Hq. congruence.
      * right. apply elem_of_app. by left.
    + destruct (Hr2 p Hp) as [Hn|Hs]; [by left|].
      right. apply elem_of_app. by right.
  - intros p. rewrite opens_app, stderr_app.
    intros [Hp|Hp]%elem_of_app.
    + destruct (Ho1 p Hp) as [Hn|Hs]; [by left|].
      right. apply elem_of_app. by left.
    + destruct (Ho2 p Hp) as [[c Hc]|Hs].
      * left. exists c. unfold readable in *.
        destruct (files s1 !! p) as [f|] eqn:Hq; [|done].
        apply Hf1 in Hq. by rewrite Hq.
      * right. apply elem_of_app. by right.
Qed.

(** A statement that leaves the files and the listing alone and neither
    opens nor removes anything is accounted for. *)
Lemma accounted_quiet (s s' : St) (evs : list Event) :
  files s' = files s -> listing s' = listing s ->
  removes evs = [] -> opens evs = [] -> accounted s s' evs.
Proof.
  intros Hf Hl Hr Ho. split; [done|]. split; [by rewrite Hf|].
  rewrite Hr, Ho. split; intros p H; by apply elem_of_nil in H.
Qed.

Lemma accounted_emit (e : Event) :
  removes [e] = [] -> opens [e] = [] -> respects accounted (emit e).
Proof. intros Hr Ho s s' evs r [= <- <- _]. by apply accounted_quiet. Qed.

Lemma accounted_try_remove (p : string) :
  respects accounted
    (set_fullPath p ;;;
     r <~ try_ (os_remove p) ;;
     match r with
     | Raise _ => emit (Stderr (RemoveFailed p))
     | Ok _ => ret tt
     end).
Proof.
  intros s s' evs r. unfold bindM, try_, set_fullPath, os_remove. simpl.
  destruct (files s !! p) as [f|] eqn:Hp; simpl.
  - destruct (removable f); simpl; intros [= <- <- _].
    + split; [done|]. simpl. split.
      * intros q g Hq. apply lookup_delete_Some in Hq as [_ Hq]. done.
      * split; [|intros q H; by apply elem_of_nil in H].
        intros q ->%list_elem_of_singleton. left. apply lookup_delete_eq.
    + split; [done|]. split; [done|].
      split; [|intros q H; by apply elem_of_nil in H].
      intros q ->%list_elem_of_singleton. right. left.
  - intros [= <- <- _]. split; [done|]. split; [done|].
    split; [|intros q H; by apply elem_of_nil in H].
    intros q ->%list_elem_of_singleton. right. left.
Qed.

Lemma accounted_read_match dca nad n : respects accounted (read_match dca nad n).
Proof.
  intros s s' evs r.
  unfold read_match, bindM, try_, getitem, read_file, set_fullPath, get_fullPath.
  destruct (dca !! n) as [p|]; simpl.
  - unfold readable. destruct (files s !! p) as [f|] eqn:Hp; simpl.
    + destruct (contents f) as [c|e] eqn:Hc; simpl; intros [= <- <- _].
      * split; [done|]. split; [done|].
        split; [intros q H; by apply elem_of_nil in H|].
        intros q ->%list_elem_of_singleton. left. unfold readable. rewrite Hp, Hc. by eexists.
      * split; [done|]. split; [done|].
        split; [intros q H; by apply elem_of_nil in H|].
        intros q ->%list_elem_of_singleton. right. left.
    + intros [= <- <- _]. split; [done|]. split; [done|].
      split; [intros q H; by apply elem_of_nil in H|].
      intros q ->%list_elem_of_singleton. right. left.
  - unfold get_fullPath. destruct (fullPath s); simpl; intros [= <- <- _];
      by apply accounted_quiet.
Qed.

Lemma accounted_dispatch self i t dca nad n :
  respects accounted (dispatch self i t dca nad n).
Proof.
  pose proof accounted_nil as Hn. pose proof accounted_app as Ha.
  unfold dispatch.
  apply respects_bind; [done | by apply respects_getitem | intros d].
  apply respects_bind; [done | by apply accounted_emit | intros _].
  apply respects_bind; [done | by apply respects_try, respects_lift | intros r].
  apply respects_bind; [done | | intros _].
  { destruct r; [by apply respects_ret | by apply accounted_emit]. }
  destruct (canMatchMultiple self); [by apply respects_ret|].
  apply respects_bind; [done | by apply respects_getitem | intros p].
  apply accounted_try_remove.
Qed.

Lemma accounted_remove_matched dca n : respects accounted (remove_matched dca n).
Proof.
  unfold remove_matched.
  apply respects_bind; [apply accounted_app | | intros p].
  - apply respects_getitem, accounted_nil.
  - apply accounted_try_remove.
Qed.

Lemma accounted_process_trigger self dca i t locals :
  respects accounted (process_trigger self dca i t locals).
Proof.
  pose proof accounted_nil as Hn. pose proof accounted_app as Ha.
  unfold process_trigger.
  apply respects_bind; [done | by apply accounted_emit | intros _].
  apply respects_bind; [done | by apply respects_try, respects_lift | intros [ms|e]].
  - apply respects_bind; [done | | intros nad].
    { apply respects_foldM; [done | done | apply accounted_read_match]. }
    apply respects_bind; [done | | intros _; by apply respects_ret].
    apply respects_for; [done | done | apply accounted_dispatch].
  - apply respects_bind; [done | by apply accounted_emit | intros _].
    by apply respects_ret.
Qed.

Lemma accounted_for_triggers self dca ts :
  forall i locals, respects accounted (for_triggers self dca i ts locals).
Proof.
  induction ts as [|t ts IH]; intros i locals; simpl.
  - apply respects_ret, accounted_nil.
  - apply respects_bind; [apply accounted_app | | intros l1; apply IH].
    apply accounted_process_trigger.
Qed.

Lemma accounted_cycle self : respects accounted (cycle self).
Proof.
  pose proof accounted_nil as Hn. pose proof accounted_app as Ha.
  unfold cycle. apply respects_bind; [done | | intros [D|e]].
  - apply respects_try. unfold list_directory.
    apply respects_bind; [done | | ].
    + intros s s' evs r [= <- <- _]. by apply accounted_quiet.
    + intros names s s' evs r [= <- <- _]. apply accounted_nil.
  - apply respects_bind; [done | | intros _; by apply respects_ret].
    unfold scan_and_dispatch.
    apply respects_bind; [done | apply accounted_for_triggers | intros locals].
    destruct (canMatchMultiple self); [|by apply respects_ret].
    apply respects_for; [done | done | apply accounted_remove_matched].
  - apply respects_bind; [done | by apply accounted_emit | intros _].
    apply respects_bind; [done | by apply accounted_emit | intros _].
    by apply respects_ret.
Qed.

Lemma accounted_run self fuel : respects accounted (run fuel self).
Proof.
  apply respects_run.
  - apply accounted_nil.
  - apply accounted_app.
  - intros d s. by apply accounted_quiet.
  - intros s. apply accounted_quiet; try done; by destruct s as [f l fp [|]].
  - apply accounted_cycle.
Qed.


(** ** The loop of [run] *)

Lemma cycle_world (self : WatchMan) (s s' : St) (evs : list Event) (r : Exc bool) :
  cycle self s = (s', evs, r) ->
  listing s' = listing s /\ keepGoing s' = keepGoing s.
Proof.
  destruct (listing s) as [names|e] eqn:Hl.
  - destruct (cycle_spec self s names Hl)
      as (s1 & ev1 & l' & s2 & ev2 & Hc & Hrun & Hl2 & Hk2 & _).
    rewrite Hc. intros [= <- <- <-].
    destruct (triggers_run_world _ _ _ _ _ _ _ _ Hrun) as [Hl1 Hk1].
    split; congruence.
  - rewrite (cycle_listing_failed self s e Hl). by intros [= <- <- <-].
Qed.

(** While no cancellation is requested the sleep loop changes nothing and
    only sleeps; it is left by its own test, or the bound is reached. *)
Lemma sleep_loop_running (self : WatchMan) (s : St) (fuel : nat) :
  keepGoing s = true ->
  forall timeSlept, exists k b,
    sleep_loop fuel self timeSlept s
    = (s, replicate k (Sleep (stopCheckInterval self)), Ok b).
Proof.
  intros Hk. induction fuel as [|fuel IH]; intros ts; simpl.
  - by exists 0, false.
  - destruct (Qltb ts (pollTime self)); [|by exists 0, true].
    destruct (IH (ts + stopCheckInterval self)%Q) as (k & b & Hrec).
    exists (S k), b. unfold bindM, emit, get_keepGoing. rewrite Hk. simpl.
    by rewrite Hrec.
Qed.

(** Every constructor leaves the pattern processed. *)
Lemma constructed_pattern_processed (c : cls) (pattern : pyobj)
    (action : pyaction) (t : TriggerObj) :
  Trigger__init__ c pattern action = Ok t -> pattern_processed t = true.
Proof.
  unfold Trigger__init__, _processPattern.
  destruct (_validatePattern c pattern); simpl; [|discriminate].
  destruct c, pattern as [p|p|]; simpl; try discriminate;
    try (destruct action; intros [= <-]; reflexivity).
  destruct (re_compile p); simpl; [|discriminate].
  destruct action; intros [= <-]; reflexivity.
Qed.

(** With actions that are [Action]s, no exception leaves [run]. *)
Lemma run_no_raise (fuel : nat) (self : WatchMan) (s : St) :
  exists s' evs o, run fuel self s = (s', evs, Ok o).
Proof.
  revert s. induction fuel as [|fuel IH]; intros s; simpl.
  - by eexists _, _, _.
  - unfold bindM at 1. unfold get_keepGoing. destruct (keepGoing s) eqn:Hk.
    + unfold iteration. unfold bindM at 1.
      destruct (cycle_no_raise self s) as (s1 & ev1 & b & Hc). rewrite Hc.
      assert (Hk1 : keepGoing s1 = true).
      { destruct (cycle_world self s s1 ev1 _ Hc) as [_ H]. congruence. }
      destruct b.
      * unfold bindM at 1.
        destruct (sleep_loop_running self s1 (S fuel) Hk1 0) as (k & b & ->).
        destruct b.
        -- destruct (IH s1) as (s2 & ev2 & o & ->). by eexists _, _, _.
        -- by eexists _, _, _.
      * destruct (IH s1) as (s2 & ev2 & o & ->). by eexists _, _, _.
    + by eexists _, _, _.
Qed.


(** X12: [run] returns only once cancellation was requested: entered with
    [keepGoing] cleared it leaves at the first test, without a cycle and
    without a sleep; entered with [keepGoing] set, and with triggers as
    their constructors leave them, it is still in its loop at any bound
    as long as no request arrives, with [keepGoing] still set. *)
Theorem run_returns_only_when_cancelled (fuel : nat) (self : WatchMan) (s : St) :
  (keepGoing s = false -> run (S fuel) self s = (s, [], Ok Exited)) /\
  (keepGoing s = true ->
   forallb pattern_processed (triggers self) = true ->
   exists s' evs, run fuel self s = (s', evs, Ok StillRunning) /\
                  keepGoing s' = true).
Proof.
  split.
  - intros Hk. simpl. unfold bindM, get_keepGoing. rewrite Hk. simpl.
    unfold die. by rewrite Hk.
  - intros Hk0 _. revert s Hk0.
    induction fuel as [|fuel IH]; intros s Hk; simpl.
    + by eexists _, _.
    + unfold bindM at 1. unfold get_keepGoing. rewrite Hk.
      unfold iteration. unfold bindM at 1.
      destruct (cycle_no_raise self s) as (s1 & ev1 & b & Hc). rewrite Hc.
      assert (Hk1 : keepGoing s1 = true).
      { destruct (cycle_world self s s1 ev1 _ Hc) as [_ H]. congruence. }
      destruct b.
      * unfold bindM at 1.
        destruct (sleep_loop_running self s1 (S fuel) Hk1 0) as (k & b & ->).
        destruct b.
        -- destruct (IH s1 Hk1) as (s2 & ev2 & -> & Hk2). by eexists _, _.
        -- by eexists _, _.
      * destruct (IH s1 Hk1) as (s2 & ev2 & -> & Hk2). by eexists _, _.
Qed.

(** X13: while the directory cannot be listed, [run] touches nothing and
    asks no trigger: each iteration lists, writes the failure to stderr
    and sleeps a fifth of the poll time in one piece, without a stop
    check. *)
Theorem run_listing_fails (fuel : nat) (self : WatchMan) (s : St) (e : exn) :
  listing s = Raise e -> keepGoing s = true ->
  run fuel self s
  = (s,
     concat (replicate fuel
               [Listdir; Stderr ListFailed; Sleep (pollTime self / 5)]),
     Ok StillRunning).
Proof.
  intros Hl Hk. induction fuel as [|fuel IH]; [done|].
  simpl. unfold bindM at 1. unfold get_keepGoing. rewrite Hk.
  unfold iteration. unfold bindM at 1.
  rewrite (cycle_listing_failed self s e Hl). by rewrite IH.
Qed.

(** X14: the sleep phase that follows a cycle, when no cancellation is
    requested, does nothing but sleep, [stopCheckInterval] at a time: never
    another duration, never a call or a change of a file. It is entered
    with [timeSlept = 0.0], so with a poll time that is not above zero it
    does not sleep at all, and with one above zero it sleeps at least
    once. (How many sub-sleeps follow depends on the rounding of the sums
    of line 196 and is not stated.) *)
Theorem sleep_phase_sub_sleeps (self : WatchMan) (s : St) (fuel : nat) :
  keepGoing s = true ->
  (~ (0 < pollTime self)%Q ->
   sleep_loop (S fuel) self 0 s = (s, [], Ok true)) /\
  ((0 < pollTime self)%Q ->
   exists k b,
     sleep_loop (S fuel) self 0 s
     = (s, replicate (S k) (Sleep (stopCheckInterval self)), Ok b)).
Proof.
  intros Hk. split; intros Hp; simpl.
  - assert (H : Qltb 0 (pollTime self) = false).
    { apply Qltb_ge. by apply Qnot_lt_le. }
    by rewrite H.
  - apply Qltb_lt in Hp. rewrite Hp.
    destruct (sleep_loop_running self s fuel Hk (0 + stopCheckInterval self)%Q)
      as (k & b & Hrec).
    exists k, b. unfold bindM, emit, get_keepGoing. rewrite Hk. simpl.
    by rewrite Hrec.
Qed.


(** ** What a trigger claims *)

Lemma matches_of_pointwise (t : TriggerObj) (names : list string) (n : string) :
  n ∈ matches_of t names -> n ∈ matches_of t [n].
Proof.
  unfold matches_of, getFilenameMatches, fnmatch_filter.
  destruct (t_cls t), (t_pattern t) as [pat|pat|];
    try (intros H; by apply elem_of_nil in H).
  - intros [_ Hm]%list_elem_of_In%filter_In. simpl. rewrite Hm. left.
  - destruct (fnmatch_compile pat) as [m|]; simpl;
      [|intros H; by apply elem_of_nil in H].
    intros [_ Hm]%list_elem_of_In%filter_In. rewrite Hm. left.
  - destruct (existsb _ names); [|intros H; by apply elem_of_nil in H].
    intros ->%list_elem_of_singleton. simpl. rewrite String.eqb_refl. left.
  - intros H. apply first_lower_equal_spec in H. simpl.
    rewrite H, String.eqb_refl. left.
Qed.

Lemma first_lower_equal_NoDup (pattern : string) (items : list string) :
  NoDup (first_lower_equal pattern items).
Proof.
  induction items as [|x items IH]; simpl; [constructor|].
  destruct (String.eqb (lower x) pattern); [apply NoDup_singleton | exact IH].
Qed.

Lemma NoDup_List_filter {A} (f : A -> bool) (l : list A) :
  NoDup l -> NoDup (List.filter f l).
Proof.
  induction 1 as [|x l Hx Hl IH]; simpl; [constructor|].
  destruct (f x); [|done]. constructor; [|done].
  intros [Hin _]%list_elem_of_In%filter_In. by apply Hx, list_elem_of_In.
Qed.

Lemma filter_singleton_Ok (f : string -> bool) (n : string) :
  Ok (List.filter f [n]) = @Ok (list string) [n] <-> f n = true.
Proof. simpl. destruct (f n); split; (done || discriminate). Qed.

(** X15: what [getFilenameMatches] returns, for every class: names among
    those given, each of which the trigger also claims when it is asked
    about that name alone, and without a repetition when the names have
    none. For every class but the case-insensitive one the converse holds:
    a given name that is claimed alone is among the matches. *)
Theorem matches_are_name_wise (t : TriggerObj) (names ms : list string)
    (n : string) :
  getFilenameMatches t names = Ok ms ->
  (n ∈ ms -> n ∈ names /\ getFilenameMatches t [n] = Ok [n]) /\
  (t_cls t <> TriggerCaseInsensitiveMatch -> n ∈ names ->
   getFilenameMatches t [n] = Ok [n] -> n ∈ ms) /\
  (NoDup names -> NoDup ms).
Proof.
  unfold getFilenameMatches, fnmatch_filter.
  destruct (t_cls t), (t_pattern t) as [pat|pat|]; try discriminate.
  - intros [= <-]. split; [|split].
    + intros [Hin Hm]%list_elem_of_In%filter_In.
      split; [by apply list_elem_of_In | by apply filter_singleton_Ok].
    + intros _ Hin%list_elem_of_In Hm%filter_singleton_Ok.
      apply list_elem_of_In, filter_In. done.
    + apply NoDup_List_filter.
  - destruct (fnmatch_compile pat) as [m|]; simpl; [|discriminate].
    intros [= <-]. split; [|split].
    + intros [Hin Hm]%list_elem_of_In%filter_In.
      split; [by apply list_elem_of_In | by apply filter_singleton_Ok].
    + intros _ Hin%list_elem_of_In Hm%filter_singleton_Ok.
      apply list_elem_of_In, filter_In. done.
    + apply NoDup_List_filter.
  - destruct (existsb (String.eqb pat) names) eqn:He; intros [= <-].
    + apply existsb_exists in He as (x & Hx & Heq%String.eqb_eq). subst x.
      split; [|split].
      * intros ->%list_elem_of_singleton. split; [by apply list_elem_of_In|].
        simpl. by rewrite String.eqb_refl.
      * intros _ _. simpl. destruct (String.eqb_spec pat n) as [->|]; [left|].
        simpl. discriminate.
      * intros _. apply NoDup_singleton.
    + split; [intros H; by apply elem_of_nil in H|]. split; [|constructor].
      intros _ Hin. simpl. destruct (String.eqb_spec pat n) as [->|];
        [|simpl; discriminate].
      apply list_elem_of_In in Hin.
      assert (existsb (String.eqb n) names = true); [|congruence].
      apply existsb_exists. exists n. by rewrite String.eqb_refl.
  - intros [= <-]. split; [intros H; by apply elem_of_nil in H|].
    split; [discriminate | constructor].
  - intros [= <-]. split; [intros H; by apply elem_of_nil in H|].
    split; [discriminate | constructor].
  - intros [= <-]. split; [|split].
    + intros H. split; [by apply first_lower_equal_sub in H|].
      apply first_lower_equal_spec in H. simpl. by rewrite H, String.eqb_refl.
    + done.
    + intros _. apply first_lower_equal_NoDup.
  - intros [= <-]. split; [intros H; by apply elem_of_nil in H|].
    split; [done | constructor].
  - intros [= <-]. split; [intros H; by apply elem_of_nil in H|].
    split; [done | constructor].
Qed.

(** ** What a cycle asks and whom it calls *)

Lemma triggers_run_asked self i ts locals s s' evs locals' :
  triggers_run self i ts locals s s' evs locals' ->
  (get_matches evs).*1 = seq i (length ts) /\
  (forall j c, (j, c) ∈ get_matches evs ->
     exists rem : gset string, c = elements rem /\ rem ⊆ locals.1).
Proof.
  induction 1 as [|i t ts locals s s1 ev1 s' ev2 locals' Heff _ [IH1 IH2]].
  - split; [done|]. intros j c H. by apply elem_of_nil in H.
  - destruct Heff as (keys & data & _ & _ & _ & _ & _ & Hgm & _).
    rewrite get_matches_app, Hgm. split.
    + rewrite fmap_app, IH1. done.
    + intros j c [Hin|Hin]%elem_of_app.
      * apply list_elem_of_singleton in Hin as [= -> ->]. by exists locals.1.
      * destruct (IH2 j c Hin) as (rem & -> & Hsub). exists rem.
        split; [done|]. etrans; [exact Hsub | apply claim_remaining_sub].
Qed.

Lemma candidates_spec (self : WatchMan) (s : St) (names : list string) (n : string) :
  n ∈ candidates self s names <->
  n ∈ names /\ n <> "" /\ isfile s (path_of self n) = true.
Proof.
  unfold candidates. rewrite elem_of_list_to_set, list_elem_of_In, filter_In.
  rewrite <- list_elem_of_In, andb_true_iff, negb_true_iff.
  rewrite String.eqb_neq. done.
Qed.

(** X16: when the directory can be listed, a cycle asks every trigger
    once, in the order of [self.triggers], whether or not the matching of
    an earlier one raised, and only about regular files of the directory:
    names of the listing, not empty, without a repetition. The triggers
    are as their constructors leave them. *)
Theorem cycle_asks_every_trigger_once (self : WatchMan) (s s' : St)
    (evs : list Event) (r : Exc bool) (names : list string) :
  forallb pattern_processed (triggers self) = true ->
  listing s = Ok names ->
  cycle self s = (s', evs, r) ->
  (get_matches evs).*1 = seq 0 (length (triggers self)) /\
  (forall j c, (j, c) ∈ get_matches evs ->
     NoDup c /\
     forall n, n ∈ c ->
       n ∈ names /\ n <> "" /\ isfile s (path_of self n) = true).
Proof.
  intros _ Hl.
  destruct (cycle_spec self s names Hl)
    as (s1 & ev1 & l' & s2 & ev2 & Hc & Hrun & _ & _ & _ & Hgm2 & _).
  rewrite Hc. intros [= <- <- <-].
  change (Listdir :: ev1 ++ ev2) with ([Listdir] ++ ev1 ++ ev2).
  rewrite !get_matches_app, Hgm2, app_nil_r. simpl.
  destruct (triggers_run_asked _ _ _ _ _ _ _ _ Hrun) as [H1 H2].
  split; [exact H1|].
  intros j c Hin. destruct (H2 j c Hin) as (rem & -> & Hsub).
  split; [apply NoDup_elements|].
  intros n Hn%elem_of_elements. apply candidates_spec. by apply Hsub.
Qed.

Lemma triggers_run_calls self i ts locals s s' evs locals' :
  triggers_run self i ts locals s s' evs locals' ->
  forall j n d, (j, n, d) ∈ run_actions evs ->
    (exists t, ts !! (j - i) = Some t /\ i <= j /\ n ∈ matches_of t [n]) /\
    n ∈ locals.1 /\
    exists c, readable s (path_of self n) = Some c /\ d = file_lines c.
Proof.
  induction 1 as [|i t ts locals s s1 ev1 s' ev2 locals' Heff Hrun IH];
    intros j n d.
  - intros H. by apply elem_of_nil in H.
  - destruct Heff
      as (keys & data & _ & _ & _ & Hkeys & Hdata & _ & Hra & _ & Hf & _).
    rewrite run_actions_app, Hra. intros [Hin|Hin]%elem_of_app.
    + apply list_elem_of_fmap in Hin as (n' & [= -> -> ->] & Hn').
      apply Hkeys in Hn' as [Hms [c Hc]]. split; [|split].
      * exists t. rewrite Nat.sub_diag. split; [done|]. split; [lia|].
        by eapply matches_of_pointwise.
      * apply matches_of_sub in Hms. by apply elem_of_elements in Hms.
      * exists c. split; [done|]. by apply Hdata.
    + destruct (IH j n d Hin) as ((tj & Htj & Hij & Hcl) & Hrem & c & Hc & Hd).
      split; [|split].
      * exists tj. replace (j - i) with (S (j - S i)) by lia.
        split; [done|]. split; [lia | done].
      * by apply (claim_remaining_sub self locals) in Hrem.
      * exists c. split; [|done]. unfold readable in *. rewrite Hf in Hc.
        destruct (_ && _); [done | exact Hc].
Qed.

Lemma cycle_calls (self : WatchMan) (s s' : St) (evs : list Event) (r : Exc bool) :
  cycle self s = (s', evs, r) ->
  (forall j n d, (j, n, d) ∈ run_actions evs ->
     (exists t, triggers self !! j = Some t /\ n ∈ matches_of t [n]) /\
     exists c, readable s (path_of self n) = Some c /\ d = file_lines c) /\
  (forall q, q ∈ removes evs ->
     exists n t, q = path_of self n /\ t ∈ triggers self /\
                 n ∈ matches_of t [n]).
Proof.
  destruct (listing s) as [names|e] eqn:Hl.
  2:{ rewrite (cycle_listing_failed self s e Hl). intros [= <- <- <-].
      split; [intros j n d H | intros q H]; by apply elem_of_nil in H. }
  destruct (cycle_spec self s names Hl)
    as (s1 & ev1 & l' & s2 & ev2 & Hc & Hrun & _ & _ & Hra2 & _ & Hrm2 & _).
  rewrite Hc. intros [= <- <- <-].
  change (Listdir :: ev1 ++ ev2) with ([Listdir] ++ ev1 ++ ev2).
  rewrite !removes_app, !run_actions_app, Hra2, app_nil_r. simpl.
  assert (Hact : forall j n d, (j, n, d) ∈ run_actions ev1 ->
     (exists t, triggers self !! j = Some t /\ n ∈ matches_of t [n]) /\
     exists c, readable s (path_of self n) = Some c /\ d = file_lines c).
  { intros j n d Hin.
    destruct (triggers_run_calls _ _ _ _ _ _ _ _ Hrun j n d Hin)
      as ((t & Ht & _ & Hcl) & _ & Hc').
    rewrite Nat.sub_0_r in Ht. split; [by exists t | exact Hc']. }
  split; [exact Hact|].
  intros q Hq. destruct (canMatchMultiple self) eqn:Hmode.
  - pose proof (triggers_run_multi _ _ _ _ _ _ _ _ Hmode Hrun)
      as (_ & Hmt & _ & Hrm1 & _).
    rewrite Hrm1, Hrm2 in Hq. simpl in Hq.
    apply list_elem_of_fmap in Hq as (n & -> & Hn%elem_of_elements).
    apply Hmt in Hn as [Hn|(t & Ht & Hn)]; [by apply not_elem_of_empty in Hn|].
    exists n, t. split; [done|]. split; [done|]. by eapply matches_of_pointwise.
  - pose proof (triggers_run_single _ _ _ _ _ _ _ _ Hmode Hrun)
      as (_ & _ & _ & _ & _ & Hrm1).
    rewrite Hrm1, Hrm2, app_nil_r in Hq.
    apply list_elem_of_fmap in Hq as (n & -> & Hn).
    unfold dispatched in Hn.
    apply list_elem_of_fmap in Hn as ([[j n'] d] & -> & Hn). simpl.
    destruct (Hact j n' d Hn) as ((t & Ht & Hcl) & _).
    exists n', t. split; [done|]. split; [|done].
    by eapply list_elem_of_lookup_2.
Qed.

(** ** What every execution of [run] respects, continued *)

Lemma only_removed_nil (s : St) : only_removed s s [].
Proof. split; [done|]. intros q. by left. Qed.

Lemma only_removed_app (s s1 s2 : St) (ev1 ev2 : list Event) :
  only_removed s s1 ev1 -> only_removed s1 s2 ev2 ->
  only_removed s s2 (ev1 ++ ev2).
Proof.
  intros [Hl1 H1] [Hl2 H2]. split; [congruence|]. intros q.
  rewrite removes_app.
  destruct (H2 q) as [E2|[N2 R2]].
  - destruct (H1 q) as [E1|[N1 R1]].
    + left. congruence.
    + right. split; [congruence|]. apply elem_of_app. by left.
  - right. split; [done|]. apply elem_of_app. by right.
Qed.

Lemma files_die (s : St) : files (die s) = files s /\ listing (die s) = listing s.
Proof. by destruct s as [f l fp [|]]. Qed.

Lemma only_removed_run (self : WatchMan) (fuel : nat) :
  respects only_removed (run fuel self).
Proof.
  apply respects_run.
  - apply only_removed_nil.
  - apply only_removed_app.
  - intros d s. apply only_removed_nil.
  - intros s. destruct (files_die s) as [Hf Hl]. split; [done|].
    intros q. left. by rewrite Hf.
  - intros s s' evs r Hc. split; [by apply (cycle_world self s s' evs r)|].
    intros q. rewrite (cycle_files self s s' evs r Hc q).
    destruct (bool_decide (q ∈ removes evs)) eqn:Hq; simpl; [|by left].
    destruct (can_remove s q); [|by left].
    right. split; [done|]. by apply bool_decide_eq_true in Hq.
Qed.

Lemma readable_mono (s s1 : St) (p c : string) :
  (forall q f, files s1 !! q = Some f -> files s !! q = Some f) ->
  readable s1 p = Some c -> readable s p = Some c.
Proof.
  intros Hf. unfold readable.
  destruct (files s1 !! p) as [f|] eqn:Hp; [|done].
  by rewrite (Hf p f Hp).
Qed.

Lemma claimed_only_run (self : WatchMan) (fuel : nat) :
  respects (claimed_only self) (run fuel self).
Proof.
  assert (Hnil : forall s, claimed_only self s s []).
  { intros s. split; [done|].
    split; [intros j n d H | intros q H]; by apply elem_of_nil in H. }
  apply respects_run.
  - exact Hnil.
  - intros s s1 s2 ev1 ev2 (Hf1 & Ha1 & Hr1) (Hf2 & Ha2 & Hr2).
    split; [by intros q f H%Hf2%Hf1|]. split.
    + intros j n d. rewrite run_actions_app.
      intros [Hin|Hin]%elem_of_app; [by apply Ha1|].
      destruct (Ha2 j n d Hin) as (Ht & c & Hc & Hd).
      split; [done|]. exists c. split; [|done]. by eapply readable_mono.
    + intros q. rewrite removes_app.
      intros [Hin|Hin]%elem_of_app; [by apply Hr1 | by apply Hr2].
  - intros d s. destruct (Hnil s) as (H1 & H2 & H3). by split.
  - intros s. destruct (files_die s) as [Hf Hl]. split; [by rewrite Hf|].
    split; [intros j n d H | intros q H]; by apply elem_of_nil in H.
  - intros s s' evs r Hc.
    split; [by apply (accounted_cycle self s s' evs r) | by eapply cycle_calls].
Qed.


(** X17: [run] never creates or changes a file, and never changes what the
    listing gives: at any bound, every path holds the file it held when
    [run] was entered, or holds none, and then [os.remove] was called on
    it. *)
Theorem run_only_removes_files (fuel : nat) (self : WatchMan) (s s' : St)
    (evs : list Event) (r : Exc Outcome) :
  run fuel self s = (s', evs, r) ->
  listing s' = listing s /\
  forall q, files s' !! q = files s !! q \/
            (files s' !! q = None /\ q ∈ removes evs).
Proof. apply only_removed_run. Qed.

(** X18: every action [run] calls is the action of a trigger of the
    watcher, called for a name that this trigger claims, with the line
    list of the file of that name in the watched directory, as the file
    was when [run] was entered. *)
Theorem run_calls_actions_of_claimed_files (fuel : nat) (self : WatchMan)
    (s s' : St) (evs : list Event) (r : Exc Outcome)
    (j : nat) (n : string) (d : list string) :
  run fuel self s = (s', evs, r) ->
  (j, n, d) ∈ run_actions evs ->
  (exists t, triggers self !! j = Some t /\ n ∈ matches_of t [n]) /\
  exists c, readable s (path_of self n) = Some c /\ d = file_lines c.
Proof.
  intros Hrun. destruct (claimed_only_run self fuel s s' evs r Hrun)
    as (_ & H & _). apply H.
Qed.

(** X19: [run] removes nothing but files that a trigger claims: every
    [os.remove] is that of a file of the watched directory whose name some
    trigger claims, and the file of a name that no trigger claims is, at
    any bound, as it was. *)
Theorem run_leaves_unclaimed_files (fuel : nat) (self : WatchMan)
    (s s' : St) (evs : list Event) (r : Exc Outcome) :
  run fuel self s = (s', evs, r) ->
  (forall q, q ∈ removes evs ->
     exists n t, q = path_of self n /\ t ∈ triggers self /\
                 n ∈ matches_of t [n]) /\
  (forall n, (forall t, t ∈ triggers self -> n ∉ matches_of t [n]) ->
     (n ∉ dispatched evs) /\
     files s' !! path_of self n = files s !! path_of self n).
Proof.
  intros Hrun.
  destruct (claimed_only_run self fuel s s' evs r Hrun) as (_ & Ha & Hr).
  split; [exact Hr|]. intros n Hn. split.
  - unfold dispatched. intros ([[j n'] d] & -> & Hin)%list_elem_of_fmap.
    destruct (Ha j n' d Hin) as ((t & Ht & Hcl) & _).
    apply (Hn t); [by eapply list_elem_of_lookup_2 | done].
  - destruct (only_removed_run self fuel s s' evs r Hrun) as [_ Hf].
    destruct (Hf (path_of self n)) as [E|[_ Hq]]; [done|].
    destruct (Hr _ Hq) as (n' & t & Heq%path_of_inj & Ht & Hcl). subst n'.
    by destruct (Hn t Ht).
Qed.


(** X21: no failure of the file system is silent: a file on which
    [os.remove] was called is gone at any later point of [run], or the
    failure of the removal is on stderr; a file that was opened could be
    read, or the failure of the reading is on stderr. *)
Theorem run_reports_failures (fuel : nat) (self : WatchMan)
    (s s' : St) (evs : list Event) (r : Exc Outcome) (p : string) :
  run fuel self s = (s', evs, r) ->
  (p ∈ removes evs ->
   files s' !! p = None \/ RemoveFailed p ∈ stderr evs) /\
  (p ∈ opens evs ->
   is_Some (readable s p) \/ ReadFailed p ∈ stderr evs).
Proof.
  intros Hrun.
  destruct (accounted_run self fuel s s' evs r Hrun) as (_ & _ & H3 & H4).
  split; [apply H3 | apply H4].
Qed.


(** ** A trigger whose matching raises *)

Lemma process_trigger_match_failed (self : WatchMan) (dca : gmap string string)
    (i : nat) (t : TriggerObj) (locals : gset string * gset string) (s : St) :
  is_Ok (getFilenameMatches t (elements locals.1)) = false ->
  process_trigger self dca i t locals s
  = (s, [GetMatches i (elements locals.1); Stderr (MatchFailed i)], Ok locals).
Proof.
  intros H. unfold process_trigger, bindM, emit, try_, lift. simpl.
  by destruct (getFilenameMatches t (elements locals.1)).
Qed.

Lemma for_triggers_match_failed (self : WatchMan) (dca : gmap string string)
    (ts : list TriggerObj) :
  forall i locals s s' evs r k t,
  (forall n, n ∈ locals.1 -> dca !! n = Some (path_of self n)) ->
  for_triggers self dca i ts locals s = (s', evs, r) ->
  ts !! k = Some t ->
  (forall names, is_Ok (getFilenameMatches t names) = false) ->
  MatchFailed (i + k) ∈ stderr evs.
Proof.
  induction ts as [|t0 ts IH]; intros i locals s s' evs r k t Hdca Hfor Hk Hfail;
    [done|].
  simpl in Hfor. unfold bindM in Hfor. destruct k as [|k].
  - injection Hk as ->.
    rewrite (process_trigger_match_failed self dca i t locals s (Hfail _)) in Hfor.
    destruct (for_triggers self dca (S i) ts locals s) as [[s2 ev2] r2].
    injection Hfor as <- <- <-. rewrite Nat.add_0_r. simpl. left.
  - destruct locals as [rem mt].
    destruct (process_trigger_spec self dca i t0 rem mt s Hdca)
      as (s1 & ev1 & Hstep & _).
    rewrite Hstep in Hfor.
    destruct (for_triggers self dca (S i) ts _ s1) as [[s2 ev2] r2] eqn:Hrest.
    injection Hfor as <- <- <-. rewrite stderr_app. apply elem_of_app. right.
    replace (i + S k) with (S i + k) by lia.
    apply (IH _ _ _ _ _ _ _ _ (fun n Hn => Hdca n (claim_remaining_sub self (rem, mt) _ n Hn))
             Hrest Hk Hfail).
Qed.

Lemma triggers_run_failed_position self i0 ts locals s s' evs locals' :
  triggers_run self i0 ts locals s s' evs locals' ->
  forall k t, ts !! k = Some t ->
    (forall names, is_Ok (getFilenameMatches t names) = false) ->
    exists c, get_matches evs !! k = Some (i0 + k, c) /\
      (forall t', ts !! S k = Some t' ->
         get_matches evs !! S k = Some (i0 + S k, c)).
Proof.
  clear re_parse isdir.
  induction 1 as [|i t0 ts locals s s1 ev1 s' ev2 locals' Heff Hrun IH];
    intros k t Hk Hfail; [done|].
  destruct Heff as (keys & data & _ & _ & _ & _ & _ & Hgm & _).
  rewrite get_matches_app, Hgm. destruct k as [|k].
  - injection Hk as ->. exists (elements locals.1). rewrite Nat.add_0_r.
    split; [done|]. intros t' Ht'. simpl in Ht'. simpl.
    inversion Hrun as [|i' t1 ts1 l1 sa sb eva sc evb l2 Heff1 _]; subst;
      [done|].
    destruct Heff1 as (keys1 & data1 & _ & _ & _ & _ & _ & Hgm1 & _).
    rewrite get_matches_app, Hgm1. simpl. f_equal. f_equal; [lia|].
    f_equal. unfold claim, matches_of. specialize (Hfail (elements locals.1)).
    destruct (getFilenameMatches t (elements locals.1)); [done|].
    destruct (canMatchMultiple self); simpl; [done|].
    apply leibniz_equiv. set_solver.
  - destruct (IH k t Hk Hfail) as (c & Hc & Hnext). exists c. simpl.
    replace (i + S k) with (S i + k) by lia. split; [exact Hc|].
    intros t' Ht'. replace (i + S (S k)) with (S i + S k) by lia.
    by apply (Hnext t').
Qed.

(** X22: a trigger whose [getFilenameMatches] raises is not fatal: in
    every cycle in which the directory can be listed, the failure is
    written to stderr under the position of the trigger and the trigger
    has no action called; the loop goes on: every trigger of the watcher
    is asked, in order, the one after the failing trigger about the very
    names the failing one was asked about, and the cycle ends normally,
    with the sleep phase to follow. The triggers are as their
    constructors leave them. *)
Theorem cycle_reports_match_failure (self : WatchMan) (s s' : St)
    (evs : list Event) (r : Exc bool) (names : list string)
    (i : nat) (t : TriggerObj) :
  forallb pattern_processed (triggers self) = true ->
  listing s = Ok names ->
  cycle self s = (s', evs, r) ->
  triggers self !! i = Some t ->
  (forall names, is_Ok (getFilenameMatches t names) = false) ->
  r = Ok true /\
  MatchFailed i ∈ stderr evs /\
  (forall n d, (i, n, d) ∉ run_actions evs) /\
  (get_matches evs).*1 = seq 0 (length (triggers self)) /\
  exists c, (i, c) ∈ get_matches evs /\
    (forall t', triggers self !! S i = Some t' -> (S i, c) ∈ get_matches evs).
Proof.
  intros _ Hl Hc Ht Hfail.
  destruct (cycle_spec self s names Hl)
    as (s1 & ev1 & l' & s2 & ev2 & Hc2 & Hrun & _ & _ & _ & Hgm2 & _).
  assert (Hg : get_matches evs = get_matches ev1).
  { rewrite Hc2 in Hc. injection Hc as <- <- <-.
    change (Listdir :: ev1 ++ ev2) with ([Listdir] ++ ev1 ++ ev2).
    rewrite !get_matches_app, Hgm2. simpl. by rewrite app_nil_r. }
  split; [congruence|]. split; [|split; [|split]].
  - set (D := candidates self s names).
    destruct (for_triggers self (absolute_paths self D) 0 (triggers self)
                (D, ∅) s) as [[sa eva] ra] eqn:Hfor.
    assert (Hmf : MatchFailed (0 + i) ∈ stderr eva).
    { eapply for_triggers_match_failed; [|exact Hfor|exact Ht|exact Hfail].
      intros n Hn. by apply absolute_paths_lookup. }
    revert Hc. unfold cycle, list_directory, try_, os_listdir.
    unfold bindM at 1. unfold bindM at 1. rewrite Hl. simpl.
    unfold scan_and_dispatch. fold (candidates self s names). fold D.
    unfold bindM at 1. unfold bindM at 1. rewrite Hfor.
    destruct ra as [locals|e].
    + destruct ((if canMatchMultiple self
                 then for_ (elements locals.2)
                        (remove_matched (absolute_paths self D))
                 else ret tt) sa) as [[sb evb] rb].
      destruct rb; intros [= <- <- <-];
        change (Listdir :: ?l) with ([Listdir] ++ l);
        rewrite !stderr_app; apply elem_of_app; right;
        repeat (apply elem_of_app; left); exact Hmf.
    + intros [= <- <- <-]. exact Hmf.
  - intros n d Hin.
    destruct (cycle_calls self s s' evs r Hc) as [Ha _].
    destruct (Ha i n d Hin) as ((t' & Ht' & Hcl) & _).
    rewrite Ht in Ht'. injection Ht' as <-.
    unfold matches_of in Hcl. specialize (Hfail [n]).
    destruct (getFilenameMatches t [n]); [done | by apply elem_of_nil in Hcl].
  - rewrite Hg. by destruct (triggers_run_asked _ _ _ _ _ _ _ _ Hrun).
  - rewrite Hg.
    destruct (triggers_run_failed_position _ _ _ _ _ _ _ _ Hrun i t Ht Hfail)
      as (c & Hc1 & Hc3).
    exists c. split; [by eapply list_elem_of_lookup_2|].
    intros t' Ht'. eapply list_elem_of_lookup_2. by apply (Hc3 t').
Qed.

(** X23: which files the next cycle sees: a name is a candidate after a
    cycle exactly when it was one before and the cycle did not remove its
    file. So a file that no trigger claimed, a file that could not be read
    in single-match mode, and a file whose removal failed are looked at
    again, and a removed file never is. *)
Theorem next_cycle_candidates (self : WatchMan) (s s' : St)
    (evs : list Event) (r : Exc bool) (names : list string) (n : string) :
  cycle self s = (s', evs, r) ->
  (n ∈ candidates self s' names <->
   n ∈ candidates self s names /\
   (files s' !! path_of self n = files s !! path_of self n) /\
   ~ (path_of self n ∈ removes evs /\ can_remove s (path_of self n) = true)).
Proof.
  intros Hc. rewrite !candidates_spec. unfold isfile.
  rewrite !bool_decide_eq_true.
  pose proof (cycle_files self s s' evs r Hc (path_of self n)) as Hf.
  destruct (decide (path_of self n ∈ removes evs)) as [Hin|Hnin].
  - rewrite (bool_decide_eq_true_2 _ Hin) in Hf. simpl in Hf.
    destruct (can_remove s (path_of self n)) eqn:Hcr.
    + rewrite Hf. split.
      * intros (_ & _ & [? ?]). done.
      * intros (_ & _ & H). destruct H. done.
    + rewrite Hf. split.
      * intros H. split; [done|]. split; [done|]. intros [_ ?]. done.
      * intros [H _]. done.
  - rewrite (bool_decide_eq_false_2 _ Hnin) in Hf. simpl in Hf. rewrite Hf.
    split.
    + intros H. split; [done|]. split; [done|]. intros [? _]. done.
    + intros [H _]. done.
Qed.


(** X24: the intervals are validated last, the stop-check interval before
    the poll time: with a directory and triggers that are accepted, a
    stop-check interval below [SMALL_NUMBER] is what is reported, whatever
    the poll time; a poll time below it is reported only when the
    stop-check interval is fine; any other pair is accepted. *)
Theorem init_interval_errors (rootDir0 : string) (triggers0 : list pytrigger)
    (multi : bool) (p0 i0 : Q) (self : WatchMan) (warned : bool) (p i : Q) :
  WatchMan__init__ rootDir0 triggers0 multi p0 i0 = Ok (self, warned) ->
  ((i < SMALL_NUMBER)%Q ->
   WatchMan__init__ rootDir0 triggers0 multi p i
   = Raise (ValueError BadStopCheckInterval)) /\
  ((SMALL_NUMBER <= i)%Q -> (p < SMALL_NUMBER)%Q ->
   WatchMan__init__ rootDir0 triggers0 multi p i
   = Raise (ValueError BadPollTime)) /\
  ((SMALL_NUMBER <= i)%Q -> (SMALL_NUMBER <= p)%Q ->
   is_Ok (WatchMan__init__ rootDir0 triggers0 multi p i) = true).
Proof.
  unfold WatchMan__init__.
  destruct (check_triggers 0 triggers0) as [ts|]; simpl; [|discriminate].
  destruct (negb (isdir _)); [discriminate|]. intros _.
  split; [|split].
  - intros Hi%Qltb_lt. by rewrite Hi.
  - intros Hi%Qltb_ge Hp%Qltb_lt. by rewrite Hi, Hp.
  - intros Hi%Qltb_ge Hp%Qltb_ge. by rewrite Hi, Hp.
Qed.


(** ** Which trigger gets a file *)

(** For every class but the case-insensitive one, a trigger returns a
    given name whenever it returns it when asked about it alone. *)
Lemma matches_of_name_wise (t : TriggerObj) (names : list string) (n : string) :
  t_cls t <> TriggerCaseInsensitiveMatch ->
  n ∈ names -> n ∈ matches_of t [n] -> n ∈ matches_of t names.
Proof.
  unfold matches_of, getFilenameMatches, fnmatch_filter.
  destruct (t_cls t), (t_pattern t) as [pat|pat|]; intros Hcls Hin;
    try done; try (intros H; by apply elem_of_nil in H).
  - simpl. destruct (Re.match_ (pattern_prog pat) n) eqn:Hm;
      [|intros H; by apply elem_of_nil in H].
    intros _. apply list_elem_of_In, filter_In. split; [|done].
    by apply list_elem_of_In.
  - destruct (fnmatch_compile pat) as [m|]; simpl;
      [|intros H; by apply elem_of_nil in H].
    destruct (m n) eqn:Hm; [|intros H; by apply elem_of_nil in H].
    intros _. apply list_elem_of_In, filter_In. split; [|done].
    by apply list_elem_of_In.
  - simpl. destruct (String.eqb_spec pat n) as [->|Hne]; simpl;
      [|intros H; by apply elem_of_nil in H].
    intros _. assert (He : existsb (String.eqb n) names = true).
    { apply existsb_exists. exists n. split; [by apply list_elem_of_In|].
      apply String.eqb_refl. }
    rewrite He. left.
Qed.

Lemma matches_of_elem_Ok (t : TriggerObj) (names : list string) (n : string) :
  n ∈ matches_of t names ->
  exists ms, getFilenameMatches t names = Ok ms /\ n ∈ ms.
Proof.
  unfold matches_of. destruct (getFilenameMatches t names) as [ms|e].
  - intros H. by exists ms.
  - intros H. by apply elem_of_nil in H.
Qed.

(** In single-match mode a name stays in the remaining set until the
    first trigger whose pattern matches it. *)
Lemma triggers_run_earliest self i0 ts locals s s' evs locals' :
  canMatchMultiple self = false ->
  triggers_run self i0 ts locals s s' evs locals' ->
  forall k tk n, ts !! k = Some tk -> n ∈ locals.1 ->
    (forall j tj, j < k -> ts !! j = Some tj -> n ∉ matches_of tj [n]) ->
    exists ck, (i0 + k, ck) ∈ get_matches evs /\ n ∈ ck.
Proof.
  clear re_parse isdir.
  intros Hmode.
  induction 1 as [|i t0 ts locals s s1 ev1 s' ev2 locals' Heff Hrun IH];
    intros k tk n Hk Hn Hearlier; [done|].
  destruct Heff as (keys & data & _ & _ & _ & _ & _ & Hgm & _).
  rewrite get_matches_app, Hgm. destruct k as [|k].
  - exists (elements locals.1). rewrite Nat.add_0_r.
    split; [apply elem_of_app; left; left | by apply elem_of_elements].
  - destruct (IH k tk n Hk) as (ck & Hck & Hnck).
    + unfold claim. rewrite Hmode. simpl. apply elem_of_difference.
      split; [done|]. rewrite elem_of_list_to_set.
      intros Hm%matches_of_pointwise.
      by apply (Hearlier 0 t0); [lia | |].
    + intros j tj Hj Htj. apply (Hearlier (S j) tj); [lia | done].
    + exists ck. replace (i + S k) with (S i + k) by lia.
      split; [apply elem_of_app; by right | done].
Qed.

(** C3, as amended: in single-match mode, take a regular file [n] of the
    listed directory and the earliest-declared trigger [i] whose pattern
    matches [n] (it returns [n] when asked about [n] alone, and no earlier
    trigger does), of a class other than the case-insensitive one. Then
    trigger [i] sees [n]; every later trigger of the cycle is asked about
    a remaining set without [n]; no trigger but [i] dispatches [n]. If
    the file can be read, the only dispatch for [n] in the cycle is that
    of trigger [i], with the line list of the file, and [os.remove] is
    called on the file exactly once, after which it is gone if
    [os.remove] can remove it. If the file cannot be read, no action is
    called for it and it is not removed. *)
Theorem single_match_earliest_matching_trigger (self : WatchMan) (s s' : St)
    (evs : list Event) (r : Exc bool) (names : list string)
    (i : nat) (ti : TriggerObj) (n : string) :
  canMatchMultiple self = false ->
  listing s = Ok names ->
  cycle self s = (s', evs, r) ->
  n ∈ candidates self s names ->
  triggers self !! i = Some ti ->
  t_cls ti <> TriggerCaseInsensitiveMatch ->
  n ∈ matches_of ti [n] ->
  (forall j tj, j < i -> triggers self !! j = Some tj ->
                n ∉ matches_of tj [n]) ->
  (exists ci, (i, ci) ∈ get_matches evs /\ n ∈ ci) /\
  (forall j cj, (j, cj) ∈ get_matches evs -> i < j -> n ∉ cj) /\
  (forall k d, (k, n, d) ∈ run_actions evs -> k = i) /\
  (forall c, readable s (path_of self n) = Some c ->
     filter (fun x => x.1.2 = n) (run_actions evs) = [(i, n, file_lines c)] /\
     filter (fun p => p = path_of self n) (removes evs) = [path_of self n] /\
     (can_remove s (path_of self n) = true ->
      files s' !! path_of self n = None)) /\
  (readable s (path_of self n) = None ->
     (n ∉ dispatched evs) /\ (path_of self n ∉ removes evs) /\
     files s' !! path_of self n = files s !! path_of self n).
Proof.
  intros Hmode Hl Hcyc Hcand Hti Hcls Hmatch Hearlier.
  destruct (cycle_spec self s names Hl)
    as (s1 & ev1 & l' & s2 & ev2 & Hc & Hrun & _ & _ & _ & Hgm2 & _).
  assert (Hg : get_matches evs = get_matches ev1).
  { rewrite Hc in Hcyc. injection Hcyc as <- <- <-.
    change (Listdir :: ev1 ++ ev2) with ([Listdir] ++ ev1 ++ ev2).
    rewrite !get_matches_app, Hgm2. simpl. by rewrite app_nil_r. }
  destruct (triggers_run_earliest _ _ _ _ _ _ _ _ Hmode Hrun i ti n Hti Hcand
              Hearlier) as (ci & Hci & Hnci).
  simpl in Hci. rewrite <- Hg in Hci.
  destruct (matches_of_elem_Ok ti ci n) as (mi & Hmi & Hnmi).
  { by apply matches_of_name_wise. }
  destruct (single_match_returned_name self s s' evs r i ti ci mi n
              Hmode Hcyc Hti Hci Hmi Hnmi) as (H1 & H2 & H3).
  split; [by exists ci|]. split; [exact H1|]. split; [exact H2|].
  split; [exact H3|].
  intros Hnone. by apply (single_match_unreadable_skipped self s s' evs r n).
Qed.

(** C4, as amended: in multi-match mode, when the listing succeeds, the
    trace of the cycle is the call of [os.listdir], then a part [pre] in
    which every trigger, in declared order, is asked about the full
    candidate set and nothing is removed, then a part [post] of removals
    only. Every trigger, of a class other than the case-insensitive one,
    whose pattern matches a regular file [n] of the directory (it returns
    [n] when asked about [n] alone) dispatches [n] with the line list of
    the file, if the file can be read; [os.remove] is then called on the
    file exactly once, in [post], after which it is gone if [os.remove]
    can remove it. If the file cannot be read, no action is called for
    it. *)
Theorem multi_match_every_matching_trigger (self : WatchMan) (s : St)
    (names : list string) :
  canMatchMultiple self = true ->
  listing s = Ok names ->
  exists s' pre post,
    cycle self s = (s', Listdir :: pre ++ post, Ok true) /\
    get_matches pre
    = imap (fun k _ => (k, elements (candidates self s names))) (triggers self) /\
    removes pre = [] /\ run_actions post = [] /\ get_matches post = [] /\
    forall i ti n,
      triggers self !! i = Some ti ->
      t_cls ti <> TriggerCaseInsensitiveMatch ->
      n ∈ candidates self s names ->
      n ∈ matches_of ti [n] ->
      (forall c, readable s (path_of self n) = Some c ->
         (i, n, file_lines c) ∈ run_actions pre /\
         filter (fun p => p = path_of self n) (removes post) = [path_of self n] /\
         (can_remove s (path_of self n) = true ->
          files s' !! path_of self n = None)) /\
      (readable s (path_of self n) = None ->
       forall j d, (j, n, d) ∉ run_actions pre).
Proof.
  intros Hmode Hl.
  destruct (multi_match_returned_names self s names Hmode Hl)
    as (s' & pre & post & Hc & Hgm & Hrm & Hra & Hgp & H).
  exists s', pre, post. split; [done|]. split; [done|].
  split; [done|]. split; [done|]. split; [done|].
  intros i ti n Hti Hcls Hcand Hmatch.
  destruct (matches_of_elem_Ok ti (elements (candidates self s names)) n)
    as (mi & Hmi & Hnmi).
  { apply matches_of_name_wise; [done | by apply elem_of_elements | done]. }
  destruct (H i ti mi n Hti Hmi Hnmi) as (H1 & H2 & H3). split.
  - intros c Hc'. split; [by apply H2|]. by split.
  - intros Hnone j d Hin.
    destruct (cycle_calls self s s' _ _ Hc) as [Ha _].
    destruct (Ha j n d) as (_ & c & Hc' & _); [|congruence].
    change (Listdir :: pre ++ post) with ([Listdir] ++ pre ++ post).
    rewrite !run_actions_app. apply elem_of_app. right.
    apply elem_of_app. by left.
Qed.


(** ** Actions that are user code *)

(** *** Where no action escapes, [run] is the [run] of the [Action]s *)

Lemma embed_bind {A B} (mU : MB A) (m : M A) (f : A -> MB B) (g : A -> M B) :
  (forall s, mU s = embed m s) ->
  (forall a s, f a s = embed (g a) s) ->
  forall s, bindB mU f s = embed (bindM m g) s.
Proof.
  intros Hm Hf s. unfold bindB, bindM. rewrite Hm. unfold embed.
  destruct (m s) as [[s1 ev1] [a|e]]; [|done].
  rewrite Hf. unfold embed. by destruct (g a s1) as [[s2 ev2] [b|e]].
Qed.

Lemma embed_for {A} (l : list A) (bodyU : A -> MB unit) (body : A -> M unit) :
  (forall x s, bodyU x s = embed (body x) s) ->
  forall s, for_B l bodyU s = embed (for_ l body) s.
Proof.
  intros Hb. induction l as [|x l IH]; intros s; simpl; [done|].
  by apply embed_bind.
Qed.

Lemma runActionU_caught (t : UserTrigger) (n : string) (d : list string) :
  raises_Exception_only (u_action t) ->
  forall s, try_Exception (runActionU t n d) s
            = embed (try_ (lift (runAction (builtin_part t) n d))) s.
Proof.
  intros Hsafe s.
  unfold try_Exception, runActionU, embed, try_, lift, runAction. simpl.
  destruct (handle (u_action t) n d) as [[]|e|b] eqn:Hh; [done | done |].
  by destruct (Hsafe n d b).
Qed.

Lemma dispatchU_safe (self : UserWatchMan) (i : nat) (t : UserTrigger)
    (dca : gmap string string) (nad : gmap string (list string)) (n : string) :
  raises_Exception_only (u_action t) ->
  forall s, dispatchU self i t dca nad n s
            = embed (dispatch (settings self) i (builtin_part t) dca nad n) s.
Proof.
  intros Hsafe. unfold dispatchU, dispatch.
  apply embed_bind; [done|]. intros data.
  apply embed_bind; [done|]. intros _.
  apply embed_bind; [by apply runActionU_caught|]. intros r.
  apply embed_bind; [done|]. intros _ s. simpl.
  by destruct (u_canMatchMultiple self).
Qed.

Lemma process_triggerU_safe (self : UserWatchMan) (dca : gmap string string)
    (i : nat) (t : UserTrigger) (locals : gset string * gset string) :
  raises_Exception_only (u_action t) ->
  forall s, process_triggerU self dca i t locals s
            = embed (process_trigger (settings self) dca i (builtin_part t) locals) s.
Proof.
  intros Hsafe. unfold process_triggerU, process_trigger.
  apply embed_bind; [done|]. intros _.
  apply embed_bind; [done|]. intros [ms|e].
  - apply embed_bind; [done|]. intros nad.
    apply embed_bind; [|done].
    apply embed_for. intros n. by apply dispatchU_safe.
  - by apply embed_bind.
Qed.

Lemma for_triggersU_safe (self : UserWatchMan) (dca : gmap string string)
    (ts : list UserTrigger) :
  Forall (fun t => raises_Exception_only (u_action t)) ts ->
  forall i locals s,
    for_triggersU self dca i ts locals s
    = embed (for_triggers (settings self) dca i (builtin_part <$> ts) locals) s.
Proof.
  induction 1 as [|t ts Ht Hts IH]; intros i locals; simpl; [done|].
  apply embed_bind; [by apply process_triggerU_safe|].
  intros locals1. apply IH.
Qed.

Lemma cycleU_safe (self : UserWatchMan) :
  safe self -> forall s, cycleU self s = embed (cycle (settings self)) s.
Proof.
  intros Hsafe. unfold cycleU, cycle.
  apply embed_bind; [done|]. intros [D|e]; [|done].
  apply embed_bind; [|done].
  unfold scan_and_dispatchU, scan_and_dispatch.
  apply embed_bind; [by apply for_triggersU_safe|].
  intros locals s. simpl. by destruct (u_canMatchMultiple self).
Qed.

Lemma runU_safe (self : UserWatchMan) :
  safe self ->
  forall fuel s, runU fuel self s = embed (run fuel (settings self)) s.
Proof.
  intros Hsafe. induction fuel as [|fuel IH]; simpl; [done|].
  apply embed_bind; [done|]. intros [|]; [|by apply embed_bind].
  unfold iterationU, iteration.
  apply embed_bind; [by apply cycleU_safe|]. intros [|]; [|exact IH].
  apply embed_bind; [done|]. by intros [|].
Qed.


(** X11: provided the actions of the watcher raise nothing but exceptions
    derived from [Exception], and with triggers as their constructors
    leave them, no exception leaves [run]: whatever the listing, the
    matching, the reading of the files, the actions and the removals do,
    a bounded execution ends with the loop left or with the bound
    reached. *)
Theorem run_never_raises (fuel : nat) (self : UserWatchMan) (s : St) :
  safe self ->
  forallb pattern_processed (builtin_part <$> u_triggers self) = true ->
  exists s' evs o, runU fuel self s = (s', evs, Returned o).
Proof.
  intros Hsafe _. rewrite (runU_safe self Hsafe). unfold embed.
  destruct (run_no_raise fuel (settings self) s) as (s' & evs & o & ->).
  by exists s', evs, o.
Qed.

End Library.

(** * The theorems at concrete inputs *)

(** Contents of white space only, contents with a final newline, and
    contents without one. *)
Lemma file_lines_spec_witness :
  file_lines "  
 " = [] /\
  file_lines "a

b
" = ["a"; ""; "b"] /\
  file_lines "x
y" = ["x"; "y"].
Proof.
  destruct file_lines_spec as (H1 & H2 & H3 & _).
  split; [apply H1; reflexivity|].
  split.
  - apply (H2 "a

b"). reflexivity.
  - apply (H3 "x
y"); reflexivity.
Defined.

(** A watcher built for ["/"] watches ["."]. *)
Lemma rootDir_normalised_witness :
  exists self warned,
    WatchMan__init__ only_cwd "/" [ATrigger echo_trigger] false
      DEFAULT_POLL_TIME DEFAULT_STOP_CHECK_INTERVAL = Ok (self, warned) /\
    rootDir self = ".".
Proof.
  assert (H : WatchMan__init__ only_cwd "/" [ATrigger echo_trigger] false
                DEFAULT_POLL_TIME DEFAULT_STOP_CHECK_INTERVAL
              = Ok ({| rootDir := "."; triggers := [echo_trigger];
                       canMatchMultiple := false;
                       stopCheckInterval := DEFAULT_STOP_CHECK_INTERVAL;
                       pollTime := DEFAULT_POLL_TIME |}, false))
    by reflexivity.
  eexists _, _. split; [exact H|].
  destruct (rootDir_normalised only_cwd _ _ _ _ _ _ _ H) as (_ & _ & H3).
  exact (proj1 (H3 eq_refl)).
Defined.


(** ** Further properties at concrete inputs *)

(** A case-insensitive trigger built for [ReadMe] reports [readme]. *)
Lemma getPatternStr_of_constructed_witness :
  exists t,
    Trigger__init__ no_re TriggerCaseInsensitiveMatch (PyStr "ReadMe")
      (AnAction EchoAction) = Ok t /\
    getPatternStr t = PyStr "readme".
Proof.
  eexists. split; [reflexivity|].
  exact (proj2 (proj2 (getPatternStr_of_constructed no_re
                         TriggerCaseInsensitiveMatch "ReadMe"
                         (AnAction EchoAction) _ eq_refl))).
Defined.

(** A poll time of a tenth of a second with a stop-check interval of one
    second: the warning is written and the poll time becomes one second. *)
Lemma init_intervals_witness :
  exists self,
    WatchMan__init__ only_cwd "." [ATrigger echo_trigger] false (1 # 10) 1
    = Ok (self, true) /\
    pollTime self = 1%Q /\ ~ (pollTime self < stopCheckInterval self)%Q.
Proof.
  eexists. split; [reflexivity|].
  destruct (init_intervals only_cwd "." [ATrigger echo_trigger] false
              (1 # 10) 1 _ true eq_refl) as (_ & _ & H3 & _ & H5 & _).
  split; [exact H5 | exact H3].
Defined.

(** The second of three elements is the first that is no trigger. *)
Lemma init_first_non_trigger_witness :
  WatchMan__init__ only_cwd "." [ATrigger echo_trigger; NotTrigger; NotTrigger]
    false DEFAULT_POLL_TIME DEFAULT_STOP_CHECK_INTERVAL
  = Raise (ValueError (NotATrigger 1)).
Proof.
  apply (init_first_non_trigger only_cwd "."
           [ATrigger echo_trigger; NotTrigger; NotTrigger] false
           DEFAULT_POLL_TIME DEFAULT_STOP_CHECK_INTERVAL 1).
  - reflexivity.
  - intros j Hj. destruct j as [|j]; [|lia]. eexists. reflexivity.
Defined.

(** The watcher built for the current directory with the two overlapping
    triggers keeps them, in their order. *)
Lemma init_stores_arguments_witness :
  exists self,
    WatchMan__init__ only_cwd "."
      [ATrigger failing_trigger; ATrigger echo_trigger] true
      DEFAULT_POLL_TIME DEFAULT_STOP_CHECK_INTERVAL = Ok (self, false) /\
    [ATrigger failing_trigger; ATrigger echo_trigger] = ATrigger <$> triggers self /\
    canMatchMultiple self = true.
Proof.
  eexists. split; [reflexivity|].
  destruct (init_stores_arguments only_cwd "."
              [ATrigger failing_trigger; ATrigger echo_trigger] true
              DEFAULT_POLL_TIME DEFAULT_STOP_CHECK_INTERVAL _ false eq_refl)
    as (H1 & H2 & _).
  split; [exact H1 | exact H2].
Defined.

(** Two iterations over a directory that cannot be listed. *)
Lemma run_listing_fails_witness :
  run no_glob 2 (watcher false) unlistable
  = (unlistable,
     [Listdir; Stderr ListFailed; Sleep (DEFAULT_POLL_TIME / 5);
      Listdir; Stderr ListFailed; Sleep (DEFAULT_POLL_TIME / 5)],
     Ok StillRunning).
Proof.
  exact (run_listing_fails no_glob 2 (watcher false) unlistable OSError
           eq_refl eq_refl).
Defined.

(** The default intervals: the sleep phase starts with a sub-sleep of a
    quarter of a second. *)
Lemma sleep_phase_sub_sleeps_witness :
  exists k b,
    sleep_loop 3 (watcher false) 0 testdir
    = (testdir, replicate (S k) (Sleep DEFAULT_STOP_CHECK_INTERVAL), Ok b).
Proof.
  exact (proj2 (sleep_phase_sub_sleeps (watcher false) testdir 2 eq_refl)
           eq_refl).
Defined.

(** [^a] among [a1] and [b]: [a1] is a match, and is one alone. *)
Lemma matches_are_name_wise_witness :
  "a1" ∈ ["a1"; "b"] /\
  getFilenameMatches no_glob echo_trigger ["a1"] = Ok ["a1"].
Proof.
  apply (proj1 (matches_are_name_wise no_glob echo_trigger ["a1"; "b"] ["a1"]
                  "a1" eq_refl)).
  left.
Defined.

(** The two triggers are asked in their order. *)
Lemma cycle_asks_every_trigger_once_witness :
  (get_matches (cycle no_glob (watcher false) testdir).1.2).*1 = [0; 1].
Proof.
  refine (proj1 (cycle_asks_every_trigger_once no_glob (watcher false) testdir
                   (cycle no_glob (watcher false) testdir).1.1
                   (cycle no_glob (watcher false) testdir).1.2
                   (cycle no_glob (watcher false) testdir).2
                   ["a1"; "b"] eq_refl eq_refl _)).
  by destruct (cycle no_glob (watcher false) testdir) as [[? ?] ?].
Defined.

(** One iteration of [run] on the directory with [a1] and [b]. *)
Lemma run_only_removes_files_witness :
  listing (run no_glob 1 (watcher false) testdir).1.1 = Ok ["a1"; "b"] /\
  (files (run no_glob 1 (watcher false) testdir).1.1 !! "./testdir/b"
   = files testdir !! "./testdir/b" \/
   files (run no_glob 1 (watcher false) testdir).1.1 !! "./testdir/b" = None /\
   "./testdir/b" ∈ removes (run no_glob 1 (watcher false) testdir).1.2).
Proof.
  destruct (run_only_removes_files no_glob 1 (watcher false) testdir
              (run no_glob 1 (watcher false) testdir).1.1
              (run no_glob 1 (watcher false) testdir).1.2
              (run no_glob 1 (watcher false) testdir).2) as [H1 H2].
  - by destruct (run no_glob 1 (watcher false) testdir) as [[? ?] ?].
  - split; [exact H1 | exact (H2 "./testdir/b")].
Defined.

(** The action of the first trigger is called for [a1] with the two lines
    of the file. *)
Lemma run_calls_actions_of_claimed_files_witness :
  exists c, readable testdir (path_of (watcher false) "a1") = Some c /\
            ["line1"; "line2"] = file_lines c.
Proof.
  refine (proj2 (run_calls_actions_of_claimed_files no_glob 1 (watcher false)
                   testdir
                   (run no_glob 1 (watcher false) testdir).1.1
                   (run no_glob 1 (watcher false) testdir).1.2
                   (run no_glob 1 (watcher false) testdir).2
                   0 "a1" ["line1"; "line2"] _ _)).
  - by destruct (run no_glob 1 (watcher false) testdir) as [[? ?] ?].
  - apply list_elem_of_In. vm_compute. left. reflexivity.
Defined.

(** No trigger claims [b]: it is not dispatched and stays as it is. *)
Lemma run_leaves_unclaimed_files_witness :
  ("b" ∉ dispatched (run no_glob 1 (watcher false) testdir).1.2) /\
  files (run no_glob 1 (watcher false) testdir).1.1 !! "./testdir/b"
  = files testdir !! "./testdir/b".
Proof.
  destruct (run_leaves_unclaimed_files no_glob 1 (watcher false) testdir
              (run no_glob 1 (watcher false) testdir).1.1
              (run no_glob 1 (watcher false) testdir).1.2
              (run no_glob 1 (watcher false) testdir).2) as [_ H].
  - by destruct (run no_glob 1 (watcher false) testdir) as [[? ?] ?].
  - apply (H "b"). intros t Ht Hb.
    apply elem_of_cons in Ht as [->|Ht]; [exact (proj1 (elem_of_nil _) Hb)|].
    apply elem_of_cons in Ht as [->|Ht]; [exact (proj1 (elem_of_nil _) Hb)|].
    exact (proj1 (elem_of_nil _) Ht).
Defined.


(** The file that cannot be read, in multi-match mode: its removal and its
    reading are accounted for. *)
Lemma run_reports_failures_witness :
  (files (run no_glob 1 (watcher true) unreadable_dir).1.1 !! "./testdir/a1"
   = None \/
   RemoveFailed "./testdir/a1"
     ∈ stderr (run no_glob 1 (watcher true) unreadable_dir).1.2) /\
  (is_Some (readable unreadable_dir "./testdir/a1") \/
   ReadFailed "./testdir/a1"
     ∈ stderr (run no_glob 1 (watcher true) unreadable_dir).1.2).
Proof.
  destruct (run_reports_failures no_glob 1 (watcher true) unreadable_dir
              (run no_glob 1 (watcher true) unreadable_dir).1.1
              (run no_glob 1 (watcher true) unreadable_dir).1.2
              (run no_glob 1 (watcher true) unreadable_dir).2
              "./testdir/a1") as [H1 H2].
  - by destruct (run no_glob 1 (watcher true) unreadable_dir) as [[? ?] ?].
  - split; [apply H1 | apply H2];
      apply list_elem_of_In; vm_compute; left; reflexivity.
Defined.

(** The trigger of the base class, first of two: its failure is written
    under position 0, and the trigger after it is asked about the same
    names and has its action called for [a1]. *)
Lemma cycle_reports_match_failure_witness :
  (cycle no_glob base_watcher testdir).2 = Ok true /\
  MatchFailed 0 ∈ stderr (cycle no_glob base_watcher testdir).1.2 /\
  get_matches (cycle no_glob base_watcher testdir).1.2
  = [(0, ["a1"; "b"]); (1, ["a1"; "b"])] /\
  run_actions (cycle no_glob base_watcher testdir).1.2
  = [(1, "a1", ["line1"; "line2"])].
Proof.
  destruct (cycle_reports_match_failure no_glob base_watcher testdir
              (cycle no_glob base_watcher testdir).1.1
              (cycle no_glob base_watcher testdir).1.2
              (cycle no_glob base_watcher testdir).2
              ["a1"; "b"] 0 base_trigger eq_refl eq_refl) as (H1 & H2 & _).
  - by destruct (cycle no_glob base_watcher testdir) as [[? ?] ?].
  - reflexivity.
  - intros names. reflexivity.
  - split; [exact H1|]. split; [exact H2|]. split; vm_compute; reflexivity.
Defined.

(** After the cycle that removes [a1], [a1] is no candidate any more. *)
Lemma next_cycle_candidates_witness :
  "a1" ∉ candidates (watcher false)
           (cycle no_glob (watcher false) testdir).1.1 ["a1"; "b"].
Proof.
  intros H.
  apply (next_cycle_candidates no_glob (watcher false) testdir
           (cycle no_glob (watcher false) testdir).1.1
           (cycle no_glob (watcher false) testdir).1.2
           (cycle no_glob (watcher false) testdir).2
           ["a1"; "b"] "a1") in H as (_ & _ & H).
  - apply H. split; [|reflexivity].
    apply list_elem_of_In. vm_compute. left. reflexivity.
  - by destruct (cycle no_glob (watcher false) testdir) as [[? ?] ?].
Defined.

(** Both intervals at zero: the stop-check interval is the one reported. *)
Lemma init_interval_errors_witness :
  WatchMan__init__ only_cwd "." [ATrigger echo_trigger] false 0 0
  = Raise (ValueError BadStopCheckInterval).
Proof.
  apply (proj1 (init_interval_errors only_cwd "." [ATrigger echo_trigger] false
                  DEFAULT_POLL_TIME DEFAULT_STOP_CHECK_INTERVAL _ _ 0 0
                  eq_refl)).
  reflexivity.
Defined.

(** ** Which trigger gets a file, at concrete inputs *)

(** The single-match cycle of the two overlapping triggers on a directory
    with [a1] and [b]: [a1] is dispatched by trigger 0 only, and removed
    once. *)
Lemma single_match_earliest_matching_trigger_witness :
  filter (fun x => x.1.2 = "a1")
    (run_actions (cycle no_glob (watcher false) testdir).1.2)
  = [(0, "a1", ["line1"; "line2"])] /\
  filter (fun p => p = "./testdir/a1")
    (removes (cycle no_glob (watcher false) testdir).1.2)
  = ["./testdir/a1"] /\
  files (cycle no_glob (watcher false) testdir).1.1 !! "./testdir/a1" = None.
Proof.
  destruct (single_match_earliest_matching_trigger no_glob (watcher false)
              testdir
              (cycle no_glob (watcher false) testdir).1.1
              (cycle no_glob (watcher false) testdir).1.2
              (cycle no_glob (watcher false) testdir).2
              ["a1"; "b"] 0 failing_trigger "a1") as (_ & _ & _ & H & _).
  - reflexivity.
  - reflexivity.
  - by destruct (cycle no_glob (watcher false) testdir) as [[? ?] ?].
  - vm_compute. reflexivity.
  - reflexivity.
  - discriminate.
  - left.
  - intros j tj Hj. lia.
  - destruct (H _ eq_refl) as (H1 & H2 & H3).
    split; [exact H1|]. split; [exact H2|]. apply H3. reflexivity.
Defined.

(** Two case-insensitive triggers for [readme] over [Readme] and [README],
    in single-match mode: the pattern of the first trigger matches
    [README], yet the second trigger is asked about [README] and
    dispatches it. And the two [^a] triggers over a file [a1] that cannot
    be read: both patterns match it, no action is called for it and it is
    not deleted. *)
Lemma single_match_later_trigger_dispatches :
  ("README" ∈ matches_of no_glob readme_trigger ["README"] /\
   get_matches (cycle no_glob (readme_watcher false) readme_dir).1.2
   = [(0, ["Readme"; "README"]); (1, ["README"])] /\
   run_actions (cycle no_glob (readme_watcher false) readme_dir).1.2
   = [(0, "Readme", ["x"]); (1, "README", ["y"])]) /\
  ("a1" ∈ matches_of no_glob failing_trigger ["a1"] /\
   run_actions (cycle no_glob (watcher false) unreadable_dir).1.2 = [] /\
   removes (cycle no_glob (watcher false) unreadable_dir).1.2 = [] /\
   files (cycle no_glob (watcher false) unreadable_dir).1.1 !! "./testdir/a1"
   = files unreadable_dir !! "./testdir/a1").
Proof.
  split.
  - split; [left|]. split; vm_compute; reflexivity.
  - split; [left|]. split; [|split]; vm_compute; reflexivity.
Qed.

(** The multi-match cycle of the two overlapping triggers: both are asked
    about the full set, both dispatch [a1], and [a1] is removed once, at
    the end. *)
Lemma multi_match_every_matching_trigger_witness :
  exists s' pre post,
    cycle no_glob (watcher true) testdir = (s', Listdir :: pre ++ post, Ok true) /\
    get_matches pre = [(0, ["a1"; "b"]); (1, ["a1"; "b"])] /\
    removes pre = [] /\ run_actions post = [] /\
    (0, "a1", ["line1"; "line2"]) ∈ run_actions pre /\
    (1, "a1", ["line1"; "line2"]) ∈ run_actions pre /\
    filter (fun p => p = "./testdir/a1") (removes post) = ["./testdir/a1"] /\
    files s' !! "./testdir/a1" = None.
Proof.
  destruct (multi_match_every_matching_trigger no_glob (watcher true) testdir
              ["a1"; "b"] eq_refl eq_refl)
    as (s' & pre & post & Hc & Hg & Hr & Ha & _ & H).
  exists s', pre, post.
  assert (Hcand : "a1" ∈ candidates (watcher true) testdir ["a1"; "b"])
    by (vm_compute; reflexivity).
  assert (Hne : TriggerRE <> TriggerCaseInsensitiveMatch) by discriminate.
  assert (Hm : forall a, "a1" ∈ matches_of no_glob
                 {| t_cls := TriggerRE; t_pattern := PyRe re_caret_a;
                    t_action := a |} ["a1"]) by (intros a; left).
  destruct (H 0 failing_trigger "a1" eq_refl Hne Hcand (Hm _)) as (H0 & _).
  destruct (H 1 echo_trigger "a1" eq_refl Hne Hcand (Hm _)) as (H1 & _).
  destruct (H0 _ eq_refl) as (H01 & _).
  destruct (H1 _ eq_refl) as (H11 & H12 & H13).
  split; [exact Hc|]. split; [rewrite Hg; vm_compute; reflexivity|].
  split; [exact Hr|]. split; [exact Ha|].
  split; [exact H01|]. split; [exact H11|].
  split; [exact H12|]. apply H13. reflexivity.
Defined.

(** The two case-insensitive triggers in multi-match mode: both patterns
    match [README], no action is called for it and it is not deleted. And
    the two [^a] triggers over a file [a1] that cannot be read: both
    patterns match it and no action is called for it. *)
Lemma multi_match_matching_trigger_silent :
  ("README" ∈ matches_of no_glob readme_trigger ["README"] /\
   get_matches (cycle no_glob (readme_watcher true) readme_dir).1.2
   = [(0, ["Readme"; "README"]); (1, ["Readme"; "README"])] /\
   run_actions (cycle no_glob (readme_watcher true) readme_dir).1.2
   = [(0, "Readme", ["x"]); (1, "Readme", ["x"])] /\
   removes (cycle no_glob (readme_watcher true) readme_dir).1.2
   = ["./testdir/Readme"] /\
   files (cycle no_glob (readme_watcher true) readme_dir).1.1 !! "./testdir/README"
   = files readme_dir !! "./testdir/README") /\
  ("a1" ∈ matches_of no_glob failing_trigger ["a1"] /\
   get_matches (cycle no_glob (watcher true) unreadable_dir).1.2
   = [(0, ["a1"]); (1, ["a1"])] /\
   run_actions (cycle no_glob (watcher true) unreadable_dir).1.2 = []).
Proof.
  split.
  - split; [left|]. split; [|split; [|split]]; vm_compute; reflexivity.
  - split; [left|]. split; vm_compute; reflexivity.
Qed.


(** ** Actions that are user code, at concrete inputs *)



(** One iteration of [run] with the two overlapping triggers, the first
    with an action that raises an [Exception]: no exception leaves it. *)
Lemma run_never_raises_witness :
  exists s' evs o,
    runU no_glob 1 (user_watcher [failing_user_trigger; echo_user_trigger] false)
      testdir = (s', evs, Returned o).
Proof.
  apply (run_never_raises no_glob 1
           (user_watcher [failing_user_trigger; echo_user_trigger] false)
           testdir).
  - repeat constructor; intros n d b; discriminate.
  - reflexivity.
Defined.
